(** * The capture-based GraphQL mock pipeline of playwright-mocking-lab

    A shallow embedding of
      - mocks/graphql/mock-extractor.ts  (operation extraction, schema hash),
      - scripts/validate-mocks.ts        (drift validation),
      - scripts/record-interactive.ts    (HAR merge),
      - scripts/update-registry.ts       (registry rebuild),
      - scripts/update-mocks.ts, the extraction script and the shape
        signature of the HAR tests,
    followed by the properties of the pipeline.

    Conventions.  A JavaScript value is a term of [value], as [JSON.parse]
    gives it: every member of an object is an own data property.  A text is
    a [string] whose characters are read as code units below 256.  A JSON
    number is an integer that a double holds exactly (below 2^53 in
    absolute value), which prints in plain decimal; the scripts test
    numbers for truthiness, use them as keys and print them, and compute
    nothing else with them.  A computation that can throw returns an
    [option], [None] standing for the exception.  A [Set] or a [Map] is the
    list of its keys (or entries) in insertion order. *)

From Stdlib Require Import String Ascii List ZArith Bool Arith Lia.
From Stdlib Require Import Permutation Sorted DecimalString.
Import ListNotations.
Open Scope string_scope.
Open Scope nat_scope.
Open Scope list_scope.

Set Implicit Arguments.
Set Warnings "-register-all".

(** ** JavaScript values *)

Inductive value : Type :=
| VUndefined
| VNull
| VBool (b : bool)
| VNumber (n : Z)
| VString (s : string)
| VArray (items : list value)
| VObject (fields : list (string * value)).

(** [fields] lists the own properties in the order [Object.keys] reports
    them; a well-formed object has no repeated key. *)

Fixpoint assoc {A : Type} (k : string) (l : list (string * A)) : option A :=
  match l with
  | [] => None
  | (k', x) :: r => if String.eqb k k' then Some x else assoc k r
  end.

(** ToBoolean *)
Definition truthy (v : value) : bool :=
  match v with
  | VUndefined | VNull => false
  | VBool b => b
  | VNumber n => negb (Z.eqb n 0)
  | VString s => negb (String.eqb s EmptyString)
  | VArray _ | VObject _ => true
  end.

(** [v.k] for one of the keys the scripts read ([operationName], [query],
    [data], [errors], [message]): a TypeError on [null] and [undefined],
    the own property of an object, [undefined] everywhere else. *)
Definition get_prop (v : value) (k : string) : option value :=
  match v with
  | VUndefined | VNull => None
  | VObject fs => Some (match assoc k fs with Some x => x | None => VUndefined end)
  | _ => Some VUndefined
  end.

(** [v === s] for a string literal [s] *)
Definition is_string (v : value) (s : string) : bool :=
  match v with
  | VString t => String.eqb t s
  | _ => false
  end.

(** SameValueZero, the equality of [Set] and [Map] keys.  Primitives are
    compared by value.  Objects and arrays are compared by reference: every
    key the scripts look up comes out of a [JSON.parse] call of its own, so
    it is a fresh reference and equals no stored key. *)
Definition same_value_zero (a b : value) : bool :=
  match a, b with
  | VUndefined, VUndefined => true
  | VNull, VNull => true
  | VBool x, VBool y => Bool.eqb x y
  | VNumber x, VNumber y => Z.eqb x y
  | VString x, VString y => String.eqb x y
  | _, _ => false
  end.

Definition primitive (v : value) : bool :=
  match v with
  | VArray _ | VObject _ => false
  | _ => true
  end.

(** ** Exceptions *)

Definition try_catch {A : Type} (body : option A) (handler : A) : A :=
  match body with
  | Some a => a
  | None => handler
  end.

Notation "'let?' x ':=' e 'in' k" :=
  (match e with Some x => k | None => None end)
  (at level 10, x name, e at level 200, k at level 200).

(** ** Sets and maps in insertion order *)

Section Collections.
Variable K : Type.
Variable keq : K -> K -> bool.

Definition set_has (k : K) (s : list K) : bool := existsb (keq k) s.

Definition set_add (k : K) (s : list K) : list K :=
  if set_has k s then s else s ++ [k].

Variable V : Type.

Fixpoint map_get (k : K) (m : list (K * V)) : option V :=
  match m with
  | [] => None
  | (k', v) :: r => if keq k k' then Some v else map_get k r
  end.

Definition map_has (k : K) (m : list (K * V)) : bool :=
  existsb (fun e => keq k (fst e)) m.

(** [m.set(k, v)]: an existing key keeps its place and takes the new
    value, a new key goes to the end. *)
Fixpoint map_set (k : K) (v : V) (m : list (K * V)) : list (K * V) :=
  match m with
  | [] => [(k, v)]
  | (k', v') :: r =>
      if keq k k' then (k', v) :: r else (k', v') :: map_set k v r
  end.
End Collections.

(** ** Texts *)

Definition is_space (c : ascii) : bool :=
  let n := nat_of_ascii c in
  ((9 <=? n) && (n <=? 13)) || (n =? 32) || (n =? 160).

Definition is_word (c : ascii) : bool :=
  let n := nat_of_ascii c in
  ((48 <=? n) && (n <=? 57)) || ((65 <=? n) && (n <=? 90))
  || ((97 <=? n) && (n <=? 122)) || (n =? 95).

(** the longest prefix of characters satisfying [p], and the rest *)
Fixpoint span (p : ascii -> bool) (s : string) : string * string :=
  match s with
  | EmptyString => (EmptyString, EmptyString)
  | String c r =>
      if p c then let (a, b) := span p r in (String c a, b)
      else (EmptyString, s)
  end.

Fixpoint drop_prefix (p s : string) : option string :=
  match p, s with
  | EmptyString, _ => Some s
  | String a p', String b s' =>
      if Ascii.eqb a b then drop_prefix p' s' else None
  | String _ _, EmptyString => None
  end.

Definition nonempty (s : string) : bool := negb (String.eqb s EmptyString).

(** the class [[a-f0-9]] *)
Definition is_lower_hex (c : ascii) : bool :=
  let n := nat_of_ascii c in
  ((48 <=? n) && (n <=? 57)) || ((97 <=? n) && (n <=? 102)).

(** [\s+(\w+)] matched at the start of [s]; both classes are disjoint, so
    the greedy runs are the only candidates. *)
Definition match_name_after (s : string) : option string :=
  let (sp, rest) := span is_space s in
  if nonempty sp then
    let (w, _) := span is_word rest in
    if nonempty w then Some w else None
  else None.

(** [(?:query|mutation)\s+(\w+)] matched at the start of [s] *)
Definition match_here (s : string) : option string :=
  match
    match drop_prefix "query" s with
    | Some r => match_name_after r
    | None => None
    end
  with
  | Some w => Some w
  | None =>
      match drop_prefix "mutation" s with
      | Some r => match_name_after r
      | None => None
      end
  end.

(** [s.match(/(?:query|mutation)\s+(\w+)/)], first capture of the
    leftmost match *)
Fixpoint match_operation (s : string) : option string :=
  match match_here s with
  | Some w => Some w
  | None =>
      match s with
      | EmptyString => None
      | String _ r => match_operation r
      end
  end.

(** [s.indexOf(p)] *)
Fixpoint index_from (i : nat) (p s : string) : option nat :=
  match drop_prefix p s with
  | Some _ => Some i
  | None =>
      match s with
      | EmptyString => None
      | String _ r => index_from (S i) p r
      end
  end.

Definition indexOf (s p : string) : option nat := index_from 0 p s.

(** [s.endsWith(p)] *)
Definition endsWith (s p : string) : bool :=
  (String.length p <=? String.length s)
  && String.eqb (substring (String.length s - String.length p) (String.length p) s) p.

(** [s.replace(p, r)] with a string pattern: the first occurrence only *)
Definition replace_first (p r s : string) : string :=
  match indexOf s p with
  | Some i =>
      substring 0 i s ++ r
      ++ substring (i + String.length p) (String.length s - (i + String.length p)) s
  | None => s
  end%string.

(** [xs.join(sep)] on strings *)
Fixpoint join (sep : string) (xs : list string) : string :=
  match xs with
  | [] => EmptyString
  | [x] => x
  | x :: r => (x ++ sep ++ join sep r)%string
  end.

(** ToString of an integer *)
Definition string_of_Z (n : Z) : string := NilEmpty.string_of_int (Z.to_int n).

(** ToString, as [join] and template literals apply it; [None] is its
    TypeError.  An object prints as [[object Object]] through
    [Object.prototype.toString]; an own member named [toString] hides that
    method and, being no function, leaves no way to a primitive.  An array
    prints its items joined with commas, [null] and [undefined] as the
    empty text. *)
Fixpoint to_js_string (v : value) : option string :=
  match v with
  | VUndefined => Some "undefined"
  | VNull => Some "null"
  | VBool true => Some "true"
  | VBool false => Some "false"
  | VNumber n => Some (string_of_Z n)
  | VString s => Some s
  | VArray l =>
      let? parts :=
        (fix items (l : list value) : option (list string) :=
           match l with
           | [] => Some []
           | x :: r =>
               let? t :=
                 match x with
                 | VUndefined | VNull => Some EmptyString
                 | _ => to_js_string x
                 end in
               let? ts := items r in
               Some (t :: ts)
           end) l in
      Some (join "," parts)
  | VObject fs =>
      if map_has String.eqb "toString" fs then None else Some "[object Object]"
  end.

(** default [Array.prototype.sort] on strings: ascending by code units *)
Fixpoint sort_insert (x : string) (l : list string) : list string :=
  match l with
  | [] => [x]
  | y :: r => if String.leb x y then x :: l else y :: sort_insert x r
  end.

Fixpoint js_sort (l : list string) : list string :=
  match l with
  | [] => []
  | x :: r => sort_insert x (js_sort r)
  end.

(** ** JSON.stringify(value, null, 2) *)

Definition nl : string := String (ascii_of_nat 10) EmptyString.
Definition dquote : string := String (ascii_of_nat 34) EmptyString.
Definition backslash : string := String (ascii_of_nat 92) EmptyString.

Definition hex_digit (n : nat) : ascii :=
  if n <? 10 then ascii_of_nat (48 + n) else ascii_of_nat (87 + n).

Definition hex_byte (n : nat) : string :=
  String (hex_digit (n / 16)) (String (hex_digit (n mod 16)) EmptyString).

(** QuoteJSONString, character by character *)
Definition json_escape (c : ascii) : string :=
  let n := nat_of_ascii c in
  if n =? 34 then backslash ++ dquote
  else if n =? 92 then backslash ++ backslash
  else if n =? 8 then backslash ++ "b"
  else if n =? 12 then backslash ++ "f"
  else if n =? 10 then backslash ++ "n"
  else if n =? 13 then backslash ++ "r"
  else if n =? 9 then backslash ++ "t"
  else if n <? 32 then backslash ++ "u00" ++ hex_byte n
  else String c EmptyString.

Fixpoint json_escape_all (s : string) : string :=
  match s with
  | EmptyString => EmptyString
  | String c r => (json_escape c ++ json_escape_all r)%string
  end.

Definition json_quote (s : string) : string :=
  (dquote ++ json_escape_all s ++ dquote)%string.

Definition gap : string := "  ".

(** SerializeJSONProperty with a gap of two spaces; [None] is the
    [undefined] that JSON.stringify returns for an [undefined] value. *)
Fixpoint stringify (indent : string) (v : value) {struct v} : option string :=
  match v with
  | VUndefined => None
  | VNull => Some "null"
  | VBool true => Some "true"
  | VBool false => Some "false"
  | VNumber n => Some (string_of_Z n)
  | VString s => Some (json_quote s)
  | VArray l =>
      let inner := (indent ++ gap)%string in
      let parts :=
        (fix items (l : list value) : list string :=
           match l with
           | [] => []
           | x :: r =>
               match stringify inner x with
               | Some t => t
               | None => "null"
               end :: items r
           end) l in
      Some
        match parts with
        | [] => "[]"
        | _ =>
            ("[" ++ nl ++ inner ++ join ("," ++ nl ++ inner) parts
             ++ nl ++ indent ++ "]")%string
        end
  | VObject fs =>
      let inner := (indent ++ gap)%string in
      let parts :=
        (fix members (fs : list (string * value)) : list string :=
           match fs with
           | [] => []
           | (k, x) :: r =>
               match stringify inner x with
               | Some t => (json_quote k ++ ": " ++ t)%string :: members r
               | None => members r
               end
           end) fs in
      Some
        match parts with
        | [] => "{}"
        | _ =>
            ("{" ++ nl ++ inner ++ join ("," ++ nl ++ inner) parts
             ++ nl ++ indent ++ "}")%string
        end
  end.

Definition JSON_stringify_2 (v : value) : option string := stringify EmptyString v.

(** ** Property order of an object under construction *)

Definition is_digit (c : ascii) : bool :=
  let n := nat_of_ascii c in (48 <=? n) && (n <=? 57).

Fixpoint all_digits (s : string) : bool :=
  match s with
  | EmptyString => true
  | String c r => is_digit c && all_digits r
  end.

Fixpoint decimal_value (acc : Z) (s : string) : Z :=
  match s with
  | EmptyString => acc
  | String c r => decimal_value (10 * acc + Z.of_nat (nat_of_ascii c - 48)) r
  end.

(** an array index is a canonical numeric string below 2^32 - 1 *)
Definition array_index (k : string) : option Z :=
  match k with
  | EmptyString => None
  | String c r =>
      if all_digits k && (negb (Ascii.eqb c "0"%char) || String.eqb r EmptyString)
      then let n := decimal_value 0 k in
           if (n <? 4294967295)%Z then Some n else None
      else None
  end.

Fixpoint insert_index (i : Z) (k : string) (v : value)
    (fs : list (string * value)) : list (string * value) :=
  match fs with
  | [] => [(k, v)]
  | (k', v') :: r =>
      match array_index k' with
      | Some j =>
          if (i <? j)%Z then (k, v) :: fs else (k', v') :: insert_index i k v r
      | None => (k, v) :: fs
      end
  end.

(** [obj[k] = v] for a key other than [__proto__]: an existing property
    keeps its place; a new array index is placed among the indices in
    ascending order, before every other key; any other new key goes to the
    end. *)
Definition obj_set (fs : list (string * value)) (k : string) (v : value)
    : list (string * value) :=
  if map_has String.eqb k fs then map_set String.eqb k v fs
  else match array_index k with
       | Some i => insert_index i k v fs
       | None => fs ++ [(k, v)]
       end.

Definition keys (fs : list (string * value)) : list string := map fst fs.

(** ** generateSchemaHash (mock-extractor.ts) *)

(** [structure[key] = ...] on the object literal [{}]: the key
    [__proto__] goes to the setter of [Object.prototype], which sets the
    prototype or does nothing and leaves no own property. *)
Fixpoint getStructure (obj : value) : value :=
  match obj with
  | VNull => VString "null"
  | VUndefined => VString "undefined"
  | VArray l =>
      match l with
      | x :: _ => VArray [VString "array"; getStructure x]
      | [] => VArray [VString "array"; VString "empty"]
      end
  | VObject fs =>
      let shaped :=
        (fix shapes (fs : list (string * value)) : list (string * value) :=
           match fs with
           | [] => []
           | (k, x) :: r => (k, getStructure x) :: shapes r
           end) fs in
      VObject
        (fold_left
           (fun structure key =>
              if String.eqb key "__proto__" then structure
              else
                obj_set structure key
                  match assoc key shaped with Some t => t | None => VUndefined end)
           (js_sort (keys fs)) [])
  | VBool _ => VString "boolean"
  | VNumber _ => VString "number"
  | VString _ => VString "string"
  end.

(** ** MD5 (crypto.createHash("md5")), after RFC 1321 *)

Definition w32 (x : Z) : Z := Z.land x 4294967295.

Definition not32 (x : Z) : Z := Z.lxor x 4294967295.

Definition rotl32 (x c : Z) : Z :=
  w32 (Z.lor (Z.shiftl x c) (Z.shiftr x (32 - c))).

Definition md5_K : list Z :=
  [3614090360; 3905402710; 606105819; 3250441966; 4118548399; 1200080426;
   2821735955; 4249261313; 1770035416; 2336552879; 4294925233; 2304563134;
   1804603682; 4254626195; 2792965006; 1236535329; 4129170786; 3225465664;
   643717713; 3921069994; 3593408605; 38016083; 3634488961; 3889429448;
   568446438; 3275163606; 4107603335; 1163531501; 2850285829; 4243563512;
   1735328473; 2368359562; 4294588738; 2272392833; 1839030562; 4259657740;
   2763975236; 1272893353; 4139469664; 3200236656; 681279174; 3936430074;
   3572445317; 76029189; 3654602809; 3873151461; 530742520; 3299628645;
   4096336452; 1126891415; 2878612391; 4237533241; 1700485571; 2399980690;
   4293915773; 2240044497; 1873313359; 4264355552; 2734768916; 1309151649;
   4149444226; 3174756917; 718787259; 3951481745]%Z.

Definition md5_s : list Z :=
  [7; 12; 17; 22; 7; 12; 17; 22; 7; 12; 17; 22; 7; 12; 17; 22;
   5; 9; 14; 20; 5; 9; 14; 20; 5; 9; 14; 20; 5; 9; 14; 20;
   4; 11; 16; 23; 4; 11; 16; 23; 4; 11; 16; 23; 4; 11; 16; 23;
   6; 10; 15; 21; 6; 10; 15; 21; 6; 10; 15; 21; 6; 10; 15; 21]%Z.

(** the UTF-8 bytes of a text *)
Fixpoint utf8 (s : string) : list Z :=
  match s with
  | EmptyString => []
  | String c r =>
      let n := Z.of_nat (nat_of_ascii c) in
      if (n <? 128)%Z then n :: utf8 r
      else (192 + Z.shiftr n 6)%Z :: (128 + Z.land n 63)%Z :: utf8 r
  end.

Fixpoint le_bytes (count : nat) (x : Z) : list Z :=
  match count with
  | O => []
  | S c => Z.land x 255 :: le_bytes c (Z.shiftr x 8)
  end.

Fixpoint le_word (bs : list Z) : Z :=
  match bs with
  | [] => 0%Z
  | b :: r => (b + Z.shiftl (le_word r) 8)%Z
  end.

Definition md5_pad (msg : list Z) : list Z :=
  let n := S (length msg) in
  let zeros := (120 - n mod 64) mod 64 in
  msg ++ [128%Z] ++ repeat 0%Z zeros ++ le_bytes 8 (8 * Z.of_nat (length msg)).

Fixpoint words (count : nat) (bs : list Z) : list Z :=
  match count with
  | O => []
  | S c => le_word (firstn 4 bs) :: words c (skipn 4 bs)
  end.

Definition md5_state : Type := Z * Z * Z * Z.

Definition md5_round (M : list Z) (st : md5_state) (i : nat) : md5_state :=
  let '(A, B, C, D) := st in
  let '(F, g) :=
    if i <? 16 then (Z.lor (Z.land B C) (Z.land (not32 B) D), i)
    else if i <? 32 then (Z.lor (Z.land D B) (Z.land (not32 D) C), (5 * i + 1) mod 16)
    else if i <? 48 then (Z.lxor (Z.lxor B C) D, (3 * i + 5) mod 16)
    else (Z.lxor C (Z.lor B (not32 D)), (7 * i) mod 16) in
  let F' := w32 (F + A + nth i md5_K 0 + nth g M 0)%Z in
  (D, w32 (B + rotl32 F' (nth i md5_s 0%Z)), B, C).

Definition md5_chunk (st : md5_state) (chunk : list Z) : md5_state :=
  let '(a0, b0, c0, d0) := st in
  let '(A, B, C, D) := fold_left (md5_round (words 16 chunk)) (seq 0 64) st in
  (w32 (a0 + A), w32 (b0 + B), w32 (c0 + C), w32 (d0 + D)).

Fixpoint md5_chunks (count : nat) (st : md5_state) (bs : list Z) : md5_state :=
  match count with
  | O => st
  | S c => md5_chunks c (md5_chunk st (firstn 64 bs)) (skipn 64 bs)
  end.

Fixpoint hex_of_bytes (bs : list Z) : string :=
  match bs with
  | [] => EmptyString
  | b :: r => (hex_byte (Z.to_nat b) ++ hex_of_bytes r)%string
  end.

(** [crypto.createHash("md5").update(s).digest("hex")] *)
Definition md5_hex (s : string) : string :=
  let padded := md5_pad (utf8 s) in
  let '(a, b, c, d) :=
    md5_chunks (length padded / 64)
      (1732584193, 4023233417, 2562383102, 271733878)%Z padded in
  hex_of_bytes (le_bytes 4 a ++ le_bytes 4 b ++ le_bytes 4 c ++ le_bytes 4 d).

(** [None] is the TypeError of [update(undefined)]. *)
Definition generateSchemaHash (response : value) : option string :=
  let structure := getStructure response in
  let? structureStr := JSON_stringify_2 structure in
  Some (md5_hex structureStr).

(** ** A JSON reader

    The scripts call the platform's [JSON.parse]; the model of each script
    takes it as a parameter.  [json_parse] is the reader used to run the
    scripts on concrete texts: JSON with integer numbers, the two-character
    escapes and [\u00XX]. *)

Definition is_json_ws (c : ascii) : bool :=
  let n := nat_of_ascii c in (n =? 32) || (n =? 9) || (n =? 10) || (n =? 13).

Fixpoint skip_ws (s : string) : string :=
  match s with
  | String c r => if is_json_ws c then skip_ws r else s
  | EmptyString => s
  end.

Definition hex_value (c : ascii) : option nat :=
  let n := nat_of_ascii c in
  if (48 <=? n) && (n <=? 57) then Some (n - 48)
  else if (97 <=? n) && (n <=? 102) then Some (n - 87)
  else if (65 <=? n) && (n <=? 70) then Some (n - 55)
  else None.

Definition unescape (e : ascii) : option ascii :=
  let n := nat_of_ascii e in
  if n =? 34 then Some e
  else if n =? 92 then Some e
  else if n =? 47 then Some e
  else if n =? 98 then Some (ascii_of_nat 8)
  else if n =? 102 then Some (ascii_of_nat 12)
  else if n =? 110 then Some (ascii_of_nat 10)
  else if n =? 114 then Some (ascii_of_nat 13)
  else if n =? 116 then Some (ascii_of_nat 9)
  else None.

(** the characters of a string literal after its opening quote, and the
    text after its closing quote *)
Fixpoint read_string (s : string) : option (string * string) :=
  match s with
  | EmptyString => None
  | String c r =>
      let n := nat_of_ascii c in
      if n =? 34 then Some (EmptyString, r)
      else if n =? 92 then
        match r with
        | String e r' =>
            if nat_of_ascii e =? 117 then
              match r' with
              | String "0" (String "0" (String h (String l r''))) =>
                  let? a := hex_value h in
                  let? b := hex_value l in
                  let? p := read_string r'' in
                  Some (String (ascii_of_nat (16 * a + b)) (fst p), snd p)
              | _ => None
              end
            else
              let? x := unescape e in
              let? p := read_string r' in
              Some (String x (fst p), snd p)
        | EmptyString => None
        end
      else if n <? 32 then None
      else
        let? p := read_string r in
        Some (String c (fst p), snd p)
  end.

Definition read_number (s : string) : option (value * string) :=
  let '(neg, body) :=
    match s with
    | String "-" r => (true, r)
    | _ => (false, s)
    end in
  let (ds, rest) := span is_digit body in
  let leading_zero :=
    match ds with
    | String "0" (String _ _) => true
    | _ => false
    end in
  let fractional :=
    match rest with
    | String c _ => let n := nat_of_ascii c in (n =? 46) || (n =? 101) || (n =? 69)
    | EmptyString => false
    end in
  if nonempty ds && negb leading_zero && negb fractional then
    let n := decimal_value 0 ds in
    Some (VNumber (if neg then (- n)%Z else n), rest)
  else None.

Fixpoint read_value (fuel : nat) (s : string) : option (value * string) :=
  match fuel with
  | O => None
  | S f =>
      match skip_ws s with
      | EmptyString => None
      | String c r =>
          let n := nat_of_ascii c in
          if n =? 123 then
            match skip_ws r with
            | String "}" r' => Some (VObject [], r')
            | _ => read_members f [] r
            end
          else if n =? 91 then
            match skip_ws r with
            | String "]" r' => Some (VArray [], r')
            | _ => read_items f [] r
            end
          else if n =? 34 then
            let? p := read_string r in Some (VString (fst p), snd p)
          else
            match drop_prefix "null" (String c r) with
            | Some r' => Some (VNull, r')
            | None =>
            match drop_prefix "true" (String c r) with
            | Some r' => Some (VBool true, r')
            | None =>
            match drop_prefix "false" (String c r) with
            | Some r' => Some (VBool false, r')
            | None => read_number (String c r)
            end end end
      end
  end
with read_items (fuel : nat) (acc : list value) (s : string)
    : option (value * string) :=
  match fuel with
  | O => None
  | S f =>
      let? p := read_value f s in
      match skip_ws (snd p) with
      | String "," r => read_items f (acc ++ [fst p]) r
      | String "]" r => Some (VArray (acc ++ [fst p]), r)
      | _ => None
      end
  end
with read_members (fuel : nat) (acc : list (string * value)) (s : string)
    : option (value * string) :=
  match fuel with
  | O => None
  | S f =>
      match skip_ws s with
      | String c r =>
          if nat_of_ascii c =? 34 then
            let? k := read_string r in
            match skip_ws (snd k) with
            | String ":" r' =>
                let? p := read_value f r' in
                match skip_ws (snd p) with
                | String "," r'' => read_members f (obj_set acc (fst k) (fst p)) r''
                | String "}" r'' => Some (VObject (obj_set acc (fst k) (fst p)), r'')
                | _ => None
                end
            | _ => None
            end
          else None
      | EmptyString => None
      end
  end.

Definition json_parse (s : string) : option value :=
  let? p := read_value (2 * String.length s + 2) s in
  match skip_ws (snd p) with
  | EmptyString => Some (fst p)
  | _ => None
  end.

(** JSON texts are written below with [`] in place of the double quote. *)
Fixpoint qq (s : string) : string :=
  match s with
  | EmptyString => EmptyString
  | String c r => String (if nat_of_ascii c =? 96 then ascii_of_nat 34 else c) (qq r)
  end.


(** ** The capture (HAR) *)

(** [HarEntry] of mock-extractor.ts: [postData] is [request.postData?.text],
    [responseText] is [response.content.text]; both are optional. *)
Record HarEntry : Type := mkEntry {
  url : string;
  method : string;
  postData : option string;
  responseText : option string
}.

(** What reading the capture gives: [readFile] rejects, [JSON.parse] of the
    content throws, or the content is a [HarFile] with these [log.entries]. *)
Inductive har_file : Type :=
| HarMissing
| HarMalformed
| HarLog (entries : list HarEntry).

(** an optional text that is neither absent nor empty ([if (!text)]) *)
Definition present (text : option string) : option string :=
  match text with
  | Some t => if nonempty t then Some t else None
  | None => None
  end.


Record GraphQLOperation : Type := mkOperation {
  operationName : value;
  query : value
}.

Definition INTROSPECTION : string := "IntrospectionQuery".

(** ** mock-extractor.ts *)

Section Extractor.
Variable JSON_parse : string -> option value.

(** the result of [text.match(...)] as [match ? match[1] : null] *)
Definition matched_name (text : string) : value :=
  match match_operation text with
  | Some name => VString name
  | None => VNull
  end.

(** [q.match(...)] on a value: a TypeError unless [q] is a string *)
Definition query_name (q : value) : option value :=
  match q with
  | VString text => Some (matched_name text)
  | _ => None
  end.

Definition extractOperationName (postData : option string) : value :=
  match present postData with
  | None => VNull
  | Some text =>
      try_catch
        (let? parsed := JSON_parse text in
         let? name := get_prop parsed "operationName" in
         if truthy name then Some name
         else
           let? q := get_prop parsed "query" in
           if truthy q then query_name q else Some VNull)
        (matched_name text)
  end.

(** one turn of the loop of [extractGraphQLOperations]; the state is
    [operations] and [seen] *)
Definition operations_step
    (st : list GraphQLOperation * list value) (entry : HarEntry)
    : list GraphQLOperation * list value :=
  let '(operations, seen) := st in
  if negb (String.eqb (method entry) "POST") then st
  else
    match present (postData entry) with
    | None => st
    | Some text =>
        try_catch
          (let? parsed := JSON_parse text in
           let? explicit := get_prop parsed "operationName" in
           let name :=
             if truthy explicit then explicit
             else extractOperationName (postData entry) in
           if negb (truthy name) || is_string name INTROSPECTION then Some st
           else if set_has same_value_zero name seen then Some st
           else
             let? q := get_prop parsed "query" in
             Some (operations ++ [mkOperation name q],
                   set_add same_value_zero name seen))
          st
    end.

Definition extractGraphQLOperations (har : har_file) : list GraphQLOperation :=
  match har with
  | HarLog entries => fst (fold_left operations_step entries ([], []))
  | HarMissing | HarMalformed => []
  end.

(** one turn of the loop of [extractGraphQLMocks] *)
Definition mocks_step
    (mocks : list (value * value)) (entry : HarEntry) : list (value * value) :=
  if negb (String.eqb (method entry) "POST") then mocks
  else
    let name := extractOperationName (postData entry) in
    if negb (truthy name) then mocks
    else if is_string name INTROSPECTION then mocks
    else
      match present (responseText entry) with
      | None => mocks
      | Some text =>
          match JSON_parse text with
          | Some response => map_set same_value_zero name response mocks
          | None => mocks
          end
      end.

(** [None]: the promise is rejected (nothing catches a failed read). *)
Definition extractGraphQLMocks (har : har_file) : option (list (value * value)) :=
  match har with
  | HarLog entries => Some (fold_left mocks_step entries [])
  | HarMissing | HarMalformed => None
  end.

(** the artifact of an operation, [`${operationName}.mock.ts`]; [None]
    when the name does not print *)
Definition mock_file_name (name : value) : option string :=
  let? printed := to_js_string name in
  Some (printed ++ ".mock.ts")%string.

(** [readFile(path.join(dir, `${operationName}.mock.ts`))] inside a
    [try]: [None] when the template or the read throws *)
Definition read_mock (mock_files : string -> option string) (name : value)
    : option string :=
  let? fileName := mock_file_name name in
  mock_files fileName.

(** [`${JSON.stringify(v, null, 2)}`] *)
Definition interpolate (text : option string) : string :=
  match text with
  | Some t => t
  | None => "undefined"
  end.

(** the content [saveGraphQLMocksToFiles] writes for one operation;
    [lastUpdated] is [new Date().toISOString()] *)
Definition mock_source (name response : value) (lastUpdated : string)
    : option string :=
  let? printed := to_js_string name in
  let? schemaHash := generateSchemaHash response in
  let metadata :=
    VObject [("operationName", name); ("schemaHash", VString schemaHash);
             ("lastUpdated", VString lastUpdated)] in
  let responseText := interpolate (JSON_stringify_2 response) in
  let metadataText := interpolate (JSON_stringify_2 metadata) in
  Some ("// Auto-generated from HAR file" ++ nl
        ++ "// Operation: " ++ printed ++ nl
        ++ "// Schema Hash: " ++ schemaHash ++ nl
        ++ "// Last Updated: " ++ lastUpdated ++ nl
        ++ nl
        ++ "export const " ++ printed ++ "Mock = " ++ responseText ++ ";" ++ nl
        ++ nl
        ++ "export const metadata = " ++ metadataText ++ ";" ++ nl)%string.

Fixpoint save_each (mocks : list (value * value)) (clock : nat -> string) (i : nat)
    : option (list (string * string)) :=
  match mocks with
  | [] => Some []
  | (name, response) :: r =>
      let? fileName := mock_file_name name in
      let? content := mock_source name response (clock i) in
      let? rest := save_each r clock (S i) in
      Some ((fileName, content) :: rest)
  end.

(** [saveGraphQLMocksToFiles]: the files written, in order, each with the
    name given to [path.join] and its content; [clock i] is the time of
    the [i]-th write.  Two names may give the same file name: both writes
    are listed, and the later one stands.  The output directory is taken
    to exist and to be writable and the artifacts to be files of that
    directory (names without a path separator), so that [mkdir] and the
    writes succeed; a name with path segments, whose write may be
    rejected, is not covered.  [None] is a rejected read of the capture
    or a name that does not print. *)
Definition saveGraphQLMocksToFiles (har : har_file) (clock : nat -> string)
    : option (list (string * string)) :=
  let? mocks := extractGraphQLMocks har in
  save_each mocks clock 0.

(** [content.match(/Schema Hash: ([a-f0-9]+)/)], the capture *)
Fixpoint match_schema_hash (content : string) : option string :=
  match
    match drop_prefix "Schema Hash: " content with
    | Some r => let (h, _) := span is_lower_hex r in
                if nonempty h then Some h else None
    | None => None
    end
  with
  | Some h => Some h
  | None =>
      match content with
      | EmptyString => None
      | String _ r => match_schema_hash r
      end
  end.

(** [hasSchemaChanged], on the capture and the mocks directory *)
Definition hasSchemaChanged (name : value) (har : har_file)
    (mock_files : string -> option string) : bool :=
  try_catch
    (let? mocks := extractGraphQLMocks har in
     match map_get same_value_zero name mocks with
     | None => Some false
     | Some currentResponse =>
         if negb (truthy currentResponse) then Some false
         else
           let? currentHash := generateSchemaHash currentResponse in
           let? mockContent := read_mock mock_files name in
           match match_schema_hash mockContent with
           | None => Some true
           | Some existingHash => Some (negb (String.eqb currentHash existingHash))
           end
     end)
    true.

(** [hasMockForOperation], on the listing of the mocks directory.  The
    artifact is taken to be a file of that directory (the name holds no
    path separator), for which [fs.access] of the joined path succeeds
    exactly when the listing holds the file name; a name with path
    segments leads out of the listing and is not covered.  [None] when
    the name does not print (the template stands before the [try]). *)
Definition hasMockForOperation (name : value) (mocksDir : list string)
    : option bool :=
  let? fileName := mock_file_name name in
  Some (existsb (String.eqb fileName) mocksDir).
End Extractor.

(** ** validate-mocks.ts *)

Fixpoint add_all (xs : list string) (paths : list string) : list string :=
  match xs with
  | [] => paths
  | x :: r => add_all r (set_add String.eqb x paths)
  end.

Definition field_path (prefix key : string) : string :=
  if nonempty prefix then (prefix ++ "." ++ key)%string else key.

(** the [Set] of field paths, in insertion order *)
Fixpoint extractFieldPaths (data : value) (prefix : string) : list string :=
  match data with
  | VNull | VUndefined => []
  | VArray l =>
      (fix each (l : list value) (paths : list string) : list string :=
         match l with
         | [] => paths
         | item :: r => each r (add_all (extractFieldPaths item prefix) paths)
         end) l []
  | VObject fs =>
      (fix each (fs : list (string * value)) (paths : list string) : list string :=
         match fs with
         | [] => paths
         | (key, x) :: r =>
             let fieldPath := field_path prefix key in
             each r (add_all (extractFieldPaths x fieldPath)
                       (set_add String.eqb fieldPath paths))
         end) fs []
  | VBool _ | VNumber _ | VString _ => []
  end.

Record schema_comparison : Type := mkComparison {
  added : list string;
  removed : list string;
  unchanged : list string
}.

Definition compareSchemas (mockData liveData : value) : schema_comparison :=
  let mockFields := extractFieldPaths mockData EmptyString in
  let liveFields := extractFieldPaths liveData EmptyString in
  mkComparison
    (js_sort (filter (fun f => negb (set_has String.eqb f mockFields)) liveFields))
    (js_sort (filter (fun f => negb (set_has String.eqb f liveFields)) mockFields))
    (js_sort (filter (fun f => set_has String.eqb f mockFields) liveFields)).

Inductive status : Type := OK | DRIFT | ERROR | REMOVED.

Record ValidationResult : Type := mkResult {
  result_operationName : value;
  result_status : status;
  message : string;
  result_added : option (list string);
  result_removed : option (list string)
}.

(** What the transport does with one request: [fetch] rejects with an error
    carrying [message]; or it resolves with [ok], [status] and a body whose
    [response.json()] either rejects (with a message) or gives a value. *)
Inductive fetch_outcome : Type :=
| FetchRejected (error_message : string)
| FetchResponse (ok : bool) (http_status : nat) (json : string + value).

(** the object [queryLiveServer] resolves with; an absent member is
    [VUndefined] *)
Record live_result : Type := mkLive {
  live_data : value;
  live_errors : value
}.

Definition error_list (msg : string) : value :=
  VArray [VObject [("message", VString msg)]].

Definition string_of_nat (n : nat) : string := NilEmpty.string_of_uint (Nat.to_uint n).

Section Validator.
Variable JSON_parse : string -> option value.

(** the message of the TypeError raised by reading a property of [null] *)
Variable null_read_message : string.

Definition queryLiveServer (outcome : fetch_outcome) : live_result :=
  match outcome with
  | FetchRejected msg => mkLive VUndefined (error_list msg)
  | FetchResponse ok http_status body =>
      if negb ok then
        mkLive VUndefined (error_list ("HTTP " ++ string_of_nat http_status))
      else
        match body with
        | inl msg => mkLive VUndefined (error_list msg)
        | inr json =>
            match get_prop json "errors", get_prop json "data" with
            | Some errors, Some data =>
                if truthy errors then mkLive VUndefined errors
                else mkLive data VUndefined
            | _, _ => mkLive VUndefined (error_list null_read_message)
            end
        end
  end.

(** the brace matching of [getMockData]: [s] is the content from position
    [i] on; the result is [endPos] when the loop breaks *)
Fixpoint match_braces (s : string) (i : nat) (braceCount : Z)
    (inString escapeNext : bool) : option nat :=
  match s with
  | EmptyString => None
  | String char r =>
      let n := nat_of_ascii char in
      if escapeNext then match_braces r (S i) braceCount inString false
      else if n =? 92 then match_braces r (S i) braceCount inString true
      else if n =? 34 then match_braces r (S i) braceCount (negb inString) false
      else if negb inString then
        let braceCount' :=
          if n =? 123 then (braceCount + 1)%Z
          else if n =? 125 then (braceCount - 1)%Z
          else braceCount in
        if (braceCount' =? 0)%Z && (n =? 125) then Some (i + 1)
        else match_braces r (S i) braceCount' inString false
      else match_braces r (S i) braceCount inString false
  end.

(** [getMockData], on the content of the artifact ([None]: no such file) *)
Definition getMockData (file : option string) : value :=
  match file with
  | None => VNull
  | Some content =>
      match indexOf content "= {" with
      | None => VNull
      | Some exportStart =>
          let startPos := exportStart + 2 in
          let endPos :=
            match
              match_braces
                (substring startPos (String.length content - startPos) content)
                startPos 0 false false
            with
            | Some e => e
            | None => startPos
            end in
          let jsonStr := substring startPos (endPos - startPos) content in
          try_catch
            (let? mockObject := JSON_parse jsonStr in
             get_prop mockObject "data")
            VNull
      end
  end.

(** an item of [xs.join(sep)] *)
Definition join_item (x : value) : option string :=
  match x with
  | VUndefined | VNull => Some EmptyString
  | _ => to_js_string x
  end.

Fixpoint join_items (xs : list value) : option (list string) :=
  match xs with
  | [] => Some []
  | x :: r =>
      let? t := join_item x in
      let? ts := join_items r in
      Some (t :: ts)
  end.

Fixpoint messages (errors : list value) : option (list value) :=
  match errors with
  | [] => Some []
  | e :: r =>
      let? m := get_prop e "message" in
      let? ms := messages r in
      Some (m :: ms)
  end.

(** [errors.map(e => e.message).join(", ")]: a TypeError unless [errors]
    is an array without [null] items whose messages print *)
Definition error_message_of (errors : value) : option string :=
  match errors with
  | VArray l =>
      let? ms := messages l in
      let? texts := join_items ms in
      Some (join ", " texts)
  | _ => None
  end.

Definition count_label (xs : list string) (what : string) : list string :=
  if 0 <? length xs then [(string_of_nat (length xs) ++ " " ++ what)%string] else [].

(** The stored mocks directory and the live endpoint. *)
Variable mock_files : string -> option string.
Variable live : value -> value -> fetch_outcome.

(** the report of a field comparison (the last branch of the loop) *)
Definition report_comparison (name : value) (c : schema_comparison)
    : ValidationResult :=
  if (length (added c) =? 0) && (length (removed c) =? 0) then
    mkResult name OK "Schema matches - all fields present" None None
  else
    let changes := count_label (added c) "added" ++ count_label (removed c) "removed" in
    mkResult name DRIFT ("Schema drift: " ++ join ", " changes)
      (Some (added c)) (Some (removed c)).

(** [await getMockData(operationName)] *)
Definition stored_mock (op : GraphQLOperation) : value :=
  getMockData (read_mock mock_files (operationName op)).

(** [await queryLiveServer(operationName, query)] *)
Definition live_reply (op : GraphQLOperation) : live_result :=
  queryLiveServer (live (operationName op) (query op)).

(** The body of the loop of [validateMocks] for one operation: the result
    (or [None] when the body throws) and the requests sent to the live
    server.  The first line prints the name. *)
Definition validate_operation (op : GraphQLOperation)
    : option ValidationResult * list (value * value) :=
  let name := operationName op in
  match to_js_string name with
  | None => (None, [])
  | Some _ =>
      let mockData := stored_mock op in
      if negb (truthy mockData) then
        (Some (mkResult name DRIFT "Mock file not found or couldn't parse data"
                 None None), [])
      else
        let liveResult := live_reply op in
        let sent := [(name, query op)] in
        if truthy (live_errors liveResult) then
          (match error_message_of (live_errors liveResult) with
           | Some errorMsg =>
               Some (mkResult name ERROR
                       ("Live server returned errors: " ++ errorMsg) None None)
           | None => None
           end, sent)
        else if negb (truthy (live_data liveResult)) then
          (Some (mkResult name REMOVED "Operation may have been removed from API"
                   None None), sent)
        else
          (Some (report_comparison name
                   (compareSchemas mockData (live_data liveResult))), sent)
  end.

(** the loop: results so far and requests sent; [None] when an iteration
    throws *)
Fixpoint validate_all (ops : list GraphQLOperation)
    (results : list ValidationResult) (sent : list (value * value))
    : option (list ValidationResult) * list (value * value) :=
  match ops with
  | [] => (Some results, sent)
  | op :: r =>
      match validate_operation op with
      | (Some res, s) => validate_all r (results ++ [res]) (sent ++ s)
      | (None, s) => (None, sent ++ s)
      end
  end.

Definition validateMocks (har : har_file)
    : option (list ValidationResult) * list (value * value) :=
  let operations := extractGraphQLOperations JSON_parse har in
  let userOperations :=
    filter (fun op => negb (is_string (operationName op) INTROSPECTION)) operations in
  validate_all userOperations [] [].
End Validator.

(** ** record-interactive.ts *)

Section Merger.
Variable JSON_parse : string -> option value.

(** [parsed.operationName] of an entry, as both loops of [mergeHarFiles]
    read it: [None] when the entry has no body text, the text is not JSON
    or the read throws. *)
Definition body_operationName (entry : HarEntry) : option value :=
  let? text := present (postData entry) in
  let? parsed := JSON_parse text in
  get_prop parsed "operationName".

(** one turn of [newEntries.forEach] building [newOpMap] *)
Definition newOpMap_step
    (newOpMap : list (value * HarEntry)) (entry : HarEntry)
    : list (value * HarEntry) :=
  match body_operationName entry with
  | Some opName =>
      if truthy opName && negb (is_string opName INTROSPECTION)
      then map_set same_value_zero opName entry newOpMap
      else newOpMap
  | None => newOpMap
  end.

Definition build_newOpMap (newEntries : list HarEntry) : list (value * HarEntry) :=
  fold_left newOpMap_step newEntries [].

(** one turn of [existingEntries.forEach]; the state is [finalEntries] and
    [processedOps].  [newOpMap.has] and [newOpMap.get] are read together:
    the map holds entries, never [undefined]. *)
Definition keep_or_replace (newOpMap : list (value * HarEntry))
    (st : list HarEntry * list value) (entry : HarEntry)
    : list HarEntry * list value :=
  let '(finalEntries, processedOps) := st in
  match body_operationName entry with
  | Some opName =>
      match map_get same_value_zero opName newOpMap with
      | Some updated =>
          (finalEntries ++ [updated], set_add same_value_zero opName processedOps)
      | None => (finalEntries ++ [entry], processedOps)
      end
  | None => (finalEntries ++ [entry], processedOps)
  end.

(** [newOpMap.forEach]: the entries whose name was not processed *)
Definition truly_new (newOpMap : list (value * HarEntry)) (processedOps : list value)
    : list HarEntry :=
  map snd
    (filter (fun e => negb (set_has same_value_zero (fst e) processedOps)) newOpMap).

Definition merge_entries (existingEntries newEntries : list HarEntry) : list HarEntry :=
  let newOpMap := build_newOpMap newEntries in
  let '(finalEntries, processedOps) :=
    fold_left (keep_or_replace newOpMap) existingEntries ([], []) in
  finalEntries ++ truly_new newOpMap processedOps.

Inductive merge_outcome : Type :=
| NoNewHar
| NoNewOperations
| MergeError
| Merged (entries : list HarEntry) (newOps updatedOps : list value).

(** [mergeHarFiles], on the capture at [HAR_PATH] and the one at
    [HAR_PATH + ".new"]; [Merged] carries the entries written back and the
    two lists of the summary. *)
Definition mergeHarFiles (existing new : har_file) : merge_outcome :=
  match new with
  | HarMissing => NoNewHar
  | HarMalformed => MergeError
  | HarLog newEntries =>
      let newOperations := extractGraphQLOperations JSON_parse new in
      let userOperations :=
        filter (fun op => negb (is_string (operationName op) INTROSPECTION))
          newOperations in
      if length userOperations =? 0 then NoNewOperations
      else
        let existingEntries :=
          match existing with
          | HarLog entries => entries
          | HarMissing | HarMalformed => []
          end in
        let existingOpNames :=
          fold_left (fun s op => set_add same_value_zero (operationName op) s)
            (extractGraphQLOperations JSON_parse existing) [] in
        let updatedOps :=
          filter (fun n => set_has same_value_zero n existingOpNames)
            (map operationName userOperations) in
        let newOps :=
          filter (fun n => negb (set_has same_value_zero n existingOpNames))
            (map operationName userOperations) in
        Merged (merge_entries existingEntries newEntries) newOps updatedOps
  end.
End Merger.

(** ** update-registry.ts *)

Definition MOCK_SUFFIX : string := ".mock.ts".

Definition is_mock_file (f : string) : bool :=
  endsWith f MOCK_SUFFIX && negb (String.eqb f "mock-registry.ts").

(** The generated registry module, reduced to the pairs of its
    [GRAPHQL_MOCKS] initialiser: the key and the imported variable. *)
Definition registry : Type := list (string * string).

Definition registry_entry (file : string) : string * string :=
  let baseName := replace_first MOCK_SUFFIX EmptyString file in
  (baseName, (baseName ++ "Mock")%string).

(** [updateMockRegistry]: [files] is [readdir(MOCKS_DIR)], [current] the
    registry module on disk; the result is the module on disk afterwards. *)
Definition updateMockRegistry (files : list string) (current : registry) : registry :=
  let mockFiles := js_sort (filter is_mock_file files) in
  if length mockFiles =? 0 then current
  else map registry_entry mockFiles.

(** ** mock-registry.ts *)

(** [new Map(entries)] *)
Definition GRAPHQL_MOCKS (r : registry) : list (string * string) :=
  fold_left (fun m e => map_set String.eqb (fst e) (snd e) m) r [].

Definition hasMock (r : registry) (name : string) : bool :=
  map_has String.eqb name (GRAPHQL_MOCKS r).

Definition getMock (r : registry) (name : string) : option string :=
  map_get String.eqb name (GRAPHQL_MOCKS r).

Definition listMocks (r : registry) : list string := map fst (GRAPHQL_MOCKS r).

(** * Vocabulary of the properties *)

(** ** Fingerprints *)

(** Two values have the same sampled shape when one is obtained from the
    other by reordering the keys of objects, by replacing a scalar with a
    scalar of the same [typeof], and by changing array items other than the
    first. *)
Inductive same_shape : value -> value -> Prop :=
| shape_refl v : same_shape v v
| shape_trans u v w : same_shape u v -> same_shape v w -> same_shape u w
| shape_bool a b : same_shape (VBool a) (VBool b)
| shape_number n m : same_shape (VNumber n) (VNumber m)
| shape_string s t : same_shape (VString s) (VString t)
| shape_keys fs fs' :
    Permutation fs fs' -> NoDup (keys fs) ->
    same_shape (VObject fs) (VObject fs')
| shape_field pre k x y post :
    same_shape x y ->
    same_shape (VObject (pre ++ (k, x) :: post)) (VObject (pre ++ (k, y) :: post))
| shape_first x y l l' :
    same_shape x y -> same_shape (VArray (x :: l)) (VArray (y :: l')).

(** ** Field paths *)

(** A key chain of a value: the keys met on a way down through objects,
    an array standing for any of its items. *)
Inductive key_chain : value -> list string -> Prop :=
| chain_key fs k x : In (k, x) fs -> key_chain (VObject fs) [k]
| chain_field fs k x ks :
    In (k, x) fs -> key_chain x ks -> key_chain (VObject fs) (k :: ks)
| chain_item l x ks : In x l -> key_chain x ks -> key_chain (VArray l) ks.

(** the path of a key chain under a prefix; for non-empty keys it is the
    chain joined with dots *)
Definition path_of (prefix : string) (ks : list string) : string :=
  fold_left field_path ks prefix.

(** The walk of the specification (4.4 step 4 with 4.2): as
    [extractFieldPaths], but an array is sampled at its first item only. *)
Fixpoint spec_field_paths (data : value) (prefix : string) : list string :=
  match data with
  | VNull | VUndefined => []
  | VArray l =>
      match l with
      | item :: _ => spec_field_paths item prefix
      | [] => []
      end
  | VObject fs =>
      (fix each (fs : list (string * value)) (paths : list string) : list string :=
         match fs with
         | [] => paths
         | (key, x) :: r =>
             let fieldPath := field_path prefix key in
             each r (add_all (spec_field_paths x fieldPath)
                       (set_add String.eqb fieldPath paths))
         end) fs []
  | VBool _ | VNumber _ | VString _ => []
  end.

Definition two_shapes : value :=
  VObject [("items", VArray [VObject [("a", VNumber 1)]; VObject [("b", VNumber 2)]])].

(** ** The drift scenario *)

Definition stored_country : value :=
  VObject [("data", VObject [("country",
    VObject [("code", VString "US"); ("name", VString "United States")])])].

Definition live_country : value :=
  VObject [("data", VObject [("country",
    VObject [("code", VString "US"); ("name", VString "United States");
             ("capital", VString "Washington D.C.")])])].

Definition GetCountry : GraphQLOperation :=
  mkOperation (VString "GetCountry") (VString "query GetCountry { country { code name } }").

(** the mocks directory holding the artifact generated from [stored_country] *)
Definition country_mocks (file : string) : option string :=
  if String.eqb file "GetCountry.mock.ts"
  then mock_source (VString "GetCountry") stored_country "2026-01-03T10:33:05.134Z"
  else None.

(** the live server answering with [live_country] *)
Definition country_live (name q : value) : fetch_outcome :=
  FetchResponse true 200 (inr live_country).

(** a mocks directory without artifacts, and live servers that fail *)
Definition no_mocks (file : string) : option string := None.

Definition live_unreachable (name q : value) : fetch_outcome :=
  FetchRejected "fetch failed".

Definition live_http_500 (name q : value) : fetch_outcome :=
  FetchResponse false 500 (inl "Unexpected end of JSON input").

Definition live_graphql_error (name q : value) : fetch_outcome :=
  FetchResponse true 200
    (inr (VObject [("errors",
            VArray [VObject [("message", VString "Cannot query field `code`")];
                    VObject [("message", VString "Unknown type")]])])).

Definition live_null_data (name q : value) : fetch_outcome :=
  FetchResponse true 200 (inr (VObject [("data", VNull)])).

Definition live_empty_data (name q : value) : fetch_outcome :=
  FetchResponse true 200 (inr (VObject [("data", VObject [])])).

(** live servers whose error payload cannot be printed (an [errors] member
    that is no array; a message that is an object with a member named
    [toString]), and one that answers with the data [0] *)
Definition live_errors_object (name q : value) : fetch_outcome :=
  FetchResponse true 200
    (inr (VObject [("errors", VObject [("message", VString "Internal error")])])).

Definition live_message_object (name q : value) : fetch_outcome :=
  FetchResponse true 200
    (inr (VObject [("errors",
            VArray [VObject [("message", VObject [("toString", VNumber 1)])]])])).

Definition live_zero_data (name q : value) : fetch_outcome :=
  FetchResponse true 200 (inr (VObject [("data", VNumber 0)])).

(** ** The bodies of the loops, named for the proofs *)

Definition shapes_of (fs : list (string * value)) : list (string * value) :=
  map (fun kv => (fst kv, getStructure (snd kv))) fs.

Definition define_key (shaped : list (string * value))
    (structure : list (string * value)) (key : string) : list (string * value) :=
  if String.eqb key "__proto__" then structure
  else
    obj_set structure key
      match assoc key shaped with Some t => t | None => VUndefined end.

Definition add_item (prefix : string) (paths : list string) (item : value) : list string :=
  add_all (extractFieldPaths item prefix) paths.

Definition add_field (prefix : string) (paths : list string) (kv : string * value)
    : list string :=
  add_all (extractFieldPaths (snd kv) (field_path prefix (fst kv)))
    (set_add String.eqb (field_path prefix (fst kv)) paths).

Definition spec_add_field (prefix : string) (paths : list string)
    (kv : string * value) : list string :=
  add_all (spec_field_paths (snd kv) (field_path prefix (fst kv)))
    (set_add String.eqb (field_path prefix (fst kv)) paths).

(** ** Occurrences of a key in a list *)

Section Occurrences.
Variables A K : Type.
Variable keq : K -> K -> bool.
Variable key : A -> K.

(** the first occurrence of every key, in order *)
Fixpoint first_by (l : list A) : list A :=
  match l with
  | [] => []
  | x :: r => x :: filter (fun y => negb (keq (key y) (key x))) (first_by r)
  end.

(** the last element of [l] with the key of [x]; [x] itself when no key
    compares equal to its own (a key compared by reference) *)
Definition latest (l : list A) (x : A) : A :=
  match find (fun y => keq (key x) (key y)) (rev l) with
  | Some y => y
  | None => x
  end.

(** the last element of [l] with key [k] *)
Definition last_with (l : list A) (k : K) : option A :=
  find (fun y => keq k (key y)) (rev l).

(** no key occurs twice *)
Fixpoint unique_keys (ks : list K) : bool :=
  match ks with
  | [] => true
  | k :: r => negb (set_has keq k r) && unique_keys r
  end.

(** the size of [new Set(ks)] *)
Definition distinct (ks : list K) : nat :=
  length (fold_left (fun s k => set_add keq k s) ks []).

(** a loop that keeps an element unless its key was seen *)
Definition keep_unseen (st : list A * list K) (x : A) : list A * list K :=
  if set_has keq (key x) (snd st) then st
  else (fst st ++ [x], set_add keq (key x) (snd st)).
End Occurrences.

(** ** Proper values *)

(** a value none of whose objects holds a key twice (as no object does) or
    holds the key [__proto__] (as a parsed object can) *)
Fixpoint proper (v : value) : bool :=
  match v with
  | VArray l =>
      (fix each (l : list value) : bool :=
         match l with
         | [] => true
         | x :: r => proper x && each r
         end) l
  | VObject fs =>
      unique_keys String.eqb (keys fs)
      && negb (set_has String.eqb "__proto__" (keys fs))
      && (fix each (fs : list (string * value)) : bool :=
            match fs with
            | [] => true
            | (_, x) :: r => proper x && each r
            end) fs
  | _ => true
  end.

(** two values that differ in an array item after the first *)
Definition later_item_plain : value :=
  VObject [("items", VArray [VObject [("a", VNumber 1)]; VObject [("a", VNumber 1)]])].

Definition later_item_grown : value :=
  VObject [("items", VArray [VObject [("a", VNumber 1)];
                             VObject [("a", VNumber 1); ("b", VNumber 1)]])].

(** a loop that stores a pair under its key *)
Definition store {K V : Type} (keq : K -> K -> bool) (m : list (K * V)) (c : K * V)
    : list (K * V) :=
  map_set keq (fst c) (snd c) m.

Definition option_list {A : Type} (o : option A) : list A :=
  match o with
  | Some a => [a]
  | None => []
  end.

(** ** What an entry stands for *)

Section Candidates.
Variable JSON_parse : string -> option value.

(** the operation [extractGraphQLOperations] reads in an entry, the
    [seen] set apart *)
Definition entry_operation (entry : HarEntry) : option GraphQLOperation :=
  if String.eqb (method entry) "POST" then
    let? text := present (postData entry) in
    let? parsed := JSON_parse text in
    let? explicit := get_prop parsed "operationName" in
    let name :=
      if truthy explicit then explicit
      else extractOperationName JSON_parse (postData entry) in
    if truthy name && negb (is_string name INTROSPECTION) then
      let? q := get_prop parsed "query" in
      Some (mkOperation name q)
    else None
  else None.

Definition operations_of (entries : list HarEntry) : list GraphQLOperation :=
  flat_map (fun e => option_list (entry_operation e)) entries.

(** an entry without a body, with a body that is not JSON, or with a body
    that yields no name *)
Definition malformed (entry : HarEntry) : bool :=
  match present (postData entry) with
  | None => true
  | Some text =>
      match JSON_parse text with
      | None => true
      | Some _ => negb (truthy (extractOperationName JSON_parse (postData entry)))
      end
  end.

(** the name and response [extractGraphQLMocks] reads in an entry *)
Definition entry_mock (entry : HarEntry) : option (value * value) :=
  if String.eqb (method entry) "POST" then
    let name := extractOperationName JSON_parse (postData entry) in
    if truthy name && negb (is_string name INTROSPECTION) then
      let? text := present (responseText entry) in
      let? response := JSON_parse text in
      Some (name, response)
    else None
  else None.

Definition mocks_of (entries : list HarEntry) : list (value * value) :=
  flat_map (fun e => option_list (entry_mock e)) entries.

(** the name under which [mergeHarFiles] files an entry of the new capture *)
Definition entry_name (entry : HarEntry) : option value :=
  match body_operationName JSON_parse entry with
  | Some name =>
      if truthy name && negb (is_string name INTROSPECTION) then Some name else None
  | None => None
  end.

Definition named_entries (entries : list HarEntry) : list (value * HarEntry) :=
  flat_map
    (fun e => option_list (match entry_name e with Some n => Some (n, e) | None => None end))
    entries.

Definition entry_names (entries : list HarEntry) : list value :=
  map fst (named_entries entries).
End Candidates.

(** ** Captures used in the examples *)

Definition ENDPOINT : string := "https://countries.trevorblades.com/".

Definition introspection_exchange : HarEntry :=
  mkEntry ENDPOINT "POST"
    (Some (qq "{`operationName`:`IntrospectionQuery`,`query`:`query IntrospectionQuery { __schema { queryType { name } } }`}"))
    (Some (qq "{`data`:{`__schema`:{`queryType`:{`name`:`Query`}}}}")).

Definition getThing_exchange : HarEntry :=
  mkEntry ENDPOINT "POST"
    (Some (qq "{`operationName`:`GetThing`,`query`:`query GetThing { thing { id } }`}"))
    (Some (qq "{`data`:{`thing`:{`id`:1}}}")).

(** a body cut short, and a body without a name *)
Definition truncated_exchange : HarEntry :=
  mkEntry ENDPOINT "POST" (Some (qq "{`operationName`:`GetThi")) None.

Definition nameless_exchange : HarEntry :=
  mkEntry ENDPOINT "POST" (Some (qq "{`query`:`{ thing { id } }`}"))
    (Some (qq "{`data`:{`thing`:{`id`:1}}}")).

(** the same operation sent again, answered with another shape *)
Definition getThing_retry : HarEntry :=
  mkEntry ENDPOINT "POST"
    (Some (qq "{`operationName`:`GetThing`,`query`:`query GetThing { thing { id } }`}"))
    (Some (qq "{`data`:{`thing`:{`id`:2,`label`:`b`}}}")).


(** ** The merge, entry by entry *)

Section MergeVocabulary.
Variable JSON_parse : string -> option value.

Definition named (entry : HarEntry) : option (value * HarEntry) :=
  match entry_name JSON_parse entry with
  | Some n => Some (n, entry)
  | None => None
  end.

(** what the walk puts in the place of an existing entry, given the map *)
Definition replace_or_keep (newOpMap : list (value * HarEntry)) (entry : HarEntry)
    : HarEntry :=
  match body_operationName JSON_parse entry with
  | Some opName =>
      match map_get same_value_zero opName newOpMap with
      | Some updated => updated
      | None => entry
      end
  | None => entry
  end.

(** the names the walk marks as processed *)
Definition matched_names (newOpMap : list (value * HarEntry))
    (existingEntries : list HarEntry) : list value :=
  flat_map
    (fun e =>
       match body_operationName JSON_parse e with
       | Some opName =>
           match map_get same_value_zero opName newOpMap with
           | Some _ => [opName]
           | None => []
           end
       | None => []
       end)
    existingEntries.

(** what stands in the place of an existing entry after the merge: the
    last entry of the new capture filed under its name, or the entry
    itself *)
Definition replacement (newEntries : list HarEntry) (entry : HarEntry) : HarEntry :=
  match body_operationName JSON_parse entry with
  | Some opName =>
      match last_with same_value_zero fst (named_entries JSON_parse newEntries) opName with
      | Some c => snd c
      | None => entry
      end
  | None => entry
  end.

(** a name of the new capture that no existing entry carries *)
Definition is_brand_new (existingEntries : list HarEntry) (name : value) : bool :=
  negb (set_has same_value_zero name (entry_names JSON_parse existingEntries)).

(** the brand-new names, in the order of their first occurrence *)
Definition brand_new (existingEntries newEntries : list HarEntry) : list value :=
  filter (is_brand_new existingEntries)
    (map fst (first_by same_value_zero fst (named_entries JSON_parse newEntries))).

(** The lookup of the specification (4.5 step 1): every name of the new
    capture with its first occurrence. *)
Definition spec_newOpMap (newEntries : list HarEntry)
    : list (value * HarEntry) :=
  first_by same_value_zero fst (named_entries JSON_parse newEntries).
End MergeVocabulary.

(** a stored capture of GetThing, twice, and of another operation *)
Definition getThing_stored : HarEntry :=
  mkEntry ENDPOINT "POST"
    (Some (qq "{`operationName`:`GetThing`,`query`:`query GetThing { thing { id } }`}"))
    (Some (qq "{`data`:{`thing`:{`id`:0}}}")).

Definition getThing_stored_again : HarEntry :=
  mkEntry ENDPOINT "POST"
    (Some (qq "{`operationName`:`GetThing`,`query`:`query GetThing { thing { id } }`}"))
    (Some (qq "{`data`:{`thing`:{`id`:0,`old`:true}}}")).

Definition getOther_exchange : HarEntry :=
  mkEntry ENDPOINT "POST"
    (Some (qq "{`operationName`:`GetOther`,`query`:`query GetOther { other { id } }`}"))
    (Some (qq "{`data`:{`other`:{`id`:5}}}")).

(** an operation named in its query text only *)
Definition unnamed_field_exchange : HarEntry :=
  mkEntry ENDPOINT "POST"
    (Some (qq "{`query`:`query GetFoo { foo { id } }`}"))
    (Some (qq "{`data`:{`foo`:{`id`:1}}}")).

(** ** Artifacts and registry keys *)

Fixpoint dot_free (s : string) : bool :=
  match s with
  | EmptyString => true
  | String c r => negb (Ascii.eqb c "."%char) && dot_free r
  end.

(** the name of a file without its last eight characters ([.mock.ts]) *)
Definition base_name (f : string) : string :=
  substring 0 (String.length f - String.length MOCK_SUFFIX) f.

Fixpoint all_word (s : string) : bool :=
  match s with
  | EmptyString => true
  | String c r => is_word c && all_word r
  end.

(** a file that is no artifact, or the artifact of a name made of word
    characters (as the names of GraphQL operations are, and as the
    [export const ${operationName}Mock] of the generator needs) *)
Definition well_named (f : string) : bool :=
  if endsWith f MOCK_SUFFIX then all_word (base_name f) else true.

(** a mocks directory without artifacts and a registry module left from an
    earlier run; a directory with two artifacts *)
Definition helpers_only : list string := ["mock-registry.ts"; "mock-types.ts"].

Definition stale_registry : registry := [("GetCountry", "GetCountryMock")].

Definition two_artifacts : list string :=
  ["GetCountry.mock.ts"; "mock-registry.ts"; "GetContinent.mock.ts"; "mock-types.ts"].

(** the committed artifact mocks/graphql/GetContinent.mock.ts *)
Definition GetContinent_mock_ts : string :=
  qq "// Auto-generated from HAR file
// Operation: GetContinent
// Schema Hash: 16feb7879a6b24a4e065f14d57db6375
// Last Updated: 2026-01-03T10:33:05.134Z
import type { Continent } from `./generated-types`;

export interface GetContinentResponse {
  data: {
    continent: Continent;
  };
}

export const GetContinentMock: GetContinentResponse = {
  `data`: {
    `continent`: {
      `code`: `NA`,
      `name`: `North America`,
      `countries`: []
    }
  }
};

export const metadata = {
  `operationName`: `GetContinent`,
  `schemaHash`: `16feb7879a6b24a4e065f14d57db6375`,
  `lastUpdated`: `2026-01-03T10:33:05.134Z`
};
".

(** a capture of GetContinent as it was when the artifact was generated, and
    after the server added a field *)
Definition getContinent_exchange : HarEntry :=
  mkEntry ENDPOINT "POST"
    (Some (qq "{`operationName`:`GetContinent`,`query`:`query GetContinent { continent(code: \`NA\`) { code name } }`}"))
    (Some (qq "{`data`:{`continent`:{`code`:`NA`,`name`:`North America`}}}")).

Definition getContinent_drifted : HarEntry :=
  mkEntry ENDPOINT "POST"
    (Some (qq "{`operationName`:`GetContinent`,`query`:`query GetContinent { continent(code: \`NA\`) { code name } }`}"))
    (Some (qq "{`data`:{`continent`:{`code`:`NA`,`name`:`North America`,`countries`:[]}}}")).

Definition committed_mocks (file : string) : option string :=
  if String.eqb file "GetContinent.mock.ts" then Some GetContinent_mock_ts else None.

(** * The rest of the scripts *)

(** ** validate-mocks.ts: the summary and the exit code *)

Definition status_eqb (a b : status) : bool :=
  match a, b with
  | OK, OK | DRIFT, DRIFT | ERROR, ERROR | REMOVED, REMOVED => true
  | _, _ => false
  end.

(** [results.filter(r => r.status === s).length] *)
Definition count_status (s : status) (results : list ValidationResult) : nat :=
  length (filter (fun r => status_eqb (result_status r) s) results).

(** What [printSummary] shows and does: the four counts it prints and the
    code it passes to [process.exit]. *)
Record summary : Type := mkSummary {
  summary_ok : nat;
  summary_drift : nat;
  summary_error : nat;
  summary_removed : nat;
  exit_code : nat
}.

Definition printSummary (results : list ValidationResult) : summary :=
  let ok := count_status OK results in
  let drift := count_status DRIFT results in
  let error := count_status ERROR results in
  let removed := count_status REMOVED results in
  mkSummary ok drift error removed
    (if (0 <? drift) || (0 <? error) || (0 <? removed) then 1 else 0).

Section ValidateScript.
Variable JSON_parse : string -> option value.
Variable null_read_message : string.
Variable mock_files : string -> option string.
Variable live : value -> value -> fetch_outcome.

(** [validateMocks().then(printSummary).catch(... process.exit(1))]: the
    exit code of the script *)
Definition validate_script (har : har_file) : nat :=
  match fst (validateMocks JSON_parse null_read_message mock_files live har) with
  | Some results => exit_code (printSummary results)
  | None => 1
  end.
End ValidateScript.

(** ** Vocabulary: what the validator can see *)

(** a value with every leaf ([null], [undefined], booleans, numbers, strings)
    replaced by [null] *)
Fixpoint keys_only (v : value) : value :=
  match v with
  | VArray l => VArray (map keys_only l)
  | VObject fs =>
      VObject
        ((fix each (fs : list (string * value)) : list (string * value) :=
            match fs with
            | [] => []
            | (k, x) :: r => (k, keys_only x) :: each r
            end) fs)
  | _ => VNull
  end.

(** the field paths of the stored data and of the live data of an operation *)
Definition same_paths (a b : value) : Prop :=
  forall p, In p (extractFieldPaths a EmptyString) <-> In p (extractFieldPaths b EmptyString).

(** an item of [errors] whose [message] can be read and printed: the item
    is not [null] or [undefined], and its message is not an object with a
    member named [toString] (nor an array that holds one) *)
Definition printable_item (e : value) : bool :=
  match e with
  | VNull | VUndefined => false
  | VObject fs =>
      match assoc "message" fs with
      | Some (VObject ms) => negb (map_has String.eqb "toString" ms)
      | Some (VArray items) =>
          match to_js_string (VArray items) with Some _ => true | None => false end
      | _ => true
      end
  | _ => true
  end.

(** an [errors] member that [errors.map(e => e.message).join(", ")] can
    print: an array of such items *)
Definition printable_errors (errors : value) : bool :=
  match errors with
  | VArray l => forallb printable_item l
  | _ => false
  end.

(** the conditions under which one operation is in step with the live
    server: stored data is found, the reply carries no errors and carries
    data, and both have the same field paths *)
Definition in_step (JSON_parse : string -> option value) (null_read_message : string)
    (mock_files : string -> option string) (live : value -> value -> fetch_outcome)
    (op : GraphQLOperation) : Prop :=
  truthy (stored_mock JSON_parse mock_files op) = true
  /\ truthy (live_errors (live_reply null_read_message live op)) = false
  /\ truthy (live_data (live_reply null_read_message live op)) = true
  /\ same_paths (stored_mock JSON_parse mock_files op)
       (live_data (live_reply null_read_message live op)).

(** ** Vocabulary: texts *)

(** every character of the text is in the class *)
Fixpoint all_chars (p : ascii -> bool) (s : string) : bool :=
  match s with
  | EmptyString => true
  | String c r => p c && all_chars p r
  end.

Definition all_space (s : string) : bool := all_chars is_space s.

(** the text goes on with a word character *)
Definition starts_with_word (s : string) : bool :=
  match s with
  | EmptyString => false
  | String c _ => is_word c
  end.

(** the character does not occur in the text *)
Fixpoint lacks (c : ascii) (s : string) : bool :=
  match s with
  | EmptyString => true
  | String d r => negb (Ascii.eqb c d) && lacks c r
  end.

(** a GraphQL document that opens with its operation type and name:
    [query Name ...] or [mutation Name ...] *)
Definition named_document (keyword space name rest : string) : string :=
  (keyword ++ space ++ name ++ rest)%string.

(** ** Vocabulary: the brace matching of getMockData *)

(** a character that is no brace, quote or backslash *)
Definition plain_char (c : ascii) : bool :=
  let n := nat_of_ascii c in
  negb ((n =? 123) || (n =? 125) || (n =? 34) || (n =? 92)).

(** a text that the brace matching reads through, outside a string and
    inside an open brace, without changing its state *)
Definition scanned_through (s : string) : Prop :=
  forall (rest : string) (i : nat) (braceCount : Z),
    (0 < braceCount)%Z ->
    match_braces (s ++ rest) i braceCount false false
    = match_braces rest (i + String.length s) braceCount false false.

(** ** The mocks directory *)

(** the files of the directory, by name, with their content *)
Definition directory : Type := list (string * string).

Definition readdir (d : directory) : list string := map fst d.

Definition readFile (d : directory) (file : string) : option string :=
  map_get String.eqb file d.

(** [fs.writeFile]: an existing file is overwritten, a new one is created *)
Definition writeFile (d : directory) (file content : string) : directory :=
  map_set String.eqb file content d.

Definition write_all (d : directory) (files : list (string * string)) : directory :=
  fold_left (fun d fc => writeFile d (fst fc) (snd fc)) files d.

(** ** update-mocks.ts *)

(** what [updateMocks] does: nothing, or it records the capture anew after
    reporting two lists, or it fails (the script then exits with 1) *)
Inductive update_outcome : Type :=
| UpToDate
| UpdateFailed
| Rerecorded (missingOperations changedOperations : list value)
             (requests : list (value * value)).

Section UpdateMocks.
Variable JSON_parse : string -> option value.

(** one turn of the first loop of [updateMocks]; the state is
    [missingOperations] and [changedOperations], [None] once a turn has
    thrown *)
Definition check_operation (har : har_file) (mocksDir : directory)
    (st : option (list value * list value)) (op : GraphQLOperation)
    : option (list value * list value) :=
  match st with
  | None => None
  | Some (missingOperations, changedOperations) =>
      let name := operationName op in
      let? hasMock := hasMockForOperation name (readdir mocksDir) in
      let schemaChanged :=
        if hasMock then hasSchemaChanged JSON_parse name har (readFile mocksDir)
        else false in
      if negb hasMock then Some (missingOperations ++ [name], changedOperations)
      else if schemaChanged then Some (missingOperations, changedOperations ++ [name])
      else Some (missingOperations, changedOperations)
  end.

(** [updateMocks], on the capture and the mocks directory (a directory
    of files, asked for the artifacts of names without a path separator):
    nothing to do, a failure, or the two lists it reports and the requests
    it sends to record the capture anew (the operation name and the query
    of each) *)
Definition updateMocks (har : har_file) (mocksDir : directory) : update_outcome :=
  let existingOperations := extractGraphQLOperations JSON_parse har in
  let userOperations :=
    filter (fun op => negb (is_string (operationName op) INTROSPECTION))
      existingOperations in
  match fold_left (check_operation har mocksDir) userOperations (Some ([], [])) with
  | None => UpdateFailed
  | Some (missingOperations, changedOperations) =>
      if (length missingOperations =? 0) && (length changedOperations =? 0)
      then UpToDate
      else Rerecorded missingOperations changedOperations
             (map (fun op => (operationName op, query op)) userOperations)
  end.
End UpdateMocks.

(** ** extract-mocks.ts *)

Section ExtractMocks.
Variable JSON_parse : string -> option value.

(** [extractMocks], on the capture, the mocks directory and the registry
    module: the directory afterwards, the operations listed in the summary
    and the registry module afterwards; [None] when the script fails *)
Definition extractMocks (har : har_file) (clock : nat -> string)
    (mocksDir : directory) (current : registry)
    : option (directory * list value * registry) :=
  let? files := saveGraphQLMocksToFiles JSON_parse har clock in
  let mocksDir' := write_all mocksDir files in
  let? operations := extractGraphQLMocks JSON_parse har in
  let userOperations :=
    filter (fun name => negb (is_string name INTROSPECTION)) (map fst operations) in
  Some (mocksDir', userOperations, updateMockRegistry (readdir mocksDir') current).
End ExtractMocks.

(** a name that is a string of word characters *)
Definition word_name (name : value) : bool :=
  match name with
  | VString w => all_word w
  | _ => false
  end.

(** the artifact of a name that prints *)
Definition file_of (name : value) : string :=
  match mock_file_name name with
  | Some fileName => fileName
  | None => EmptyString
  end.

(** ** har-shape.ts *)

(** [prefix ? `${prefix}[]` : "[]"] *)
Definition array_path (prefix : string) : string :=
  if nonempty prefix then (prefix ++ "[]")%string else "[]".

(** [walk(v, prefix)] of [jsonShapeSignature]: the array [paths] before and
    after the call.  The value [v[k]] of a key is looked up among the
    fields, each paired with the walk of its value. *)
Fixpoint walk (v : value) (prefix : string) (paths : list string) {struct v}
    : list string :=
  match v with
  | VNull | VUndefined => paths
  | VArray l =>
      let arrayPrefix := array_path prefix in
      let paths := paths ++ [arrayPrefix] in
      match l with
      | first :: _ => walk first arrayPrefix paths
      | [] => paths
      end
  | VObject fs =>
      let walkers :=
        (fix each (fs : list (string * value))
             : list (string * (string -> list string -> list string)) :=
           match fs with
           | [] => []
           | (k, x) :: r => (k, walk x) :: each r
           end) fs in
      fold_left
        (fun paths k =>
           let p := field_path prefix k in
           match assoc k walkers with
           | Some walk_value => walk_value p (paths ++ [p])
           | None => paths ++ [p]
           end)
        (js_sort (keys fs)) paths
  | VBool _ | VNumber _ | VString _ => paths
  end.

(** [Array.from(new Set(xs))] *)
Definition unique (xs : list string) : list string :=
  fold_left (fun s x => set_add String.eqb x s) xs [].

Definition jsonShapeSignature (v : value) : string :=
  let paths := walk v EmptyString [] in
  join "|" (js_sort (unique paths)).

(** [s.split(sep)] for a separator of one character *)
Fixpoint split_on (sep : ascii) (s : string) : list string :=
  match s with
  | EmptyString => [EmptyString]
  | String c r =>
      if Ascii.eqb c sep then EmptyString :: split_on sep r
      else match split_on sep r with
           | x :: xs => String c x :: xs
           | [] => [String c EmptyString]
           end
  end.

(** [new Set(sig.split("|").filter(Boolean))] *)
Definition signature_set (sig : string) : list string :=
  unique (filter nonempty (split_on "|" sig)).

(** [diffSignatures]: [added] and [removed] *)
Definition diffSignatures (oldSig newSig : string) : list string * list string :=
  let oldSet := signature_set oldSig in
  let newSet := signature_set newSig in
  (js_sort (filter (fun x => negb (set_has String.eqb x oldSet)) newSet),
   js_sort (filter (fun x => negb (set_has String.eqb x newSet)) oldSet)).

(** ** Vocabulary: the walk of the shape signature *)

(** the fields of an object, each with the walk of its value *)
Definition walkers_of (fs : list (string * value))
    : list (string * (string -> list string -> list string)) :=
  map (fun kv => (fst kv, walk (snd kv))) fs.

(** one turn of the loop over the sorted keys *)
Definition walk_key (walkers : list (string * (string -> list string -> list string)))
    (prefix : string) (paths : list string) (k : string) : list string :=
  let p := field_path prefix k in
  match assoc k walkers with
  | Some walk_value => walk_value p (paths ++ [p])
  | None => paths ++ [p]
  end.

(** the paths the signature of a value is made of *)
Definition shape_paths (v : value) : list string := walk v EmptyString [].

(** no key of the value, at any depth, holds the character *)
Fixpoint keys_lack (c : ascii) (v : value) : bool :=
  match v with
  | VArray l =>
      (fix each (l : list value) : bool :=
         match l with
         | [] => true
         | x :: r => keys_lack c x && each r
         end) l
  | VObject fs =>
      (fix each (fs : list (string * value)) : bool :=
         match fs with
         | [] => true
         | (k, x) :: r => lacks c k && keys_lack c x && each r
         end) fs
  | _ => true
  end.

(** ** Vocabulary: plainly named entries *)

(** an entry that the operation list and the merger read alike: it has no
    body, or it is a POST whose body parses to an object with a truthy
    [operationName] *)
Definition plainly_named (JSON_parse : string -> option value) (e : HarEntry) : bool :=
  match present (postData e) with
  | None => true
  | Some _ =>
      String.eqb (method e) "POST"
      && match body_operationName JSON_parse e with
         | Some n => truthy n
         | None => false
         end
  end.

(** no key of the value, at any depth, is the empty string *)
Fixpoint keys_named (v : value) : bool :=
  match v with
  | VArray l =>
      (fix each (l : list value) : bool :=
         match l with
         | [] => true
         | x :: r => keys_named x && each r
         end) l
  | VObject fs =>
      (fix each (fs : list (string * value)) : bool :=
         match fs with
         | [] => true
         | (k, x) :: r => nonempty k && keys_named x && each r
         end) fs
  | _ => true
  end.

(** ** Vocabulary: the pipeline, end to end *)

(** a value that [JSON.parse] reads back from the text [JSON.stringify]
    gives for it *)
Definition reads_back (JSON_parse : string -> option value) (v : value) : Prop :=
  exists text, JSON_stringify_2 v = Some text /\ JSON_parse text = Some v.

(** a live server that still answers every recorded operation with the
    recorded response, and no other operation *)
Definition unchanged_server (mocks : list (value * value)) (name query : value)
    : fetch_outcome :=
  match map_get same_value_zero name mocks with
  | Some response => FetchResponse true 200 (inr response)
  | None => FetchResponse false 404 (inl "Not Found")
  end.

(** * Properties *)

(** ** The primitives on concrete inputs *)

Example match_operation_query :
  match_operation "{ query   GetThing { id } }" = Some "GetThing".
Proof. reflexivity. Qed.

Example match_operation_none : match_operation "querying" = None.
Proof. reflexivity. Qed.

Example replace_first_mock :
  replace_first ".mock.ts" EmptyString "GetCountry.mock.ts" = "GetCountry".
Proof. reflexivity. Qed.

Example md5_empty : md5_hex EmptyString = "d41d8cd98f00b204e9800998ecf8427e".
Proof. vm_compute. reflexivity. Qed.

Example md5_abc : md5_hex "abc" = "900150983cd24fb0d6963f7d28e17f72".
Proof. vm_compute. reflexivity. Qed.

Example md5_fox :
  md5_hex "The quick brown fox jumps over the lazy dog"
  = "9e107d9d372bb6826bd81d3542a419d6".
Proof. vm_compute. reflexivity. Qed.

Example md5_two_blocks :
  md5_hex "12345678901234567890123456789012345678901234567890123456789012345678901234567890"
  = "57edf4a22be3c955ac49da2e2107b67a".
Proof. vm_compute. reflexivity. Qed.

Example schema_hash_of_GetContinent :
  generateSchemaHash
    (VObject [("data", VObject [("continent",
       VObject [("code", VString "NA"); ("name", VString "North America")])])])
  = Some "16feb7879a6b24a4e065f14d57db6375".
Proof. vm_compute. reflexivity. Qed.

Example json_parse_body :
  json_parse (qq "{`operationName`: `GetThing`, `query`: `query GetThing { id }`, `n`: [1, -2, null, true]}")
  = Some (VObject [("operationName", VString "GetThing");
                   ("query", VString "query GetThing { id }");
                   ("n", VArray [VNumber 1; VNumber (-2); VNull; VBool true])]).
Proof. vm_compute. reflexivity. Qed.

Example json_parse_malformed : json_parse (qq "{`operationName`: ") = None.
Proof. vm_compute. reflexivity. Qed.

Example json_parse_not_json : json_parse "query GetThing { id }" = None.
Proof. vm_compute. reflexivity. Qed.

Example extractOperationName_from_query :
  extractOperationName json_parse
    (Some (qq "{`query`:`mutation   AddThing($x:Int){ add }`}"))
  = VString "AddThing".
Proof. vm_compute. reflexivity. Qed.

Example extractOperationName_from_raw_text :
  extractOperationName json_parse (Some "not json query Foo") = VString "Foo".
Proof. vm_compute. reflexivity. Qed.

Example extractOperationName_nameless :
  extractOperationName json_parse (Some (qq "{`operationName`: ``, `query`: `{ a }`}"))
  = VNull
  /\ extractOperationName json_parse (Some "null") = VNull
  /\ extractOperationName json_parse None = VNull.
Proof. repeat split; vm_compute; reflexivity. Qed.

(** [extractGraphQLOperations] skips a body that is not JSON where
    [extractGraphQLMocks] still reads a name in its text. *)
Example raw_query_body :
  extractGraphQLOperations json_parse
    (HarLog [mkEntry ENDPOINT "POST" (Some "query B { x }") (Some "{}")]) = []
  /\ extractGraphQLMocks json_parse
       (HarLog [mkEntry ENDPOINT "POST" (Some "query B { x }") (Some "{}")])
     = Some [(VString "B", VObject [])].
Proof. split; vm_compute; reflexivity. Qed.

Example json_parse_key_order :
  json_parse (qq "{`b`:1,`2`:2,`a`:3,`1`:4,`b`:5}")
  = Some (VObject [("1", VNumber 4); ("2", VNumber 2); ("b", VNumber 5);
                   ("a", VNumber 3)]).
Proof. vm_compute. reflexivity. Qed.

(** ** The scripts on the committed artifact *)

Example getMockData_committed :
  getMockData json_parse (Some GetContinent_mock_ts)
  = VObject [("continent",
      VObject [("code", VString "NA"); ("name", VString "North America");
               ("countries", VArray [])])].
Proof. vm_compute. reflexivity. Qed.

Example getMockData_no_file : getMockData json_parse None = VNull.
Proof. reflexivity. Qed.

Example getMockData_no_export :
  getMockData json_parse (Some "export const metadata = 1;") = VNull.
Proof. vm_compute. reflexivity. Qed.

Example hasSchemaChanged_same_shape :
  hasSchemaChanged json_parse (VString "GetContinent")
    (HarLog [getContinent_exchange]) committed_mocks = false.
Proof. vm_compute. reflexivity. Qed.

Example hasSchemaChanged_added_field :
  hasSchemaChanged json_parse (VString "GetContinent")
    (HarLog [getContinent_drifted]) committed_mocks = true.
Proof. vm_compute. reflexivity. Qed.

Example saveGraphQLMocksToFiles_names :
  option_map (map fst)
    (saveGraphQLMocksToFiles json_parse
       (HarLog [introspection_exchange; getContinent_exchange; getThing_exchange])
       (fun _ => "2026-01-03T10:33:05.134Z"))
  = Some ["GetContinent.mock.ts"; "GetThing.mock.ts"].
Proof. vm_compute. reflexivity. Qed.

(** An operation named in its query text only is counted as new by the
    summary of the merge, and is not filed: the merged capture is empty. *)
Example merge_summary_counts_unfiled_name :
  mergeHarFiles json_parse (HarLog []) (HarLog [unnamed_field_exchange])
  = Merged [] [VString "GetFoo"] [].
Proof. vm_compute. reflexivity. Qed.

Example merge_without_new_capture :
  mergeHarFiles json_parse (HarLog [getThing_stored]) HarMissing = NoNewHar
  /\ mergeHarFiles json_parse (HarLog [getThing_stored])
       (HarLog [introspection_exchange]) = NoNewOperations.
Proof. split; vm_compute; reflexivity. Qed.

(** ** Values, sets and maps *)

Lemma some_inj (A : Type) (a b : A) : Some a = Some b -> a = b.
Proof. intros H. now inversion H. Qed.

Lemma value_ind' (P : value -> Prop) :
  P VUndefined -> P VNull -> (forall b, P (VBool b)) ->
  (forall n, P (VNumber n)) -> (forall s, P (VString s)) ->
  (forall l, Forall P l -> P (VArray l)) ->
  (forall fs, Forall (fun kv => P (snd kv)) fs -> P (VObject fs)) ->
  forall v, P v.
Proof.
  intros Hu Hn Hb Hz Hs Ha Ho.
  fix IH 1.
  intros [ | | b | n | s | l | fs ];
    [ apply Hu | apply Hn | apply Hb | apply Hz | apply Hs | apply Ha | apply Ho ].
  - induction l as [ | x r IHr ]; constructor; [ apply IH | exact IHr ].
  - induction fs as [ | [k x] r IHr ]; constructor; [ apply IH | exact IHr ].
Qed.

Lemma same_value_zero_eq a b : same_value_zero a b = true -> a = b.
Proof.
  destruct a, b; simpl; try discriminate; intros H; try reflexivity.
  - apply Bool.eqb_prop in H. now subst.
  - apply Z.eqb_eq in H. now subst.
  - apply String.eqb_eq in H. now subst.
Qed.

Lemma same_value_zero_sym a b : same_value_zero a b = same_value_zero b a.
Proof.
  destruct a, b; simpl; try reflexivity.
  - now destruct b, b0.
  - apply Z.eqb_sym.
  - apply String.eqb_sym.
Qed.

Lemma same_value_zero_refl a : primitive a = true -> same_value_zero a a = true.
Proof.
  destruct a; simpl; try discriminate; intros _; try reflexivity.
  - now destruct b.
  - apply Z.eqb_refl.
  - apply String.eqb_refl.
Qed.

Lemma same_value_zero_primitive a b :
  same_value_zero a b = true -> primitive a = true.
Proof. destruct a, b; simpl; try discriminate; reflexivity. Qed.

Lemma set_has_app (K : Type) (keq : K -> K -> bool) k (s t : list K) :
  set_has keq k (s ++ t) = set_has keq k s || set_has keq k t.
Proof. unfold set_has. apply existsb_app. Qed.

Lemma set_has_In s (l : list string) : set_has String.eqb s l = true <-> In s l.
Proof.
  unfold set_has. rewrite existsb_exists. split.
  - intros (x & Hx & E). apply String.eqb_eq in E. now subst.
  - intros H. exists s. split; [ assumption | apply String.eqb_refl ].
Qed.

Lemma In_set_add x p (s : list string) :
  In p (set_add String.eqb x s) <-> p = x \/ In p s.
Proof.
  unfold set_add. destruct (set_has String.eqb x s) eqn:E.
  - apply set_has_In in E. split; [ auto | intros [ -> | H ]; assumption ].
  - rewrite in_app_iff. simpl. intuition.
Qed.

Lemma In_add_all xs : forall p paths,
  In p (add_all xs paths) <-> In p xs \/ In p paths.
Proof.
  induction xs as [ | x r IH ]; intros p paths; simpl.
  - intuition.
  - rewrite IH, In_set_add. intuition.
Qed.

Lemma NoDup_set_add x (s : list string) : NoDup s -> NoDup (set_add String.eqb x s).
Proof.
  intros H. unfold set_add. destruct (set_has String.eqb x s) eqn:E; [ assumption | ].
  apply NoDup_app; [ assumption | repeat constructor; simpl; tauto | ].
  intros y Hy [ <- | [] ].
  apply set_has_In in Hy. congruence.
Qed.

Lemma NoDup_add_all xs : forall paths, NoDup paths -> NoDup (add_all xs paths).
Proof.
  induction xs as [ | x r IH ]; intros paths H; simpl; [ assumption | ].
  apply IH, NoDup_set_add, H.
Qed.

(** ** The order of the default sort *)

Lemma ascii_compare_trans a b c :
  Ascii.compare a b <> Gt -> Ascii.compare b c <> Gt -> Ascii.compare a c <> Gt.
Proof.
  unfold Ascii.compare. rewrite !N.compare_gt_iff. lia.
Qed.

Lemma string_compare_trans : forall a b c,
  String.compare a b <> Gt -> String.compare b c <> Gt -> String.compare a c <> Gt.
Proof.
  induction a as [ | x a IH ]; intros [ | y b ] [ | z c ]; simpl;
    try congruence.
  destruct (Ascii.compare x y) eqn:Exy; destruct (Ascii.compare y z) eqn:Eyz;
    try congruence; intros H1 H2.
  - apply Ascii.compare_eq_iff in Exy, Eyz. subst.
    replace (Ascii.compare z z) with Eq.
    + now apply IH with b.
    + symmetry. unfold Ascii.compare. apply N.compare_refl.
  - apply Ascii.compare_eq_iff in Exy. subst. rewrite Eyz. congruence.
  - apply Ascii.compare_eq_iff in Eyz. subst. rewrite Exy. congruence.
  - assert (H : Ascii.compare x z = Lt).
    { unfold Ascii.compare in *. rewrite N.compare_lt_iff in *. lia. }
    rewrite H. congruence.
Qed.

Lemma leb_trans a b c :
  String.leb a b = true -> String.leb b c = true -> String.leb a c = true.
Proof.
  unfold String.leb. intros H1 H2.
  assert (H := @string_compare_trans a b c).
  destruct (String.compare a b), (String.compare b c), (String.compare a c);
    try reflexivity; try discriminate; exfalso; apply H; congruence.
Qed.

Lemma leb_false_flip a b : String.leb a b = false -> String.leb b a = true.
Proof. destruct (String.leb_total a b); congruence. Qed.

Lemma sort_insert_comm x y : forall l,
  sort_insert x (sort_insert y l) = sort_insert y (sort_insert x l).
Proof.
  induction l as [ | z r IH ]; simpl.
  - destruct (String.leb x y) eqn:Exy, (String.leb y x) eqn:Eyx; try reflexivity.
    + now rewrite (String.leb_antisym _ _ Exy Eyx).
    + apply leb_false_flip in Exy. congruence.
  - destruct (String.leb y z) eqn:Eyz, (String.leb x z) eqn:Exz; simpl;
      rewrite ?Eyz, ?Exz.
    + destruct (String.leb x y) eqn:Exy, (String.leb y x) eqn:Eyx; try reflexivity.
      * now rewrite (String.leb_antisym _ _ Exy Eyx).
      * apply leb_false_flip in Exy. congruence.
    + destruct (String.leb x y) eqn:Exy; [ | reflexivity ].
      rewrite (leb_trans _ _ _ Exy Eyz) in Exz. discriminate.
    + destruct (String.leb y x) eqn:Eyx; [ | reflexivity ].
      rewrite (leb_trans _ _ _ Eyx Exz) in Eyz. discriminate.
    + now rewrite IH.
Qed.

Lemma js_sort_perm l l' : Permutation l l' -> js_sort l = js_sort l'.
Proof.
  induction 1; simpl; try congruence. apply sort_insert_comm.
Qed.

Lemma In_sort_insert x y l : In y (sort_insert x l) <-> y = x \/ In y l.
Proof.
  induction l as [ | z r IH ]; simpl.
  - intuition.
  - destruct (String.leb x z); simpl; rewrite ?IH; intuition.
Qed.

Lemma In_js_sort y l : In y (js_sort l) <-> In y l.
Proof.
  induction l as [ | x r IH ]; simpl; [ tauto | ].
  rewrite In_sort_insert, IH. intuition.
Qed.

Lemma length_sort_insert x l : length (sort_insert x l) = S (length l).
Proof.
  induction l as [ | z r IH ]; simpl; [ reflexivity | ].
  destruct (String.leb x z); simpl; congruence.
Qed.

Lemma length_js_sort l : length (js_sort l) = length l.
Proof.
  induction l as [ | x r IH ]; simpl; [ reflexivity | ].
  now rewrite length_sort_insert, IH.
Qed.

Lemma sort_insert_sorted x l :
  Sorted (fun a b => String.leb a b = true) l ->
  Sorted (fun a b => String.leb a b = true) (sort_insert x l).
Proof.
  induction l as [ | y r IH ]; simpl; intros H.
  - repeat constructor.
  - destruct (String.leb x y) eqn:E.
    + constructor; [ assumption | now constructor ].
    + inversion H as [ | ? ? Hr Hy ]; subst.
      constructor; [ now apply IH | ].
      destruct r as [ | z r ]; simpl.
      * constructor. now apply leb_false_flip.
      * destruct (String.leb x z); constructor.
        -- now apply leb_false_flip.
        -- now inversion Hy.
Qed.

Lemma js_sort_sorted l : Sorted (fun a b => String.leb a b = true) (js_sort l).
Proof.
  induction l as [ | x r IH ]; simpl; [ constructor | ].
  now apply sort_insert_sorted.
Qed.

(** ** First and last occurrences *)

Section OccurrenceFacts.
Variables A K : Type.
Variable keq : K -> K -> bool.
Variable key : A -> K.
Hypothesis keq_eq : forall a b, keq a b = true -> a = b.

Lemma keq_sym a b : keq a b = keq b a.
Proof.
  destruct (keq a b) eqn:E1, (keq b a) eqn:E2; try reflexivity.
  - pose proof (keq_eq E1). subst. congruence.
  - pose proof (keq_eq E2). subst. congruence.
Qed.

Lemma set_has_keq k k' s :
  keq k k' = true -> set_has keq k s = set_has keq k' s.
Proof. intros H. apply keq_eq in H. now subst. Qed.

Lemma filter_filter_absorb (P Q : A -> bool) l :
  (forall x, P x = true -> Q x = true) ->
  filter P (filter Q l) = filter P l.
Proof.
  intros H. induction l as [ | x r IH ]; simpl; [ reflexivity | ].
  destruct (Q x) eqn:EQ; simpl.
  - now rewrite IH.
  - destruct (P x) eqn:EP; [ | assumption ].
    apply H in EP. congruence.
Qed.

Lemma filter_filter_and (P Q : A -> bool) l :
  filter P (filter Q l) = filter (fun x => P x && Q x) l.
Proof.
  induction l as [ | x r IH ]; simpl; [ reflexivity | ].
  destruct (Q x); simpl; rewrite ?andb_true_r, ?andb_false_r.
  - now destruct (P x); rewrite IH.
  - assumption.
Qed.

(** The loop with a [seen] set keeps the first occurrences. *)
Lemma fold_keep_unseen l : forall kept seen,
  fst (fold_left (keep_unseen keq key) l (kept, seen))
  = kept ++ filter (fun x => negb (set_has keq (key x) seen)) (first_by keq key l).
Proof.
  induction l as [ | x r IH ]; intros kept seen; simpl.
  - now rewrite app_nil_r.
  - unfold keep_unseen at 2. simpl.
    destruct (set_has keq (key x) seen) eqn:E; simpl.
    + rewrite IH. f_equal. symmetry. apply filter_filter_absorb.
      intros y Hy. destruct (keq (key y) (key x)) eqn:Ek; [ | reflexivity ].
      rewrite (set_has_keq seen Ek), E in Hy. discriminate.
    + rewrite IH, <- app_assoc. simpl. do 2 f_equal.
      rewrite filter_filter_and. apply filter_ext. intros y.
      unfold set_add. rewrite E, set_has_app. simpl.
      now rewrite orb_false_r, negb_orb.
Qed.

Lemma set_has_filter k (P : A -> bool) l :
  set_has keq k (map key l) = false ->
  set_has keq k (map key (filter P l)) = false.
Proof.
  unfold set_has. induction l as [ | x r IH ]; simpl; [ reflexivity | ].
  intros H. apply orb_false_elim in H. destruct H as [H1 H2].
  destruct (P x); simpl; rewrite ?H1; auto.
Qed.

Lemma unique_keys_filter (P : A -> bool) l :
  unique_keys keq (map key l) = true ->
  unique_keys keq (map key (filter P l)) = true.
Proof.
  induction l as [ | x r IH ]; simpl; [ reflexivity | ].
  intros H. apply andb_prop in H. destruct H as [H1 H2].
  destruct (P x); simpl; [ | auto ].
  rewrite IH by assumption. rewrite andb_true_r.
  apply negb_true_iff in H1. now rewrite set_has_filter.
Qed.

Lemma set_has_filter_other k l :
  set_has keq k (map key (filter (fun y => negb (keq (key y) k)) l)) = false.
Proof.
  unfold set_has. induction l as [ | x r IH ]; simpl; [ reflexivity | ].
  destruct (keq (key x) k) eqn:E; simpl; [ assumption | ].
  now rewrite keq_sym, E.
Qed.

Lemma unique_first_by l : unique_keys keq (map key (first_by keq key l)) = true.
Proof.
  induction l as [ | x r IH ]; simpl; [ reflexivity | ].
  rewrite set_has_filter_other. simpl. now apply unique_keys_filter.
Qed.

(** first occurrences cover every key *)
Lemma set_has_first_by k l :
  set_has keq k (map key (first_by keq key l)) = set_has keq k (map key l).
Proof.
  unfold set_has. induction l as [ | x r IH ]; simpl; [ reflexivity | ].
  destruct (keq k (key x)) eqn:E; simpl; [ reflexivity | ].
  rewrite <- IH. clear IH.
  induction (first_by keq key r) as [ | y t IHt ]; simpl; [ reflexivity | ].
  destruct (keq (key y) (key x)) eqn:Ey; simpl.
  - rewrite IHt. apply keq_eq in Ey. rewrite Ey, E. reflexivity.
  - now rewrite IHt.
Qed.

Lemma first_by_snoc l x :
  first_by keq key (l ++ [x])
  = first_by keq key l
    ++ (if set_has keq (key x) (map key l) then [] else [x]).
Proof.
  induction l as [ | y r IH ]; simpl; [ reflexivity | ].
  rewrite IH, filter_app. f_equal.
  unfold set_has in *. simpl.
  destruct (existsb (keq (key x)) (map key r)); simpl.
  - now rewrite orb_true_r.
  - rewrite orb_false_r. now destruct (keq (key x) (key y)).
Qed.

Lemma length_first_by_le l : length (first_by keq key l) <= length l.
Proof.
  induction l as [ | x r IH ]; simpl; [ lia | ].
  pose proof (filter_length_le (fun y => negb (keq (key y) (key x)))
                (first_by keq key r)). lia.
Qed.
Lemma incl_filter_first_by l x : In x (first_by keq key l) -> In x l.
Proof.
  revert x. induction l as [ | y r IH ]; simpl; [ tauto | ].
  intros x [ H | H ]; [ now left | ].
  right. apply IH. apply filter_In in H. tauto.
Qed.
End OccurrenceFacts.

Section MapFacts.
Variables K V : Type.
Variable keq : K -> K -> bool.
Hypothesis keq_eq : forall a b, keq a b = true -> a = b.

Lemma map_get_map_set k k' (v : V) m :
  map_get keq k (map_set keq k' v m)
  = if keq k k' then Some v else map_get keq k m.
Proof.
  induction m as [ | [k0 v0] r IH ]; simpl; [ reflexivity | ].
  destruct (keq k' k0) eqn:E0; simpl.
  - apply keq_eq in E0. subst k0. now destruct (keq k k').
  - rewrite IH. destruct (keq k k0) eqn:E; [ | reflexivity ].
    apply keq_eq in E. subst k0.
    now rewrite (keq_sym keq keq_eq k k'), E0.
Qed.

Lemma keys_map_set k (v : V) m :
  map fst (map_set keq k v m) = set_add keq k (map fst m).
Proof.
  unfold set_add, set_has.
  induction m as [ | [k0 v0] r IH ]; simpl; [ reflexivity | ].
  destruct (keq k k0); simpl; [ reflexivity | ].
  rewrite IH. now destruct (existsb (keq k) (map fst r)).
Qed.

Lemma find_app (A : Type) (P : A -> bool) l l' :
  find P (l ++ l') = match find P l with Some x => Some x | None => find P l' end.
Proof.
  induction l as [ | x r IH ]; simpl; [ reflexivity | ].
  now destruct (P x).
Qed.

Lemma last_with_cons (c : K * V) cs k :
  last_with keq fst (c :: cs) k
  = match last_with keq fst cs k with
    | Some d => Some d
    | None => if keq k (fst c) then Some c else None
    end.
Proof. unfold last_with. simpl. now rewrite find_app. Qed.

Lemma last_with_snoc (c : K * V) cs k :
  last_with keq fst (cs ++ [c]) k
  = if keq k (fst c) then Some c else last_with keq fst cs k.
Proof. unfold last_with. now rewrite rev_app_distr. Qed.

(** A map built by storing pairs answers with the last pair stored under
    the key. *)
Lemma map_get_fold_store (cs : list (K * V)) : forall m k,
  map_get keq k (fold_left (store keq) cs m)
  = match last_with keq fst cs k with
    | Some c => Some (snd c)
    | None => map_get keq k m
    end.
Proof.
  induction cs as [ | c r IH ]; intros m k; simpl; [ reflexivity | ].
  rewrite IH, last_with_cons. unfold store at 1.
  rewrite map_get_map_set.
  now destruct (last_with keq fst r k), (keq k (fst c)).
Qed.

Lemma fold_store_snoc (cs : list (K * V)) c m :
  fold_left (store keq) (cs ++ [c]) m
  = map_set keq (fst c) (snd c) (fold_left (store keq) cs m).
Proof. now rewrite fold_left_app. Qed.

(** Its keys are the keys stored, in the order of their first occurrence. *)
Lemma keys_fold_store (cs : list (K * V)) :
  map fst (fold_left (store keq) cs []) = map fst (first_by keq fst cs).
Proof.
  induction cs as [ | c r IH ] using rev_ind; [ reflexivity | ].
  rewrite fold_store_snoc, keys_map_set, IH, (first_by_snoc keq fst), map_app.
  unfold set_add. rewrite (set_has_first_by keq fst keq_eq).
  destruct (set_has keq (fst c) (map fst r)); simpl;
    [ now rewrite app_nil_r | reflexivity ].
Qed.

Lemma set_has_false_keq k s :
  set_has keq k s = false -> forall k', In k' s -> keq k' k = false.
Proof.
  unfold set_has. intros H k' Hin.
  rewrite (keq_sym keq keq_eq).
  destruct (keq k k') eqn:E; [ | reflexivity ].
  assert (existsb (keq k) s = true) by (apply existsb_exists; eauto).
  congruence.
Qed.

Lemma map_set_unique k (v : V) m :
  unique_keys keq (map fst m) = true ->
  map_set keq k v m
  = if set_has keq k (map fst m)
    then map (fun e => (fst e, if keq (fst e) k then v else snd e)) m
    else m ++ [(k, v)].
Proof.
  unfold set_has.
  induction m as [ | [k0 v0] r IH ]; simpl; [ reflexivity | ].
  intros H. apply andb_prop in H. destruct H as [H1 H2].
  apply negb_true_iff in H1.
  destruct (keq k k0) eqn:E; simpl.
  - pose proof (keq_eq E). subst k0. rewrite E. f_equal.
    rewrite <- (map_id r) at 1. apply map_ext_in. intros [k1 v1] Hin. simpl.
    assert (Hk : keq k1 k = false).
    { eapply set_has_false_keq; [ exact H1 | ].
      apply in_map_iff. exists (k1, v1). auto. }
    now rewrite Hk.
  - rewrite (IH H2). rewrite (keq_sym keq keq_eq k0 k), E.
    now destruct (existsb (keq k) (map fst r)).
Qed.

Lemma latest_snoc (c c' : K * V) cs :
  latest keq fst (cs ++ [c]) c'
  = if keq (fst c') (fst c) then c else latest keq fst cs c'.
Proof.
  unfold latest. rewrite rev_app_distr. simpl.
  now destruct (keq (fst c') (fst c)).
Qed.

Lemma latest_fresh (c : K * V) cs :
  set_has keq (fst c) (map fst cs) = false -> latest keq fst cs c = c.
Proof.
  intros H. unfold latest.
  destruct (find (fun y => keq (fst c) (fst y)) (rev cs)) as [ y | ] eqn:E;
    [ | reflexivity ].
  apply find_some in E. destruct E as [Hin E].
  apply in_rev in Hin.
  assert (set_has keq (fst c) (map fst cs) = true).
  { apply existsb_exists. exists (fst y). split; [ now apply in_map | assumption ]. }
  congruence.
Qed.

(** A map built by storing pairs holds, for every key in the order of its
    first occurrence, the value of the last pair stored under it. *)
Lemma fold_store_first_latest (cs : list (K * V)) :
  fold_left (store keq) cs []
  = map (fun c => (fst c, snd (latest keq fst cs c))) (first_by keq fst cs).
Proof.
  induction cs as [ | c r IH ] using rev_ind; [ reflexivity | ].
  rewrite fold_store_snoc, IH, (first_by_snoc keq fst), map_app.
  rewrite map_set_unique.
  - rewrite map_map. simpl. rewrite map_map. simpl.
    rewrite (set_has_first_by keq fst keq_eq).
    destruct (set_has keq (fst c) (map fst r)) eqn:E; simpl.
    + rewrite app_nil_r. apply map_ext. intros c'.
      rewrite latest_snoc. now destruct (keq (fst c') (fst c)).
    + f_equal.
      * apply map_ext_in. intros c' Hin. rewrite latest_snoc.
        assert (Hk : keq (fst c') (fst c) = false).
        { eapply set_has_false_keq; [ exact E | ].
          apply in_map. eapply incl_filter_first_by; eassumption. }
        now rewrite Hk.
      * rewrite latest_snoc.
        destruct (keq (fst c) (fst c)); [ reflexivity | ].
        now rewrite latest_fresh.
  - rewrite map_map. simpl. apply (unique_first_by keq fst keq_eq).
Qed.
End MapFacts.

(** ** The schema hash *)

Lemma getStructure_object fs :
  getStructure (VObject fs)
  = VObject (fold_left (define_key (shapes_of fs)) (js_sort (keys fs)) []).
Proof.
  assert (E : (fix shapes (fs : list (string * value)) : list (string * value) :=
                 match fs with
                 | [] => []
                 | (k, x) :: r => (k, getStructure x) :: shapes r
                 end) fs = shapes_of fs).
  { induction fs as [ | [k x] r IH ]; simpl; [ reflexivity | now rewrite IH ]. }
  simpl. rewrite E. reflexivity.
Qed.

Lemma assoc_perm (A : Type) k (l l' : list (string * A)) :
  Permutation l l' -> NoDup (map fst l) -> assoc k l = assoc k l'.
Proof.
  induction 1 as [ | [k1 x1] l l' HP IH | [k1 x1] [k2 x2] l | l l' l'' HP1 IH1 HP2 IH2 ];
    simpl; intros ND.
  - reflexivity.
  - inversion ND; subst. now rewrite IH.
  - inversion ND as [ | ? ? Hnotin _ ]; subst.
    destruct (String.eqb k k2) eqn:E2, (String.eqb k k1) eqn:E1; try reflexivity.
    apply String.eqb_eq in E1, E2. subst. exfalso. apply Hnotin. now left.
  - rewrite IH1 by assumption. apply IH2.
    eapply Permutation_NoDup; [ apply Permutation_map, HP1 | assumption ].
Qed.

Lemma fold_left_define_ext shaped shaped' ks : forall acc,
  (forall k, assoc k shaped = assoc k shaped') ->
  fold_left (define_key shaped) ks acc = fold_left (define_key shaped') ks acc.
Proof.
  induction ks as [ | k r IH ]; intros acc H; simpl; [ reflexivity | ].
  unfold define_key at 2 4. rewrite H. now apply IH.
Qed.

Lemma getStructure_same_shape v w :
  same_shape v w -> getStructure v = getStructure w.
Proof.
  induction 1 as [ v | u v w _ IH1 _ IH2 | a b | n m | s t
                 | fs fs' HP ND | pre k x y post _ IH | x y l l' _ IH ].
  - reflexivity.
  - congruence.
  - reflexivity.
  - reflexivity.
  - reflexivity.
  - rewrite !getStructure_object. f_equal. unfold keys.
    rewrite (js_sort_perm (Permutation_map fst HP)).
    apply fold_left_define_ext. intros k. unfold shapes_of.
    apply assoc_perm.
    + now apply Permutation_map.
    + rewrite map_map. simpl. exact ND.
  - rewrite !getStructure_object. unfold shapes_of, keys.
    rewrite !map_app. simpl. now rewrite IH.
  - simpl. now rewrite IH.
Qed.

Lemma generateSchemaHash_total v : exists h, generateSchemaHash v = Some h.
Proof.
  unfold generateSchemaHash, JSON_stringify_2.
  destruct v as [ | | b | n | s | [ | x l ] | fs ];
    simpl; eexists; reflexivity.
Qed.

(** *** The structure tells the sampled shapes apart *)

Lemma map_has_assoc (A : Type) k (fs : list (string * A)) :
  map_has String.eqb k fs = false <-> assoc k fs = None.
Proof.
  unfold map_has. induction fs as [ | [k1 x1] r IH ]; simpl; [ tauto | ].
  destruct (String.eqb k k1); simpl; [ split; discriminate | exact IH ].
Qed.

Lemma assoc_map_set (A : Type) k (v : A) k' fs :
  assoc k' (map_set String.eqb k v fs)
  = if String.eqb k' k then Some v else assoc k' fs.
Proof.
  induction fs as [ | [k1 x1] r IH ]; simpl; [ reflexivity | ].
  destruct (String.eqb k k1) eqn:E; simpl.
  - apply String.eqb_eq in E. subst k1. now destruct (String.eqb k' k).
  - rewrite IH. destruct (String.eqb k' k) eqn:E'; [ | reflexivity ].
    apply String.eqb_eq in E'. subst k'. now rewrite E.
Qed.

Lemma assoc_app_fresh (A : Type) k (v : A) k' fs :
  assoc k fs = None ->
  assoc k' (fs ++ [(k, v)]) = if String.eqb k' k then Some v else assoc k' fs.
Proof.
  induction fs as [ | [k1 x1] r IH ]; simpl; intros H; [ reflexivity | ].
  destruct (String.eqb k k1) eqn:E; [ discriminate | ].
  rewrite (IH H). destruct (String.eqb k' k1) eqn:E1; [ | reflexivity ].
  destruct (String.eqb k' k) eqn:E2; [ | reflexivity ].
  apply String.eqb_eq in E1, E2. subst. now rewrite String.eqb_refl in E.
Qed.

Lemma assoc_insert_index i k v k' fs :
  assoc k fs = None ->
  assoc k' (insert_index i k v fs) = if String.eqb k' k then Some v else assoc k' fs.
Proof.
  induction fs as [ | [k1 x1] r IH ]; simpl; intros H; [ reflexivity | ].
  destruct (String.eqb k k1) eqn:E; [ discriminate | ].
  assert (Hhead : assoc k' ((k, v) :: (k1, x1) :: r)
                  = if String.eqb k' k then Some v else assoc k' ((k1, x1) :: r))
    by reflexivity.
  destruct (array_index k1) as [ j | ]; [ | exact Hhead ].
  destruct (i <? j)%Z; [ exact Hhead | ].
  simpl. rewrite (IH H). destruct (String.eqb k' k1) eqn:E1; [ | reflexivity ].
  destruct (String.eqb k' k) eqn:E2; [ | reflexivity ].
  apply String.eqb_eq in E1, E2. subst. now rewrite String.eqb_refl in E.
Qed.

Lemma assoc_obj_set fs k v k' :
  assoc k' (obj_set fs k v) = if String.eqb k' k then Some v else assoc k' fs.
Proof.
  unfold obj_set. destruct (map_has String.eqb k fs) eqn:E.
  - apply assoc_map_set.
  - apply map_has_assoc in E.
    destruct (array_index k); [ now apply assoc_insert_index | now apply assoc_app_fresh ].
Qed.

Lemma assoc_fold_define shaped ks : forall acc k',
  assoc k' (fold_left (define_key shaped) ks acc)
  = if set_has String.eqb k' ks && negb (String.eqb k' "__proto__")
    then Some match assoc k' shaped with Some t => t | None => VUndefined end
    else assoc k' acc.
Proof.
  unfold set_has.
  induction ks as [ | k r IH ]; intros acc k'; cbn [fold_left existsb]; [ reflexivity | ].
  rewrite IH. unfold define_key.
  destruct (String.eqb k' "__proto__") eqn:Ep; cbn [negb];
    rewrite ?andb_false_r, ?andb_true_r.
  - apply String.eqb_eq in Ep. subst k'.
    destruct (String.eqb k "__proto__") eqn:Ek; [ reflexivity | ].
    rewrite assoc_obj_set. rewrite String.eqb_sym in Ek. now rewrite Ek.
  - destruct (existsb (String.eqb k') r); rewrite ?orb_true_r, ?orb_false_r;
      [ reflexivity | ].
    destruct (String.eqb k "__proto__") eqn:Ek.
    + apply String.eqb_eq in Ek. subst k. now rewrite Ep.
    + rewrite assoc_obj_set. destruct (String.eqb k' k) eqn:E; [ | reflexivity ].
      apply String.eqb_eq in E. now subst.
Qed.

Lemma assoc_shapes_of k fs :
  assoc k (shapes_of fs) = option_map getStructure (assoc k fs).
Proof.
  unfold shapes_of. induction fs as [ | [k1 x1] r IH ]; simpl; [ reflexivity | ].
  now destruct (String.eqb k k1).
Qed.

Lemma assoc_keys (A : Type) k (fs : list (string * A)) :
  set_has String.eqb k (map fst fs) = false <-> assoc k fs = None.
Proof.
  unfold set_has. induction fs as [ | [k1 x1] r IH ]; simpl; [ tauto | ].
  destruct (String.eqb k k1); simpl; [ split; discriminate | exact IH ].
Qed.

(** the members of the structure of an object without the key [__proto__] *)
Lemma set_has_js_sort k l : set_has String.eqb k (js_sort l) = set_has String.eqb k l.
Proof.
  destruct (set_has String.eqb k l) eqn:E.
  - rewrite set_has_In in *. now rewrite In_js_sort.
  - destruct (set_has String.eqb k (js_sort l)) eqn:E'; [ | reflexivity ].
    rewrite set_has_In, In_js_sort, <- set_has_In in E'. congruence.
Qed.

Lemma assoc_structure fs k :
  set_has String.eqb "__proto__" (keys fs) = false ->
  assoc k (fold_left (define_key (shapes_of fs)) (js_sort (keys fs)) [])
  = option_map getStructure (assoc k fs).
Proof.
  intros Hp. rewrite assoc_fold_define, assoc_shapes_of, set_has_js_sort. cbn [assoc].
  destruct (assoc k fs) as [ x | ] eqn:Ea.
  - assert (Hin : set_has String.eqb k (keys fs) = true).
    { destruct (set_has String.eqb k (keys fs)) eqn:E; [ reflexivity | ].
      apply assoc_keys in E. congruence. }
    rewrite Hin. destruct (String.eqb k "__proto__") eqn:E; [ | reflexivity ].
    apply String.eqb_eq in E. subst. congruence.
  - apply assoc_keys in Ea. unfold keys. now rewrite Ea.
Qed.

Lemma unique_keys_NoDup (l : list string) : unique_keys String.eqb l = true -> NoDup l.
Proof.
  induction l as [ | x r IH ]; [ constructor | ].
  cbn [unique_keys]. intros H. apply andb_true_iff in H. destruct H as [Hx Hr].
  constructor; [ | now apply IH ].
  intros Hin. apply set_has_In in Hin. rewrite Hin in Hx. discriminate.
Qed.

Lemma proper_object fs :
  proper (VObject fs) = true ->
  NoDup (keys fs)
  /\ set_has String.eqb "__proto__" (keys fs) = false
  /\ forall k x, In (k, x) fs -> proper x = true.
Proof.
  cbn [proper]. intros H. apply andb_true_iff in H. destruct H as [H Hc].
  apply andb_true_iff in H. destruct H as [Hu Hp].
  split; [ now apply unique_keys_NoDup | ].
  split; [ now apply negb_true_iff | ].
  clear Hu Hp. induction fs as [ | [k1 x1] r IH ]; [ intros k x [] | ].
  apply andb_true_iff in Hc. destruct Hc as [H1 Hr].
  intros k x [ E | Hin ]; [ now inversion E; subst | now apply (IH Hr k x) ].
Qed.

Lemma assoc_In_NoDup (A : Type) k (x : A) fs :
  NoDup (map fst fs) -> (assoc k fs = Some x <-> In (k, x) fs).
Proof.
  induction fs as [ | [k1 x1] r IH ]; simpl; intros ND.
  - split; [ discriminate | tauto ].
  - inversion ND as [ | ? ? Hn Hr ]; subst.
    destruct (String.eqb k k1) eqn:E.
    + apply String.eqb_eq in E. subst k1. split.
      * intros H. left. congruence.
      * intros [ H | H ]; [ congruence | ].
        exfalso. apply Hn. apply in_map_iff. exists (k, x). auto.
    + rewrite (IH Hr). split; [ auto | ].
      intros [ H | H ]; [ | exact H ].
      inversion H; subst. now rewrite String.eqb_refl in E.
Qed.

(** fields changed one by one *)
Lemma same_shape_fields post : forall pre post',
  Forall2 (fun a b => fst a = fst b /\ same_shape (snd a) (snd b)) post post' ->
  same_shape (VObject (pre ++ post)) (VObject (pre ++ post')).
Proof.
  induction post as [ | [k x] r IH ]; intros pre post' H; inversion H; subst.
  - apply shape_refl.
  - destruct y as [k' y]. destruct H2 as [Ek Hs]. cbn [fst snd] in Ek, Hs. subst k'.
    eapply shape_trans; [ apply (shape_field pre k r Hs) | ].
    change (same_shape (VObject (pre ++ [(k, y)] ++ r)) (VObject (pre ++ [(k, y)] ++ l'))).
    rewrite !app_assoc. now apply IH.
Qed.

Lemma Forall2_map_same (A B : Type) (f : A -> B) (R : A -> B -> Prop) l :
  (forall a, In a l -> R a (f a)) -> Forall2 R l (map f l).
Proof.
  induction l as [ | a r IH ]; intros H; cbn [map]; constructor.
  - apply H. now left.
  - apply IH. intros b Hb. apply H. now right.
Qed.

Lemma structure_not_empty v : getStructure v <> VString "empty".
Proof.
  destruct v as [ | | b | n | s | [ | x l ] | fs ]; discriminate.
Qed.

(** values with the same structure have the same sampled shape *)
Lemma getStructure_exact v : forall w,
  proper v = true -> proper w = true ->
  getStructure v = getStructure w -> same_shape v w.
Proof.
  induction v as [ | | b | n | s | l IH | fs IH ] using value_ind'; intros w Pv Pw E.
  - destruct w as [ | | ? | ? | ? | [ | ? ? ] | fs' ]; try discriminate; apply shape_refl.
  - destruct w as [ | | ? | ? | ? | [ | ? ? ] | fs' ]; try discriminate; apply shape_refl.
  - destruct w as [ | | ? | ? | ? | [ | ? ? ] | fs' ]; try discriminate; apply shape_bool.
  - destruct w as [ | | ? | ? | ? | [ | ? ? ] | fs' ]; try discriminate; apply shape_number.
  - destruct w as [ | | ? | ? | ? | [ | ? ? ] | fs' ]; try discriminate; apply shape_string.
  - destruct w as [ | | ? | ? | ? | l' | fs' ]; try (destruct l; discriminate).
    destruct l as [ | x r ], l' as [ | y r' ].
    + apply shape_refl.
    + cbn [getStructure] in E. exfalso. apply (structure_not_empty y). congruence.
    + cbn [getStructure] in E. exfalso. apply (structure_not_empty x). congruence.
    + cbn [getStructure] in E. inversion IH as [ | ? ? Hx _ ]; subst.
      cbn [proper] in Pv, Pw. apply andb_true_iff in Pv, Pw.
      apply shape_first. apply Hx; [ tauto | tauto | congruence ].
  - destruct w as [ | | ? | ? | ? | l' | fs' ];
      try discriminate; try (destruct l'; discriminate).
    rewrite !getStructure_object in E.
    destruct (proper_object fs Pv) as (ND & Hp & Hc).
    destruct (proper_object fs' Pw) as (ND' & Hp' & Hc').
    assert (Ha : forall k, option_map getStructure (assoc k fs)
                           = option_map getStructure (assoc k fs')).
    { intros k. rewrite <- (assoc_structure fs k Hp), <- (assoc_structure fs' k Hp').
      congruence. }
    set (fs0 := map (fun kx => (fst kx,
                       match assoc (fst kx) fs' with Some y => y | None => snd kx end)) fs).
    apply shape_trans with (VObject fs0).
    + apply (@same_shape_fields fs [] fs0). unfold fs0.
      apply Forall2_map_same. intros [k x] Hin. cbn [fst snd].
      split; [ reflexivity | ].
      rewrite Forall_forall in IH.
      pose proof (Ha k) as Hk.
      rewrite (proj2 (assoc_In_NoDup k x fs ND) Hin) in Hk. cbn [option_map] in Hk.
      destruct (assoc k fs') as [ y | ] eqn:Ey; [ | discriminate ].
      cbn [option_map] in Hk.
      apply some_inj in Hk.
      apply (IH (k, x) Hin); [ exact (Hc k x Hin) | | exact Hk ].
      apply (Hc' k y). now apply (assoc_In_NoDup k y fs' ND').
    + assert (Hk0 : keys fs0 = keys fs).
      { unfold fs0, keys. rewrite map_map. reflexivity. }
      apply shape_keys; [ | now rewrite Hk0 ].
      assert (ND0 : NoDup (map fst fs0)) by (fold (keys fs0); now rewrite Hk0).
      apply NoDup_Permutation.
      * eapply NoDup_map_inv. exact ND0.
      * eapply NoDup_map_inv. exact ND'.
      * intros [k y]. rewrite <- (assoc_In_NoDup k y fs0 ND0),
          <- (assoc_In_NoDup k y fs' ND').
        assert (E0 : assoc k fs0 = assoc k fs').
        { pose proof (Ha k) as Hk. unfold fs0. clear - Hk.
          induction fs as [ | [k1 x1] r IHr ]; cbn [map assoc fst snd].
          - cbn [assoc option_map] in Hk. destruct (assoc k fs'); [ discriminate | reflexivity ].
          - cbn [assoc] in Hk. destruct (String.eqb k k1) eqn:E.
            + apply String.eqb_eq in E. subst k1. cbn [option_map] in Hk.
              destruct (assoc k fs'); [ reflexivity | discriminate ].
            + now apply IHr. }
        now rewrite E0.
Qed.

(** C3 (as stated): two objects with the same keys whose leaves differ in
    type ([1] against ["x"], [1] against [null]) have different
    fingerprints; and a field added to an array item after the first does
    not change the fingerprint. *)
Lemma schema_hash_sees_leaf_types :
  generateSchemaHash (VObject [("a", VNumber 1)])
  <> generateSchemaHash (VObject [("a", VString "x")])
  /\ generateSchemaHash (VObject [("a", VNumber 1)])
     <> generateSchemaHash (VObject [("a", VNull)])
  /\ generateSchemaHash later_item_plain = generateSchemaHash later_item_grown.
Proof.
  split; [ vm_compute; discriminate | ].
  split; [ vm_compute; discriminate | vm_compute; reflexivity ].
Qed.

(** C3 (amended): the schema hash is a function of the sampled shape: it
    exists for every value; values of the same sampled shape (keys in
    another order, scalars replaced by scalars of the same [typeof], array
    items after the first changed) have equal hashes, so [{a:1,b:"x"}],
    [{a:2,b:"y"}] and [{b:"x",a:1}] hash alike; and for proper values the
    structure that is hashed is the same exactly when the sampled shapes
    are, so that a field added where the walk looks ([{a:1}] against
    [{a:1,b:1}], a nested object, the first item of an array) changes the
    structure, and on these examples the hash. *)
Theorem schema_hash_structural :
  (forall v, exists h, generateSchemaHash v = Some h)
  /\ (forall v w, same_shape v w -> generateSchemaHash v = generateSchemaHash w)
  /\ (forall v w, proper v = true -> proper w = true ->
        (getStructure v = getStructure w <-> same_shape v w))
  /\ (forall v w, getStructure v = getStructure w ->
        generateSchemaHash v = generateSchemaHash w)
  /\ generateSchemaHash (VObject [("a", VNumber 1); ("b", VString "x")])
     = generateSchemaHash (VObject [("a", VNumber 2); ("b", VString "y")])
  /\ generateSchemaHash (VObject [("b", VString "x"); ("a", VNumber 1)])
     = generateSchemaHash (VObject [("a", VNumber 1); ("b", VString "x")])
  /\ generateSchemaHash (VObject [("a", VNumber 1)])
     <> generateSchemaHash (VObject [("a", VNumber 1); ("b", VNumber 1)])
  /\ generateSchemaHash (VObject [("a", VObject [("b", VNumber 1)])])
     <> generateSchemaHash (VObject [("a", VObject [("b", VNumber 1); ("c", VNumber 1)])])
  /\ generateSchemaHash (VArray [VObject [("a", VNumber 1)]])
     <> generateSchemaHash (VArray [VObject [("a", VNumber 1); ("b", VNumber 1)]]).
Proof.
  split; [ exact generateSchemaHash_total | ].
  split.
  { intros v w H. unfold generateSchemaHash.
    now rewrite (getStructure_same_shape H). }
  split.
  { intros v w Pv Pw. split; [ now apply getStructure_exact | ].
    apply getStructure_same_shape. }
  split.
  { intros v w H. unfold generateSchemaHash. now rewrite H. }
  split; [ vm_compute; reflexivity | ].
  split; [ vm_compute; reflexivity | ].
  split; [ vm_compute; discriminate | ].
  split; vm_compute; discriminate.
Qed.

(** C3 (amended), on an instance: a nested reordering with other leaves. *)
Lemma schema_hash_structural_witness :
  generateSchemaHash
    (VObject [("a", VNumber 1); ("b", VObject [("y", VNull); ("x", VString "u")])])
  = generateSchemaHash
      (VObject [("b", VObject [("x", VString "v"); ("y", VNull)]); ("a", VNumber 7)]).
Proof.
  apply (proj1 (proj2 schema_hash_structural)).
  apply shape_trans with
    (VObject [("a", VNumber 7); ("b", VObject [("y", VNull); ("x", VString "u")])]).
  { apply (@shape_field [] "a" (VNumber 1) (VNumber 7)). apply shape_number. }
  apply shape_trans with
    (VObject [("a", VNumber 7); ("b", VObject [("x", VString "u"); ("y", VNull)])]).
  { apply (@shape_field [("a", VNumber 7)] "b"). apply shape_keys.
    - apply perm_swap.
    - repeat constructor; simpl; intuition discriminate. }
  apply shape_trans with
    (VObject [("a", VNumber 7); ("b", VObject [("x", VString "v"); ("y", VNull)])]).
  { apply (@shape_field [("a", VNumber 7)] "b").
    apply (@shape_field [] "x"). apply shape_string. }
  apply shape_keys.
  - apply perm_swap.
  - repeat constructor; simpl; intuition discriminate.
Defined.

(** ** Field paths *)

Lemma extractFieldPaths_array l prefix :
  extractFieldPaths (VArray l) prefix = fold_left (add_item prefix) l [].
Proof.
  simpl. generalize (@nil string).
  induction l as [ | x r IH ]; intros paths; simpl; [ reflexivity | apply IH ].
Qed.

Lemma extractFieldPaths_object fs prefix :
  extractFieldPaths (VObject fs) prefix = fold_left (add_field prefix) fs [].
Proof.
  simpl. generalize (@nil string).
  induction fs as [ | [k x] r IH ]; intros paths; simpl; [ reflexivity | apply IH ].
Qed.

Lemma In_fold_add_item prefix p l : forall paths,
  In p (fold_left (add_item prefix) l paths)
  <-> In p paths \/ exists x, In x l /\ In p (extractFieldPaths x prefix).
Proof.
  induction l as [ | y r IH ]; intros paths; simpl.
  - split; [ auto | intros [ H | (x & [] & _) ]; exact H ].
  - rewrite IH. unfold add_item. rewrite In_add_all. split.
    + intros [ [ H | H ] | (x & Hx & H) ]; eauto 6.
    + intros [ H | (x & [ <- | Hx ] & H) ]; eauto 6.
Qed.

Lemma In_fold_add_field prefix p fs : forall paths,
  In p (fold_left (add_field prefix) fs paths)
  <-> In p paths
      \/ exists k x, In (k, x) fs
           /\ (p = field_path prefix k
               \/ In p (extractFieldPaths x (field_path prefix k))).
Proof.
  induction fs as [ | [k0 x0] r IH ]; intros paths; simpl.
  - split; [ auto | intros [ H | (k & x & [] & _) ]; exact H ].
  - rewrite IH. unfold add_field. simpl. rewrite In_add_all, In_set_add. split.
    + intros [ [ H | [ H | H ] ] | (k & x & Hx & H) ]; eauto 10.
    + intros [ H | (k & x & [ E | Hx ] & H) ]; [ auto | | eauto 10 ].
      inversion E; subst. destruct H; auto.
Qed.

Lemma key_chain_array l ks :
  key_chain (VArray l) ks <-> exists x, In x l /\ key_chain x ks.
Proof.
  split.
  - inversion 1; subst; eauto.
  - intros (x & Hx & H). eapply chain_item; eauto.
Qed.

Lemma key_chain_object fs ks :
  key_chain (VObject fs) ks
  <-> exists k x, In (k, x) fs
        /\ (ks = [k] \/ exists ks', ks = k :: ks' /\ key_chain x ks').
Proof.
  split.
  - inversion 1; subst; eauto 8.
  - intros (k & x & Hx & [ -> | (ks' & -> & H) ]).
    + eapply chain_key; eauto.
    + eapply chain_field; eauto.
Qed.

Lemma field_paths_chains data : forall prefix p,
  In p (extractFieldPaths data prefix)
  <-> exists ks, key_chain data ks /\ p = path_of prefix ks.
Proof.
  induction data as [ | | b | n | s | l IH | fs IH ] using value_ind';
    intros prefix p;
    try (simpl; split; [ intros [] | intros (ks & H & _); inversion H ]).
  - rewrite extractFieldPaths_array, In_fold_add_item. simpl.
    rewrite Forall_forall in IH. split.
    + intros [ [] | (x & Hx & H) ].
      apply (IH x Hx) in H. destruct H as (ks & Hks & ->).
      exists ks. split; [ | reflexivity ]. apply key_chain_array. eauto.
    + intros (ks & Hks & ->). right.
      apply key_chain_array in Hks. destruct Hks as (x & Hx & Hks).
      exists x. split; [ assumption | ]. apply (IH x Hx). eauto.
  - rewrite extractFieldPaths_object, In_fold_add_field. simpl.
    rewrite Forall_forall in IH. split.
    + intros [ [] | (k & x & Hx & [ -> | H ]) ].
      * exists [k]. split; [ | reflexivity ]. eapply chain_key; eauto.
      * apply (IH (k, x) Hx) in H. destruct H as (ks & Hks & ->).
        exists (k :: ks). split; [ | reflexivity ]. eapply chain_field; eauto.
    + intros (ks & Hks & ->). right.
      apply key_chain_object in Hks.
      destruct Hks as (k & x & Hx & [ -> | (ks' & -> & Hks) ]).
      * exists k, x. auto.
      * exists k, x. split; [ assumption | ]. right.
        apply (IH (k, x) Hx). eauto.
Qed.

Lemma NoDup_fold_add_item prefix l : forall paths,
  NoDup paths -> NoDup (fold_left (add_item prefix) l paths).
Proof.
  induction l as [ | x r IH ]; intros paths H; simpl; [ assumption | ].
  apply IH. unfold add_item. now apply NoDup_add_all.
Qed.

Lemma NoDup_fold_add_field prefix fs : forall paths,
  NoDup paths -> NoDup (fold_left (add_field prefix) fs paths).
Proof.
  induction fs as [ | x r IH ]; intros paths H; simpl; [ assumption | ].
  apply IH. unfold add_field. now apply NoDup_add_all, NoDup_set_add.
Qed.

Lemma NoDup_extractFieldPaths data prefix : NoDup (extractFieldPaths data prefix).
Proof.
  destruct data; try (simpl; constructor).
  - rewrite extractFieldPaths_array. apply NoDup_fold_add_item. constructor.
  - rewrite extractFieldPaths_object. apply NoDup_fold_add_field. constructor.
Qed.

Lemma spec_field_paths_object fs prefix :
  spec_field_paths (VObject fs) prefix = fold_left (spec_add_field prefix) fs [].
Proof.
  simpl. generalize (@nil string).
  induction fs as [ | [k x] r IH ]; intros paths; simpl; [ reflexivity | apply IH ].
Qed.

Lemma In_fold_spec_add_field prefix p fs : forall paths,
  In p (fold_left (spec_add_field prefix) fs paths)
  <-> In p paths
      \/ exists k x, In (k, x) fs
           /\ (p = field_path prefix k
               \/ In p (spec_field_paths x (field_path prefix k))).
Proof.
  induction fs as [ | [k0 x0] r IH ]; intros paths; simpl.
  - split; [ auto | intros [ H | (k & x & [] & _) ]; exact H ].
  - rewrite IH. unfold spec_add_field. simpl.
    rewrite In_add_all, In_set_add. split.
    + intros [ [ H | [ H | H ] ] | (k & x & Hx & H) ]; eauto 10.
    + intros [ H | (k & x & [ E | Hx ] & H) ]; [ auto | | eauto 10 ].
      inversion E; subst. destruct H; auto.
Qed.

Lemma spec_paths_included data : forall prefix,
  incl (spec_field_paths data prefix) (extractFieldPaths data prefix).
Proof.
  induction data as [ | | b | n | s | l IH | fs IH ] using value_ind';
    intros prefix p; try (simpl; tauto).
  - rewrite extractFieldPaths_array, In_fold_add_item.
    destruct l as [ | x r ]; simpl; [ tauto | ].
    intros H. right. exists x. split; [ now left | ].
    inversion IH; subst. now apply H2.
  - rewrite spec_field_paths_object, extractFieldPaths_object,
      In_fold_spec_add_field, In_fold_add_field.
    rewrite Forall_forall in IH.
    intros [ [] | (k & x & Hx & [ -> | H ]) ]; right; exists k, x.
    + auto.
    + split; [ assumption | ]. right. now apply (IH (k, x) Hx).
Qed.

Lemma append_assoc (a b c : string) : ((a ++ b) ++ c = a ++ (b ++ c))%string.
Proof. induction a as [ | x a IH ]; simpl; congruence. Qed.

Lemma append_empty_r (a : string) : (a ++ EmptyString)%string = a.
Proof. induction a as [ | x a IH ]; simpl; congruence. Qed.

Lemma path_of_nonempty ks : forall prefix,
  nonempty prefix = true ->
  path_of prefix ks
  = (prefix ++ fold_right (fun k r => "." ++ k ++ r) EmptyString ks)%string.
Proof.
  unfold path_of.
  induction ks as [ | k r IH ]; intros prefix H; simpl.
  - now rewrite append_empty_r.
  - unfold field_path at 2. rewrite H. rewrite IH.
    + now rewrite !append_assoc.
    + destruct prefix; [ discriminate | reflexivity ].
Qed.

Lemma join_cons sep k r :
  join sep (k :: r)
  = (k ++ fold_right (fun k r => sep ++ k ++ r) EmptyString r)%string.
Proof.
  revert k. induction r as [ | y r IH ]; intros k.
  - simpl. now rewrite append_empty_r.
  - change (join sep (k :: y :: r)) with (k ++ sep ++ join sep (y :: r))%string.
    rewrite IH. reflexivity.
Qed.

Lemma path_of_dot_join ks :
  forallb nonempty ks = true -> path_of EmptyString ks = join "." ks.
Proof.
  destruct ks as [ | k r ]; [ reflexivity | ].
  intros H. simpl in H. apply andb_prop in H. destruct H as [Hk _].
  rewrite join_cons.
  change (path_of EmptyString (k :: r)) with (path_of k r).
  now apply path_of_nonempty.
Qed.

(** C8 (as stated, with the first item of an array sampled as in the shape
    walk): on an array of two differently shaped objects the field paths of
    the validator are not those of the sampling walk. *)
Lemma field_paths_not_sampled :
  extractFieldPaths two_shapes EmptyString = ["items"; "items.a"; "items.b"]
  /\ spec_field_paths two_shapes EmptyString = ["items"; "items.a"].
Proof. split; reflexivity. Qed.

(** C8 (amended): the field paths of a value are exactly the paths of its key
    chains, where an array adds no segment of its own and stands for every one
    of its items (not only the first); the paths are the dot-joined chains
    when the keys are non-empty, they are listed once each, and they include
    the paths the first-item sampling walk finds. *)
Theorem field_paths_are_key_chains :
  forall data : value,
    (forall p, In p (extractFieldPaths data EmptyString)
               <-> exists ks, key_chain data ks /\ p = path_of EmptyString ks)
    /\ (forall ks, forallb nonempty ks = true -> path_of EmptyString ks = join "." ks)
    /\ NoDup (extractFieldPaths data EmptyString)
    /\ incl (spec_field_paths data EmptyString) (extractFieldPaths data EmptyString).
Proof.
  intros data. split; [ | split; [ | split ] ].
  - intros p. apply field_paths_chains.
  - apply path_of_dot_join.
  - apply NoDup_extractFieldPaths.
  - apply spec_paths_included.
Qed.

(** C8 (amended), on an instance: an item after the first contributes its
    paths. *)
Lemma field_paths_are_key_chains_witness :
  In "items.b" (extractFieldPaths two_shapes EmptyString).
Proof.
  apply (proj1 (field_paths_are_key_chains two_shapes)).
  exists ["items"; "b"]. split; [ | reflexivity ].
  eapply chain_field; [ left; reflexivity | ].
  eapply chain_item; [ right; left; reflexivity | ].
  eapply chain_key. left. reflexivity.
Defined.

(** ** The drift validator *)

(** C2: with the artifact generated from
    [{data:{country:{code:"US",name:"United States"}}}] in the mocks directory
    and a live server answering
    [{data:{country:{code:"US",name:"United States",capital:"Washington D.C."}}}]
    without errors, the operation is classified DRIFT, the added fields are
    [["country.capital"]] and the removed fields are [[]]; the two lists of a
    comparison are always in ascending order. *)
Theorem drift_scenario :
  forall null_read_message : string,
    (forall mockData liveData,
       Sorted (fun a b => String.leb a b = true)
         (added (compareSchemas mockData liveData))
       /\ Sorted (fun a b => String.leb a b = true)
            (removed (compareSchemas mockData liveData)))
    /\ getMockData json_parse (country_mocks "GetCountry.mock.ts")
    = VObject [("country",
        VObject [("code", VString "US"); ("name", VString "United States")])]
    /\ compareSchemas
         (VObject [("country",
            VObject [("code", VString "US"); ("name", VString "United States")])])
         (VObject [("country",
            VObject [("code", VString "US"); ("name", VString "United States");
                     ("capital", VString "Washington D.C.")])])
       = mkComparison ["country.capital"] [] ["country"; "country.code"; "country.name"]
    /\ validate_operation json_parse null_read_message country_mocks country_live
         GetCountry
       = (Some (mkResult (VString "GetCountry") DRIFT "Schema drift: 1 added"
                  (Some ["country.capital"]) (Some [])),
          [(VString "GetCountry", query GetCountry)]).
Proof.
  intros msg. split; [ | split; [ | split ]; vm_compute; reflexivity ].
  intros mockData liveData. split; apply js_sort_sorted.
Qed.

Section ValidatorFacts.
Variable JSON_parse : string -> option value.
Variable null_read_message : string.
Variable mock_files : string -> option string.
Variable live : value -> value -> fetch_outcome.

(** stored data is found for a name that prints only *)
Lemma stored_prints op :
  truthy (stored_mock JSON_parse mock_files op) = true ->
  exists printed, to_js_string (operationName op) = Some printed.
Proof.
  unfold stored_mock, read_mock, mock_file_name.
  destruct (to_js_string (operationName op)) as [ printed | ]; [ eauto | ].
  discriminate.
Qed.

Lemma validate_unprintable op :
  to_js_string (operationName op) = None ->
  validate_operation JSON_parse null_read_message mock_files live op = (None, []).
Proof. intros H. unfold validate_operation. now rewrite H. Qed.

Lemma validate_mock_missing op :
  to_js_string (operationName op) <> None ->
  truthy (stored_mock JSON_parse mock_files op) = false ->
  validate_operation JSON_parse null_read_message mock_files live op
  = (Some (mkResult (operationName op) DRIFT
             "Mock file not found or couldn't parse data" None None), []).
Proof.
  intros Hp H. unfold validate_operation.
  destruct (to_js_string (operationName op)); [ | congruence ]. now rewrite H.
Qed.

Lemma validate_live_errors op text :
  truthy (stored_mock JSON_parse mock_files op) = true ->
  truthy (live_errors (live_reply null_read_message live op)) = true ->
  error_message_of (live_errors (live_reply null_read_message live op)) = Some text ->
  validate_operation JSON_parse null_read_message mock_files live op
  = (Some (mkResult (operationName op) ERROR
             ("Live server returned errors: " ++ text) None None),
     [(operationName op, query op)]).
Proof.
  intros Hm He Ht. destruct (stored_prints op Hm) as [printed Hp].
  unfold validate_operation. now rewrite Hp, Hm, He, Ht.
Qed.

Lemma validate_live_throws op :
  truthy (stored_mock JSON_parse mock_files op) = true ->
  truthy (live_errors (live_reply null_read_message live op)) = true ->
  error_message_of (live_errors (live_reply null_read_message live op)) = None ->
  validate_operation JSON_parse null_read_message mock_files live op
  = (None, [(operationName op, query op)]).
Proof.
  intros Hm He Ht. destruct (stored_prints op Hm) as [printed Hp].
  unfold validate_operation. now rewrite Hp, Hm, He, Ht.
Qed.

Lemma validate_removed op :
  truthy (stored_mock JSON_parse mock_files op) = true ->
  truthy (live_errors (live_reply null_read_message live op)) = false ->
  truthy (live_data (live_reply null_read_message live op)) = false ->
  validate_operation JSON_parse null_read_message mock_files live op
  = (Some (mkResult (operationName op) REMOVED
             "Operation may have been removed from API" None None),
     [(operationName op, query op)]).
Proof.
  intros Hm He Hd. destruct (stored_prints op Hm) as [printed Hp].
  unfold validate_operation. now rewrite Hp, Hm, He, Hd.
Qed.

Lemma validate_compared op :
  truthy (stored_mock JSON_parse mock_files op) = true ->
  truthy (live_errors (live_reply null_read_message live op)) = false ->
  truthy (live_data (live_reply null_read_message live op)) = true ->
  validate_operation JSON_parse null_read_message mock_files live op
  = (Some (report_comparison (operationName op)
             (compareSchemas (stored_mock JSON_parse mock_files op)
                (live_data (live_reply null_read_message live op)))),
     [(operationName op, query op)]).
Proof.
  intros Hm He Hd. destruct (stored_prints op Hm) as [printed Hp].
  unfold validate_operation. now rewrite Hp, Hm, He, Hd.
Qed.

(** A result that reports a comparison (status OK, or field lists
    attached) arises in the last branch only. *)
Lemma validate_compared_only op res sent :
  validate_operation JSON_parse null_read_message mock_files live op
  = (Some res, sent) ->
  result_status res = OK \/ result_added res <> None ->
  truthy (stored_mock JSON_parse mock_files op) = true
  /\ truthy (live_errors (live_reply null_read_message live op)) = false
  /\ truthy (live_data (live_reply null_read_message live op)) = true
  /\ res = report_comparison (operationName op)
             (compareSchemas (stored_mock JSON_parse mock_files op)
                (live_data (live_reply null_read_message live op))).
Proof.
  unfold validate_operation.
  destruct (to_js_string (operationName op)); [ | discriminate ].
  destruct (truthy (stored_mock JSON_parse mock_files op)); simpl.
  - destruct (truthy (live_errors (live_reply null_read_message live op))).
    + destruct (error_message_of (live_errors (live_reply null_read_message live op)));
        intros E; inversion E; subst; simpl.
      intros [ H | H ]; [ discriminate | congruence ].
    + destruct (truthy (live_data (live_reply null_read_message live op))); simpl;
        intros E; inversion E; subst; simpl.
      * auto.
      * intros [ H | H ]; [ discriminate | congruence ].
  - intros E; inversion E; subst; simpl.
    intros [ H | H ]; [ discriminate | congruence ].
Qed.

Lemma live_rejected op m :
  live (operationName op) (query op) = FetchRejected m ->
  truthy (live_errors (live_reply null_read_message live op)) = true
  /\ error_message_of (live_errors (live_reply null_read_message live op)) = Some m.
Proof. intros H. unfold live_reply. rewrite H. simpl. split; reflexivity. Qed.

Lemma live_http_failure op st body :
  live (operationName op) (query op) = FetchResponse false st body ->
  truthy (live_errors (live_reply null_read_message live op)) = true
  /\ error_message_of (live_errors (live_reply null_read_message live op))
     = Some ("HTTP " ++ string_of_nat st)%string.
Proof. intros H. unfold live_reply. rewrite H. simpl. split; reflexivity. Qed.

Lemma live_unreadable op st m :
  live (operationName op) (query op) = FetchResponse true st (inl m) ->
  truthy (live_errors (live_reply null_read_message live op)) = true
  /\ error_message_of (live_errors (live_reply null_read_message live op)) = Some m.
Proof. intros H. unfold live_reply. rewrite H. simpl. split; reflexivity. Qed.

Lemma live_null_body op st json :
  live (operationName op) (query op) = FetchResponse true st (inr json) ->
  get_prop json "errors" = None ->
  truthy (live_errors (live_reply null_read_message live op)) = true
  /\ error_message_of (live_errors (live_reply null_read_message live op))
     = Some null_read_message.
Proof.
  intros H He. unfold live_reply. rewrite H. cbn [queryLiveServer negb].
  rewrite He. simpl. split; reflexivity.
Qed.

Lemma live_body op st json errors data :
  live (operationName op) (query op) = FetchResponse true st (inr json) ->
  get_prop json "errors" = Some errors ->
  get_prop json "data" = Some data ->
  live_reply null_read_message live op
  = if truthy errors then mkLive VUndefined errors else mkLive data VUndefined.
Proof.
  intros H He Hd. unfold live_reply. rewrite H. cbn [queryLiveServer negb].
  now rewrite He, Hd.
Qed.

(** the replies that lead to a comparison *)
Lemma live_compared op :
  truthy (live_errors (live_reply null_read_message live op)) = false ->
  truthy (live_data (live_reply null_read_message live op)) = true ->
  exists st json errors,
    live (operationName op) (query op) = FetchResponse true st (inr json)
    /\ get_prop json "errors" = Some errors /\ truthy errors = false
    /\ get_prop json "data"
       = Some (live_data (live_reply null_read_message live op)).
Proof.
  unfold live_reply.
  destruct (live (operationName op) (query op)) as [ m | ok st [ m | json ] ];
    cbn [queryLiveServer]; try discriminate.
  - destruct ok; discriminate.
  - destruct ok; cbn [negb]; [ | discriminate ].
    destruct (get_prop json "errors") as [ errors | ] eqn:He; [ | discriminate ].
    destruct (get_prop json "data") as [ data | ] eqn:Hd; [ | discriminate ].
    destruct (truthy errors) eqn:Ht; cbn [live_errors live_data].
    + rewrite Ht. discriminate.
    + intros _ _. exists st, json, errors. auto.
Qed.
End ValidatorFacts.

(** the text of an [errors] array of objects with string messages *)
Lemma error_message_of_texts (ms : list string) :
  error_message_of (VArray (map (fun m => VObject [("message", VString m)]) ms))
  = Some (join ", " ms).
Proof.
  unfold error_message_of.
  assert (Hm : messages (map (fun m => VObject [("message", VString m)]) ms)
               = Some (map VString ms)).
  { induction ms as [ | m r IH ]; [ reflexivity | ].
    cbn [map messages]. rewrite IH. reflexivity. }
  assert (Hj : join_items (map VString ms) = Some ms).
  { clear Hm. induction ms as [ | m r IH ]; [ reflexivity | ].
    cbn [map join_items join_item to_js_string]. rewrite IH. reflexivity. }
  now rewrite Hm, Hj.
Qed.

(** C7 (as stated): a reply whose [errors] member is an object, not an
    array, and one whose [errors] hold a message that does not print, give
    no ERROR result: the run throws, after the request was sent; and a
    reply that carries the data [0] is reported REMOVED, although a data
    payload is there. *)
Lemma errors_payload_throws :
  validate_operation json_parse "null" country_mocks live_errors_object GetCountry
  = (None, [(VString "GetCountry", query GetCountry)])
  /\ validate_operation json_parse "null" country_mocks live_message_object GetCountry
     = (None, [(VString "GetCountry", query GetCountry)])
  /\ validate_operation json_parse "null" country_mocks live_zero_data GetCountry
     = (Some (mkResult (VString "GetCountry") REMOVED
                "Operation may have been removed from API" None None),
        [(VString "GetCountry", query GetCountry)]).
Proof. repeat split; vm_compute; reflexivity. Qed.

(** C7 (amended): the outcome of one operation follows the precedence
    - no stored mock data (the artifact is missing, holds no [= {], does not
      parse, or has no data): DRIFT with the mock-missing message, and no
      request is sent to the live server;
    - otherwise the request is sent, and a rejected request, an HTTP status
      that is not ok, a body that cannot be read and a [null] body are ERROR
      with the message of the failure; a reply with a truthy [errors]
      member is ERROR with the messages joined by a comma when
      [errors.map(e => e.message).join(", ")] can be computed, and makes
      the run throw when it cannot;
    - otherwise falsy live data ([null], absent, [false], [0], the empty
      text) is REMOVED;
    - otherwise, and only then, the field paths are compared (an empty
      object as live data is compared, not REMOVED). *)
Theorem drift_status_precedence :
  forall (JSON_parse : string -> option value) (null_read_message : string)
         (mock_files : string -> option string)
         (live : value -> value -> fetch_outcome) (op : GraphQLOperation),
    let name := operationName op in
    let mockData := stored_mock JSON_parse mock_files op in
    let fetched := live name (query op) in
    let outcome := validate_operation JSON_parse null_read_message mock_files live op in
    let request := [(name, query op)] in
    let failed text :=
      (Some (mkResult name ERROR ("Live server returned errors: " ++ text) None None),
       request) in
    (to_js_string name <> None -> truthy mockData = false ->
       outcome
       = (Some (mkResult name DRIFT "Mock file not found or couldn't parse data"
                  None None), []))
    /\ (truthy mockData = true -> forall m, fetched = FetchRejected m ->
          outcome = failed m)
    /\ (truthy mockData = true ->
        forall st body, fetched = FetchResponse false st body ->
          outcome = failed ("HTTP " ++ string_of_nat st)%string)
    /\ (truthy mockData = true ->
        forall st m, fetched = FetchResponse true st (inl m) -> outcome = failed m)
    /\ (truthy mockData = true ->
        forall st json, fetched = FetchResponse true st (inr json) ->
          (get_prop json "errors" = None -> outcome = failed null_read_message)
          /\ forall errors data,
               get_prop json "errors" = Some errors ->
               get_prop json "data" = Some data ->
               (truthy errors = true ->
                  forall text, error_message_of errors = Some text ->
                    outcome = failed text)
               /\ (truthy errors = true -> error_message_of errors = None ->
                     outcome = (None, request))
               /\ (truthy errors = false -> truthy data = false ->
                     outcome
                     = (Some (mkResult name REMOVED
                                "Operation may have been removed from API" None None),
                        request))
               /\ (truthy errors = false -> truthy data = true ->
                     outcome
                     = (Some (report_comparison name (compareSchemas mockData data)),
                        request)))
    /\ (forall ms : list string,
          error_message_of (VArray (map (fun m => VObject [("message", VString m)]) ms))
          = Some (join ", " ms))
    /\ (forall res sent, outcome = (Some res, sent) ->
        result_status res = OK \/ result_added res <> None ->
          truthy mockData = true
          /\ exists st json errors data,
               fetched = FetchResponse true st (inr json)
               /\ get_prop json "errors" = Some errors /\ truthy errors = false
               /\ get_prop json "data" = Some data /\ truthy data = true
               /\ res = report_comparison name (compareSchemas mockData data)).
Proof.
  intros JSON_parse msg mock_files live op name mockData fetched outcome request failed.
  split; [ apply validate_mock_missing | ].
  split.
  { intros Hm m Hf.
    destruct (live_rejected msg live op Hf) as [He Ht].
    now apply validate_live_errors. }
  split.
  { intros Hm st body Hf.
    destruct (live_http_failure msg live op Hf) as [He Ht].
    now apply validate_live_errors. }
  split.
  { intros Hm st m Hf.
    destruct (live_unreadable msg live op Hf) as [He Ht].
    now apply validate_live_errors. }
  split.
  { intros Hm st json Hf. split.
    - intros Hn. destruct (live_null_body msg live op Hf Hn) as [He Ht].
      now apply validate_live_errors.
    - intros errors data He Hd.
      pose proof (live_body msg live op Hf He Hd) as Hl.
      repeat split.
      + intros Ht text Hx. rewrite Ht in Hl.
        apply validate_live_errors; try assumption; rewrite Hl; assumption.
      + intros Ht Hx. rewrite Ht in Hl.
        apply validate_live_throws; try assumption; rewrite Hl; assumption.
      + intros Ht Hdata. rewrite Ht in Hl.
        apply validate_removed; try assumption; rewrite Hl; try reflexivity; assumption.
      + intros Ht Hdata. rewrite Ht in Hl. subst outcome.
        rewrite (validate_compared JSON_parse msg mock_files live op Hm);
          rewrite Hl; try reflexivity; assumption. }
  split; [ exact error_message_of_texts | ].
  intros res sent Ho Hs.
  destruct (validate_compared_only JSON_parse msg mock_files live op Ho Hs)
    as (Hm & He & Hd & Hr).
  split; [ exact Hm | ].
  destruct (live_compared msg live op He Hd) as (st & json & errors & Hf & Hje & Hte & Hjd).
  exists st, json, errors, (live_data (live_reply msg live op)).
  repeat split; assumption.
Qed.

(** C7 (amended), on instances: the branches on the operation of the drift
    scenario: no artifact; an unreachable server and an HTTP 500; a reply
    with two GraphQL errors; [data: null]; [data: {}]. *)
Lemma drift_status_precedence_witness :
  validate_operation json_parse "null" no_mocks country_live GetCountry
  = (Some (mkResult (VString "GetCountry") DRIFT
             "Mock file not found or couldn't parse data" None None), [])
  /\ validate_operation json_parse "null" country_mocks live_unreachable GetCountry
     = (Some (mkResult (VString "GetCountry") ERROR
                "Live server returned errors: fetch failed" None None),
        [(VString "GetCountry", query GetCountry)])
  /\ validate_operation json_parse "null" country_mocks live_http_500 GetCountry
     = (Some (mkResult (VString "GetCountry") ERROR
                "Live server returned errors: HTTP 500" None None),
        [(VString "GetCountry", query GetCountry)])
  /\ validate_operation json_parse "null" country_mocks live_graphql_error GetCountry
     = (Some (mkResult (VString "GetCountry") ERROR
                "Live server returned errors: Cannot query field `code`, Unknown type"
                None None),
        [(VString "GetCountry", query GetCountry)])
  /\ validate_operation json_parse "null" country_mocks live_null_data GetCountry
     = (Some (mkResult (VString "GetCountry") REMOVED
                "Operation may have been removed from API" None None),
        [(VString "GetCountry", query GetCountry)])
  /\ validate_operation json_parse "null" country_mocks live_empty_data GetCountry
     = (Some (mkResult (VString "GetCountry") DRIFT "Schema drift: 3 removed"
                (Some []) (Some ["country"; "country.code"; "country.name"])),
        [(VString "GetCountry", query GetCountry)]).
Proof.
  assert (Hm : truthy (stored_mock json_parse country_mocks GetCountry) = true)
    by (vm_compute; reflexivity).
  split; [ | split; [ | split; [ | split; [ | split ] ] ] ].
  - apply (proj1 (drift_status_precedence json_parse "null" no_mocks country_live
                    GetCountry)); [ discriminate | reflexivity ].
  - apply (proj1 (proj2 (drift_status_precedence json_parse "null" country_mocks
                           live_unreachable GetCountry)) Hm).
    reflexivity.
  - apply (proj1 (proj2 (proj2 (drift_status_precedence json_parse "null"
                                  country_mocks live_http_500 GetCountry)))
             Hm 500 (inl "Unexpected end of JSON input")).
    reflexivity.
  - destruct (proj1 (proj2 (proj2 (proj2 (proj2
                (drift_status_precedence json_parse "null" country_mocks
                   live_graphql_error GetCountry))))) Hm 200 _ eq_refl) as [_ H].
    destruct (H _ _ eq_refl eq_refl) as (H1 & _).
    exact (H1 eq_refl _ eq_refl).
  - destruct (proj1 (proj2 (proj2 (proj2 (proj2
                (drift_status_precedence json_parse "null" country_mocks
                   live_null_data GetCountry))))) Hm 200 _ eq_refl) as [_ H].
    destruct (H _ _ eq_refl eq_refl) as (_ & _ & H3 & _).
    exact (H3 eq_refl eq_refl).
  - destruct (proj1 (proj2 (proj2 (proj2 (proj2
                (drift_status_precedence json_parse "null" country_mocks
                   live_empty_data GetCountry))))) Hm 200 _ eq_refl) as [_ H].
    destruct (H _ _ eq_refl eq_refl) as (_ & _ & _ & H4).
    rewrite (H4 eq_refl eq_refl). vm_compute. reflexivity.
Defined.

(** ** The operation extractor *)

Lemma fold_left_flat_map (A B S : Type) (f : S -> B -> S) (g : A -> list B) l :
  forall st,
    fold_left f (flat_map g l) st = fold_left (fun st a => fold_left f (g a) st) l st.
Proof.
  induction l as [ | a r IH ]; intros st; simpl; [ reflexivity | ].
  now rewrite fold_left_app, IH.
Qed.

Lemma get_prop_total v k x k' :
  get_prop v k = Some x -> exists y, get_prop v k' = Some y.
Proof. destruct v; simpl; try discriminate; eauto. Qed.

Section ExtractorFacts.
Variable JSON_parse : string -> option value.

Lemma operations_step_spec st entry :
  operations_step JSON_parse st entry
  = fold_left (keep_unseen same_value_zero operationName)
      (option_list (entry_operation JSON_parse entry)) st.
Proof.
  destruct st as [operations seen].
  unfold operations_step, entry_operation.
  destruct (String.eqb (method entry) "POST"); simpl; [ | reflexivity ].
  destruct (present (postData entry)) as [ text | ]; simpl; [ | reflexivity ].
  destruct (JSON_parse text) as [ parsed | ]; simpl; [ | reflexivity ].
  destruct (get_prop parsed "operationName") as [ explicit | ] eqn:E; simpl;
    [ | reflexivity ].
  destruct (@get_prop_total parsed "operationName" explicit "query" E) as [q Eq].
  rewrite Eq.
  set (name := if truthy explicit then explicit
               else extractOperationName JSON_parse (postData entry)).
  destruct (truthy name), (is_string name INTROSPECTION); simpl; try reflexivity.
  unfold keep_unseen. simpl.
  now destruct (set_has same_value_zero name seen).
Qed.

Lemma fold_operations_step entries : forall st,
  fold_left (operations_step JSON_parse) entries st
  = fold_left (keep_unseen same_value_zero operationName)
      (operations_of JSON_parse entries) st.
Proof.
  intros st. unfold operations_of. rewrite fold_left_flat_map.
  revert st. induction entries as [ | e r IH ]; intros st; simpl; [ reflexivity | ].
  now rewrite operations_step_spec, IH.
Qed.

Lemma extract_first_by entries :
  extractGraphQLOperations JSON_parse (HarLog entries)
  = first_by same_value_zero operationName (operations_of JSON_parse entries).
Proof.
  simpl. rewrite fold_operations_step.
  rewrite (fold_keep_unseen same_value_zero operationName same_value_zero_eq). simpl.
  generalize (first_by same_value_zero operationName (operations_of JSON_parse entries)).
  intros l. induction l as [ | x r IH ]; simpl; congruence.
Qed.

Lemma entry_operation_named entry op :
  entry_operation JSON_parse entry = Some op ->
  truthy (operationName op) && negb (is_string (operationName op) INTROSPECTION)
  = true.
Proof.
  unfold entry_operation.
  destruct (String.eqb (method entry) "POST"); [ | discriminate ].
  destruct (present (postData entry)) as [ text | ]; [ | discriminate ].
  destruct (JSON_parse text) as [ parsed | ]; [ | discriminate ].
  destruct (get_prop parsed "operationName") as [ explicit | ]; [ | discriminate ].
  set (name := if truthy explicit then explicit
               else extractOperationName JSON_parse (postData entry)).
  destruct (truthy name && negb (is_string name INTROSPECTION)) eqn:E;
    [ | discriminate ].
  destruct (get_prop parsed "query"); [ | discriminate ].
  intros H. inversion H. exact E.
Qed.

Lemma operations_of_named entries op :
  In op (operations_of JSON_parse entries) ->
  truthy (operationName op) && negb (is_string (operationName op) INTROSPECTION)
  = true.
Proof.
  unfold operations_of. rewrite in_flat_map. intros (e & _ & H).
  destruct (entry_operation JSON_parse e) as [ op' | ] eqn:E; simpl in H;
    [ | contradiction ].
  destruct H as [ <- | [] ]. eapply entry_operation_named, E.
Qed.

Lemma extractOperationName_explicit text parsed explicit :
  JSON_parse text = Some parsed ->
  get_prop parsed "operationName" = Some explicit ->
  truthy explicit = true ->
  present (Some text) = Some text ->
  extractOperationName JSON_parse (Some text) = explicit.
Proof.
  intros Hp He Ht Hpr. unfold extractOperationName.
  now rewrite Hpr, Hp, He, Ht.
Qed.

Lemma malformed_no_operation entry :
  malformed JSON_parse entry = true -> entry_operation JSON_parse entry = None.
Proof.
  unfold malformed, entry_operation.
  destruct (String.eqb (method entry) "POST"); [ | reflexivity ].
  destruct (present (postData entry)) as [ text | ] eqn:Hpr; [ | reflexivity ].
  destruct (JSON_parse text) as [ parsed | ] eqn:Hp; [ | reflexivity ].
  simpl.
  destruct (get_prop parsed "operationName") as [ explicit | ] eqn:He;
    [ | reflexivity ].
  intros H. apply negb_true_iff in H.
  assert (Hsome : postData entry = Some text).
  { unfold present in Hpr. destruct (postData entry) as [ t | ]; [ | discriminate ].
    destruct (nonempty t); now inversion Hpr. }
  destruct (truthy explicit) eqn:Ht.
  - rewrite Hsome in H, Hpr.
    rewrite (extractOperationName_explicit Hp He Ht Hpr) in H. congruence.
  - now rewrite H.
Qed.

Lemma operations_of_well_formed entries :
  operations_of JSON_parse (filter (fun e => negb (malformed JSON_parse e)) entries)
  = operations_of JSON_parse entries.
Proof.
  unfold operations_of.
  induction entries as [ | e r IH ]; simpl; [ reflexivity | ].
  destruct (malformed JSON_parse e) eqn:E; simpl.
  - now rewrite (malformed_no_operation _ E).
  - now rewrite IH.
Qed.

Lemma length_operations_of entries :
  length (operations_of JSON_parse entries) <= length entries.
Proof.
  unfold operations_of.
  induction entries as [ | e r IH ]; simpl; [ lia | ].
  rewrite length_app. destruct (entry_operation JSON_parse e); simpl; lia.
Qed.
End ExtractorFacts.

(** C9: the operations extracted from a capture are the first occurrences,
    in order, of the operations its entries stand for; no two of them have
    the same name (as keys of the [seen] set), none is nameless or named
    IntrospectionQuery; an entry without a body, with a body that is not
    JSON or that yields no name changes nothing, so the list is at most as
    long as the capture; and a capture of one IntrospectionQuery exchange
    and one GetThing exchange, also with a truncated and a nameless body
    between them, gives exactly [GetThing]. *)
Theorem extractOperations_first_occurrences :
  (forall (JSON_parse : string -> option value) (entries : list HarEntry),
     let ops := extractGraphQLOperations JSON_parse (HarLog entries) in
     ops = first_by same_value_zero operationName (operations_of JSON_parse entries)
     /\ unique_keys same_value_zero (map operationName ops) = true
     /\ forallb (fun op => truthy (operationName op)
                           && negb (is_string (operationName op) INTROSPECTION)) ops
        = true
     /\ ops = extractGraphQLOperations JSON_parse
                (HarLog (filter (fun e => negb (malformed JSON_parse e)) entries))
     /\ length ops <= length entries)
  /\ map operationName
       (extractGraphQLOperations json_parse
          (HarLog [introspection_exchange; getThing_exchange]))
     = [VString "GetThing"]
  /\ map operationName
       (extractGraphQLOperations json_parse
          (HarLog [introspection_exchange; truncated_exchange; nameless_exchange;
                   getThing_exchange; getThing_exchange]))
     = [VString "GetThing"].
Proof.
  split; [ | split; vm_compute; reflexivity ].
  intros JSON_parse entries ops. subst ops.
  rewrite !extract_first_by. repeat split.
  - apply (unique_first_by same_value_zero operationName same_value_zero_eq).
  - apply forallb_forall. intros op Hin.
    apply (operations_of_named JSON_parse entries).
    eapply incl_filter_first_by, Hin.
  - now rewrite operations_of_well_formed.
  - pose proof (length_first_by_le same_value_zero operationName
                  (operations_of JSON_parse entries)).
    pose proof (length_operations_of JSON_parse entries). lia.
Qed.

(** C5 (as stated, for the response map): with no capture on disk
    [extractGraphQLMocks] does not return an empty map, its promise is
    rejected. *)
Lemma extractGraphQLMocks_missing_rejects :
  extractGraphQLMocks json_parse HarMissing = None
  /\ saveGraphQLMocksToFiles json_parse HarMissing (fun _ => EmptyString) = None.
Proof. split; reflexivity. Qed.

(** C5 (amended): with no capture on disk the operation list is empty, and
    so are the runs built on it (the validator reports nothing and sends
    nothing, the merger takes the stored capture as empty); the response map
    is not produced: [extractGraphQLMocks] and the artifact generator
    reject, and [hasSchemaChanged], which catches the rejection, answers
    that the schema changed. *)
Theorem absent_capture :
  forall (JSON_parse : string -> option value) (null_read_message : string)
         (mock_files : string -> option string)
         (live : value -> value -> fetch_outcome)
         (clock : nat -> string) (new : har_file),
    extractGraphQLOperations JSON_parse HarMissing = []
    /\ validateMocks JSON_parse null_read_message mock_files live HarMissing
       = (Some [], [])
    /\ mergeHarFiles JSON_parse HarMissing new
       = mergeHarFiles JSON_parse (HarLog []) new
    /\ extractGraphQLMocks JSON_parse HarMissing = None
    /\ saveGraphQLMocksToFiles JSON_parse HarMissing clock = None
    /\ (forall name, hasSchemaChanged JSON_parse name HarMissing mock_files = true).
Proof.
  intros. repeat split.
Qed.

Section MocksFacts.
Variable JSON_parse : string -> option value.

Lemma mocks_step_spec mocks entry :
  mocks_step JSON_parse mocks entry
  = fold_left (store same_value_zero) (option_list (entry_mock JSON_parse entry))
      mocks.
Proof.
  unfold mocks_step, entry_mock.
  destruct (String.eqb (method entry) "POST"); simpl; [ | reflexivity ].
  set (name := extractOperationName JSON_parse (postData entry)).
  destruct (truthy name), (is_string name INTROSPECTION); simpl; try reflexivity.
  destruct (present (responseText entry)) as [ text | ]; simpl; [ | reflexivity ].
  now destruct (JSON_parse text).
Qed.

Lemma fold_mocks_step entries : forall mocks,
  fold_left (mocks_step JSON_parse) entries mocks
  = fold_left (store same_value_zero) (mocks_of JSON_parse entries) mocks.
Proof.
  intros mocks. unfold mocks_of. rewrite fold_left_flat_map.
  revert mocks. induction entries as [ | e r IH ]; intros mocks; simpl;
    [ reflexivity | ].
  now rewrite mocks_step_spec, IH.
Qed.

Lemma entry_mock_named entry c :
  entry_mock JSON_parse entry = Some c ->
  truthy (fst c) && negb (is_string (fst c) INTROSPECTION) = true.
Proof.
  unfold entry_mock.
  destruct (String.eqb (method entry) "POST"); [ | discriminate ].
  set (name := extractOperationName JSON_parse (postData entry)).
  destruct (truthy name && negb (is_string name INTROSPECTION)) eqn:E;
    [ | discriminate ].
  destruct (present (responseText entry)) as [ text | ]; [ | discriminate ].
  destruct (JSON_parse text); [ | discriminate ].
  intros H. inversion H. exact E.
Qed.

Lemma mocks_of_named entries c :
  In c (mocks_of JSON_parse entries) ->
  truthy (fst c) && negb (is_string (fst c) INTROSPECTION) = true.
Proof.
  unfold mocks_of. rewrite in_flat_map. intros (e & _ & H).
  destruct (entry_mock JSON_parse e) as [ c' | ] eqn:E; simpl in H;
    [ | contradiction ].
  destruct H as [ <- | [] ]. eapply entry_mock_named, E.
Qed.



End MocksFacts.



(** ** The merger *)

Section SetFacts.
Variable K : Type.
Variable keq : K -> K -> bool.
Hypothesis keq_eq : forall a b, keq a b = true -> a = b.

Lemma set_has_set_add k k' s :
  set_has keq k (set_add keq k' s) = set_has keq k s || keq k k'.
Proof.
  unfold set_add. destruct (set_has keq k' s) eqn:E.
  - destruct (keq k k') eqn:Ek; [ | now rewrite orb_false_r ].
    rewrite (set_has_keq keq keq_eq k k' s Ek), E. reflexivity.
  - rewrite set_has_app. simpl. now rewrite orb_false_r.
Qed.

Lemma set_has_fold_add k l : forall s,
  set_has keq k (fold_left (fun s k' => set_add keq k' s) l s)
  = set_has keq k s || set_has keq k l.
Proof.
  induction l as [ | x r IH ]; intros s; simpl.
  - now rewrite orb_false_r.
  - rewrite IH, set_has_set_add. unfold set_has at 3. simpl.
    fold (set_has keq k r). now rewrite orb_assoc.
Qed.

Lemma fold_add_fresh l : forall s,
  unique_keys keq l = true ->
  forallb (fun k => negb (set_has keq k s)) l = true ->
  fold_left (fun s k' => set_add keq k' s) l s = s ++ l.
Proof.
  induction l as [ | x r IH ]; intros s Hu Hf; simpl.
  - now rewrite app_nil_r.
  - simpl in Hu, Hf. apply andb_prop in Hu, Hf.
    destruct Hu as [Hx Hu], Hf as [Hxs Hf].
    apply negb_true_iff in Hx, Hxs.
    unfold set_add at 2. rewrite Hxs.
    rewrite IH; [ now rewrite <- app_assoc | assumption | ].
    apply forallb_forall. intros k Hk.
    rewrite forallb_forall in Hf. specialize (Hf k Hk).
    rewrite set_has_app. simpl. apply negb_true_iff in Hf. rewrite Hf. simpl.
    rewrite orb_false_r. apply negb_true_iff.
    rewrite (keq_sym keq keq_eq).
    destruct (keq x k) eqn:E; [ | reflexivity ].
    assert (set_has keq x r = true) by (apply existsb_exists; eauto).
    congruence.
Qed.

Lemma unique_keys_app l f :
  unique_keys keq f = true ->
  forallb (fun k => negb (set_has keq k l)) f = true ->
  unique_keys keq (l ++ f) = unique_keys keq l.
Proof.
  intros Hu Hf. induction l as [ | x r IH ]; simpl; [ assumption | ].
  rewrite IH.
  - f_equal. rewrite set_has_app.
    replace (set_has keq x f) with false; [ now rewrite orb_false_r | ].
    symmetry. apply not_true_is_false. intros H.
    apply existsb_exists in H. destruct H as (k & Hk & E).
    rewrite forallb_forall in Hf. specialize (Hf k Hk).
    apply negb_true_iff in Hf. unfold set_has in Hf. simpl in Hf.
    rewrite (keq_sym keq keq_eq), E in Hf. discriminate.
  - apply forallb_forall. intros k Hk.
    rewrite forallb_forall in Hf. specialize (Hf k Hk).
    apply negb_true_iff in Hf. unfold set_has in Hf. simpl in Hf.
    apply orb_false_elim in Hf. apply negb_true_iff. apply Hf.
Qed.

Lemma map_get_key (V : Type) k (m : list (K * V)) :
  In k (map fst m) -> keq k k = true -> map_get keq k m <> None.
Proof.
  induction m as [ | [k0 v0] r IH ]; simpl; [ tauto | ].
  intros [ -> | H ] Hk.
  - rewrite Hk. discriminate.
  - destruct (keq k k0); [ discriminate | auto ].
Qed.

Lemma map_get_In (V : Type) k (m : list (K * V)) v :
  map_get keq k m = Some v -> In (k, v) m.
Proof.
  induction m as [ | [k0 v0] r IH ]; simpl; [ discriminate | ].
  destruct (keq k k0) eqn:E.
  - intros H. inversion H. subst. apply keq_eq in E. subst. now left.
  - auto.
Qed.
End SetFacts.

Section MergerFacts.
Variable JSON_parse : string -> option value.


Lemma named_entries_cons e r :
  named_entries JSON_parse (e :: r)
  = option_list (named JSON_parse e) ++ named_entries JSON_parse r.
Proof. reflexivity. Qed.

Lemma newOpMap_step_spec m entry :
  newOpMap_step JSON_parse m entry
  = fold_left (store same_value_zero) (option_list (named JSON_parse entry)) m.
Proof.
  unfold newOpMap_step, named, entry_name.
  destruct (body_operationName JSON_parse entry) as [ n | ]; [ | reflexivity ].
  now destruct (truthy n && negb (is_string n INTROSPECTION)).
Qed.

Lemma build_newOpMap_spec newEntries :
  build_newOpMap JSON_parse newEntries
  = fold_left (store same_value_zero) (named_entries JSON_parse newEntries) [].
Proof.
  unfold build_newOpMap, named_entries. rewrite fold_left_flat_map.
  generalize (@nil (value * HarEntry)).
  induction newEntries as [ | e r IH ]; intros m; simpl; [ reflexivity | ].
  rewrite newOpMap_step_spec, IH. reflexivity.
Qed.

Lemma named_entries_sound newEntries c :
  In c (named_entries JSON_parse newEntries) ->
  entry_name JSON_parse (snd c) = Some (fst c).
Proof.
  unfold named_entries. rewrite in_flat_map. intros (e & _ & H).
  destruct (entry_name JSON_parse e) as [ n | ] eqn:E; simpl in H;
    [ | contradiction ].
  destruct H as [ <- | [] ]. exact E.
Qed.

Lemma latest_In (l : list (value * HarEntry)) c :
  In c l -> In (latest same_value_zero fst l c) l /\ fst (latest same_value_zero fst l c) = fst c.
Proof.
  intros Hin. unfold latest.
  destruct (find (fun y => same_value_zero (fst c) (fst y)) (rev l)) as [ y | ] eqn:E.
  - apply find_some in E. destruct E as [Hy E].
    apply in_rev in Hy. apply same_value_zero_eq in E. auto.
  - auto.
Qed.

(** every pair of the map files an entry under its own name *)
Lemma newOpMap_sound newEntries c :
  In c (build_newOpMap JSON_parse newEntries) ->
  entry_name JSON_parse (snd c) = Some (fst c).
Proof.
  rewrite build_newOpMap_spec, (fold_store_first_latest same_value_zero same_value_zero_eq).
  rewrite in_map_iff. intros (d & <- & Hd). simpl.
  apply incl_filter_first_by in Hd.
  destruct (latest_In _ _ Hd) as [Hin Hk].
  rewrite <- Hk. now apply named_entries_sound with newEntries.
Qed.

Lemma entry_name_body e n :
  entry_name JSON_parse e = Some n ->
  body_operationName JSON_parse e = Some n
  /\ truthy n && negb (is_string n INTROSPECTION) = true.
Proof.
  unfold entry_name.
  destruct (body_operationName JSON_parse e) as [ k | ]; [ | discriminate ].
  destruct (truthy k && negb (is_string k INTROSPECTION)) eqn:E; [ | discriminate ].
  intros H. inversion H. subst. auto.
Qed.

Lemma body_entry_name e n :
  body_operationName JSON_parse e = Some n ->
  truthy n && negb (is_string n INTROSPECTION) = true ->
  entry_name JSON_parse e = Some n.
Proof. intros Hb Hu. unfold entry_name. now rewrite Hb, Hu. Qed.

Lemma fold_keep_or_replace M existing : forall finalEntries processedOps,
  fold_left (keep_or_replace JSON_parse M) existing (finalEntries, processedOps)
  = (finalEntries ++ map (replace_or_keep JSON_parse M) existing,
     fold_left (fun s k => set_add same_value_zero k s) (matched_names JSON_parse M existing)
       processedOps).
Proof.
  induction existing as [ | e r IH ]; intros fin proc; simpl.
  - now rewrite app_nil_r.
  - unfold replace_or_keep at 1.
    destruct (body_operationName JSON_parse e) as [ k | ]; simpl.
    + destruct (map_get same_value_zero k M) as [ e' | ]; simpl;
        rewrite IH, <- app_assoc; reflexivity.
    + rewrite IH, <- app_assoc. reflexivity.
Qed.

(** a name of the map is processed exactly when an existing entry carries it *)
Lemma processed_names newEntries existing k :
  In k (map fst (build_newOpMap JSON_parse newEntries)) ->
  set_has same_value_zero k (matched_names JSON_parse (build_newOpMap JSON_parse newEntries) existing)
  = set_has same_value_zero k (entry_names JSON_parse existing).
Proof.
  intros Hk. set (M := build_newOpMap JSON_parse newEntries) in *.
  assert (Husable : truthy k && negb (is_string k INTROSPECTION) = true).
  { apply in_map_iff in Hk. destruct Hk as (c & <- & Hc).
    apply newOpMap_sound in Hc. now apply entry_name_body in Hc. }
  unfold matched_names, entry_names, named_entries.
  induction existing as [ | e r IH ]; simpl; [ reflexivity | ].
  rewrite map_app, !set_has_app, IH. f_equal.
  unfold entry_name.
  destruct (body_operationName JSON_parse e) as [ n | ]; simpl; [ | reflexivity ].
  destruct (same_value_zero k n) eqn:E.
  - pose proof (same_value_zero_eq _ _ E). subst n. rewrite Husable. simpl.
    destruct (map_get same_value_zero k M) eqn:G; simpl.
    + unfold set_has. simpl. now rewrite E.
    + exfalso. now apply (map_get_key same_value_zero k M Hk E).
  - destruct (map_get same_value_zero n M), (truthy n && negb (is_string n INTROSPECTION));
      unfold set_has; simpl; rewrite ?E; reflexivity.
Qed.

(** The merge in one equation: the existing entries, each kept or replaced,
    then the entries of the map whose name no existing entry carries. *)
Lemma merge_entries_spec existing newEntries :
  merge_entries JSON_parse existing newEntries
  = map (replace_or_keep JSON_parse (build_newOpMap JSON_parse newEntries)) existing
    ++ map snd
         (filter (fun c => is_brand_new JSON_parse existing (fst c))
            (build_newOpMap JSON_parse newEntries)).
Proof.
  unfold merge_entries. rewrite fold_keep_or_replace. simpl. f_equal.
  unfold truly_new. f_equal. apply filter_ext_in. intros c Hc.
  unfold is_brand_new. f_equal.
  rewrite (set_has_fold_add same_value_zero same_value_zero_eq). simpl.
  apply processed_names. now apply in_map.
Qed.

Lemma replace_or_keep_replacement newEntries e :
  replace_or_keep JSON_parse (build_newOpMap JSON_parse newEntries) e
  = replacement JSON_parse newEntries e.
Proof.
  unfold replace_or_keep, replacement.
  destruct (body_operationName JSON_parse e) as [ k | ]; [ | reflexivity ].
  rewrite build_newOpMap_spec, (map_get_fold_store same_value_zero same_value_zero_eq). simpl.
  now destruct (last_with same_value_zero fst (named_entries JSON_parse newEntries) k).
Qed.

Lemma entry_name_replace_or_keep newEntries e :
  entry_name JSON_parse
    (replace_or_keep JSON_parse (build_newOpMap JSON_parse newEntries) e)
  = entry_name JSON_parse e.
Proof.
  unfold replace_or_keep.
  destruct (body_operationName JSON_parse e) as [ k | ] eqn:Hb; [ | reflexivity ].
  destruct (map_get same_value_zero k (build_newOpMap JSON_parse newEntries)) as [ e' | ] eqn:G;
    [ | reflexivity ].
  apply (map_get_In same_value_zero same_value_zero_eq) in G. apply newOpMap_sound in G. simpl in G.
  rewrite G. symmetry. apply body_entry_name; [ assumption | ].
  now apply entry_name_body in G.
Qed.

Lemma entry_names_app l l' :
  entry_names JSON_parse (l ++ l') = entry_names JSON_parse l ++ entry_names JSON_parse l'.
Proof.
  unfold entry_names, named_entries. now rewrite flat_map_app, map_app.
Qed.

Lemma entry_names_map_ext (f : HarEntry -> HarEntry) l :
  (forall e, entry_name JSON_parse (f e) = entry_name JSON_parse e) ->
  entry_names JSON_parse (map f l) = entry_names JSON_parse l.
Proof.
  intros H. unfold entry_names, named_entries.
  induction l as [ | e r IH ]; simpl; [ reflexivity | ].
  rewrite !map_app, IH, H. f_equal.
  now destruct (entry_name JSON_parse e).
Qed.

Lemma entry_names_sound (m : list (value * HarEntry)) :
  (forall c, In c m -> entry_name JSON_parse (snd c) = Some (fst c)) ->
  entry_names JSON_parse (map snd m) = map fst m.
Proof.
  unfold entry_names, named_entries.
  induction m as [ | c r IH ]; intros H; simpl; [ reflexivity | ].
  rewrite map_app, IH by (intros; apply H; now right).
  rewrite (H c) by now left. reflexivity.
Qed.

Lemma keys_newOpMap newEntries :
  map fst (build_newOpMap JSON_parse newEntries)
  = map fst (first_by same_value_zero fst (named_entries JSON_parse newEntries)).
Proof. rewrite build_newOpMap_spec. apply (keys_fold_store same_value_zero same_value_zero_eq). Qed.

Lemma filter_map_fst (V : Type) (P : value -> bool) (m : list (value * V)) :
  map fst (filter (fun c => P (fst c)) m) = filter P (map fst m).
Proof.
  induction m as [ | c r IH ]; simpl; [ reflexivity | ].
  destruct (P (fst c)); simpl; now rewrite IH.
Qed.

Lemma merged_names existing newEntries :
  entry_names JSON_parse (merge_entries JSON_parse existing newEntries)
  = entry_names JSON_parse existing ++ brand_new JSON_parse existing newEntries.
Proof.
  rewrite merge_entries_spec, entry_names_app. f_equal.
  - apply entry_names_map_ext. intros e. apply entry_name_replace_or_keep.
  - rewrite entry_names_sound.
    + rewrite filter_map_fst, keys_newOpMap. reflexivity.
    + intros c Hc. apply filter_In in Hc. eapply newOpMap_sound, Hc.
Qed.

Lemma brand_new_unique existing newEntries :
  unique_keys same_value_zero (brand_new JSON_parse existing newEntries) = true.
Proof.
  unfold brand_new. rewrite <- filter_map_fst.
  apply (unique_keys_filter same_value_zero fst).
  apply (unique_first_by same_value_zero fst same_value_zero_eq).
Qed.

Lemma brand_new_fresh existing newEntries :
  forallb (fun k => negb (set_has same_value_zero k (entry_names JSON_parse existing)))
    (brand_new JSON_parse existing newEntries) = true.
Proof.
  apply forallb_forall. intros k Hk. unfold brand_new in Hk.
  apply filter_In in Hk. apply Hk.
Qed.
End MergerFacts.

Lemma filter_map_comm (A B : Type) (P : B -> bool) (g : A -> B) l :
  filter P (map g l) = map g (filter (fun a => P (g a)) l).
Proof.
  induction l as [ | a r IH ]; simpl; [ reflexivity | ].
  destruct (P (g a)); simpl; now rewrite IH.
Qed.

Lemma mergeHarFiles_entries JSON_parse existingEntries newEntries :
  mergeHarFiles JSON_parse (HarLog existingEntries) (HarLog newEntries) = NoNewOperations
  \/ exists newOps updatedOps,
       mergeHarFiles JSON_parse (HarLog existingEntries) (HarLog newEntries)
       = Merged (merge_entries JSON_parse existingEntries newEntries) newOps updatedOps.
Proof.
  unfold mergeHarFiles.
  destruct (length _ =? 0); [ now left | right; eauto ].
Qed.

(** C1 (as stated): when the new capture holds GetThing twice, the lookup
    holds the second exchange, not the first one; it is the second exchange
    that replaces the stored GetThing, and that is appended when the stored
    capture has no GetThing. *)
Lemma merge_lookup_not_first :
  build_newOpMap json_parse [getThing_exchange; getThing_retry]
  = [(VString "GetThing", getThing_retry)]
  /\ spec_newOpMap json_parse [getThing_exchange; getThing_retry]
     = [(VString "GetThing", getThing_exchange)]
  /\ mergeHarFiles json_parse (HarLog [getThing_stored])
       (HarLog [getThing_exchange; getThing_retry])
     = Merged [getThing_retry] [] [VString "GetThing"]
  /\ mergeHarFiles json_parse (HarLog [getOther_exchange])
       (HarLog [getThing_exchange; getThing_retry])
     = Merged [getOther_exchange; getThing_retry] [VString "GetThing"] []
  /\ getThing_exchange <> getThing_retry.
Proof.
  split; [ | split; [ | split; [ | split ] ] ]; try (vm_compute; reflexivity).
  discriminate.
Qed.

(** C1 (amended): the lookup built from the new capture holds every name once,
    in the order of first occurrence, with the last exchange of the new
    capture filed under that name; so [newOpMap.get] answers with the last
    occurrence, an existing entry whose name is in the lookup is replaced by
    that last occurrence, and for a brand-new name it is the last occurrence
    that is appended. *)
Theorem merge_last_occurrence :
  forall (JSON_parse : string -> option value)
         (existingEntries newEntries : list HarEntry),
    let filed := named_entries JSON_parse newEntries in
    let newOpMap := build_newOpMap JSON_parse newEntries in
    newOpMap
    = map (fun c => (fst c, snd (latest same_value_zero fst filed c)))
        (first_by same_value_zero fst filed)
    /\ (forall name,
          map_get same_value_zero name newOpMap
          = option_map snd (last_with same_value_zero fst filed name))
    /\ merge_entries JSON_parse existingEntries newEntries
       = map (replacement JSON_parse newEntries) existingEntries
         ++ map (fun c => snd (latest same_value_zero fst filed c))
              (filter (fun c => is_brand_new JSON_parse existingEntries (fst c))
                 (first_by same_value_zero fst filed))
    /\ (mergeHarFiles JSON_parse (HarLog existingEntries) (HarLog newEntries)
        = NoNewOperations
        \/ exists newOps updatedOps,
             mergeHarFiles JSON_parse (HarLog existingEntries) (HarLog newEntries)
             = Merged (merge_entries JSON_parse existingEntries newEntries)
                 newOps updatedOps).
Proof.
  intros JSON_parse existing newEntries filed newOpMap.
  assert (E : newOpMap
              = map (fun c => (fst c, snd (latest same_value_zero fst filed c)))
                  (first_by same_value_zero fst filed)).
  { subst newOpMap filed. rewrite build_newOpMap_spec.
    apply (fold_store_first_latest same_value_zero same_value_zero_eq). }
  split; [ exact E | ]. split; [ | split ].
  - intros name. subst newOpMap filed. rewrite build_newOpMap_spec.
    rewrite (map_get_fold_store same_value_zero same_value_zero_eq). simpl.
    now destruct (last_with same_value_zero fst
                    (named_entries JSON_parse newEntries) name).
  - rewrite merge_entries_spec. fold newOpMap. f_equal.
    + apply map_ext. intros e. apply replace_or_keep_replacement.
    + rewrite E, filter_map_comm, map_map. reflexivity.
  - apply mergeHarFiles_entries.
Qed.

(** C6 (as stated): a stored capture that holds GetThing twice, merged with a
    new capture of GetThing, holds the new exchange twice: the merged output
    repeats an operation name. *)
Lemma merge_repeats_a_name :
  mergeHarFiles json_parse (HarLog [getThing_stored; getThing_stored_again])
    (HarLog [getThing_retry])
  = Merged [getThing_retry; getThing_retry] [] [VString "GetThing"]
  /\ entry_names json_parse [getThing_retry; getThing_retry]
     = [VString "GetThing"; VString "GetThing"]
  /\ unique_keys same_value_zero
       (entry_names json_parse
          (merge_entries json_parse [getThing_stored; getThing_stored_again]
             [getThing_retry]))
     = false.
Proof. repeat split; vm_compute; reflexivity. Qed.

(** C6 (amended): with the names read as the merger reads them (the
    [operationName] field of a body that parses, IntrospectionQuery apart)
    and [N] the brand-new names of the new capture, the merged capture has
    the existing number of exchanges plus [N]; its names are the existing
    names followed by the brand-new ones; it repeats a name exactly when the
    existing capture does; and it has [E + N] distinct names when the
    existing capture has [E]. *)
Theorem merge_cardinality :
  forall (JSON_parse : string -> option value)
         (existingEntries newEntries : list HarEntry),
    let merged := merge_entries JSON_parse existingEntries newEntries in
    let fresh := brand_new JSON_parse existingEntries newEntries in
    length merged = length existingEntries + length fresh
    /\ entry_names JSON_parse merged
       = entry_names JSON_parse existingEntries ++ fresh
    /\ unique_keys same_value_zero (entry_names JSON_parse merged)
       = unique_keys same_value_zero (entry_names JSON_parse existingEntries)
    /\ distinct same_value_zero (entry_names JSON_parse merged)
       = distinct same_value_zero (entry_names JSON_parse existingEntries)
         + length fresh
    /\ (mergeHarFiles JSON_parse (HarLog existingEntries) (HarLog newEntries)
        = NoNewOperations
        \/ exists newOps updatedOps,
             mergeHarFiles JSON_parse (HarLog existingEntries) (HarLog newEntries)
             = Merged merged newOps updatedOps).
Proof.
  intros JSON_parse existing newEntries merged fresh.
  assert (Hn : entry_names JSON_parse merged
               = entry_names JSON_parse existing ++ fresh)
    by apply merged_names.
  split; [ | split; [ exact Hn | split; [ | split ] ] ];
    [ | | | apply mergeHarFiles_entries ].
  - subst merged fresh. rewrite merge_entries_spec, length_app, !length_map.
    f_equal. unfold brand_new.
    rewrite <- keys_newOpMap, <- filter_map_fst, length_map. reflexivity.
  - rewrite Hn.
    apply (unique_keys_app same_value_zero same_value_zero_eq).
    + apply brand_new_unique.
    + apply brand_new_fresh.
  - rewrite Hn. unfold distinct. rewrite fold_left_app.
    rewrite (fold_add_fresh same_value_zero same_value_zero_eq).
    + apply length_app.
    + apply brand_new_unique.
    + apply forallb_forall. intros k Hk.
      rewrite (set_has_fold_add same_value_zero same_value_zero_eq). simpl.
      pose proof (brand_new_fresh JSON_parse existing newEntries) as Hf.
      rewrite forallb_forall in Hf. apply (Hf k Hk).
Qed.

(** ** The registry *)

Lemma length_append (a b : string) :
  String.length (a ++ b) = String.length a + String.length b.
Proof. induction a as [ | c a IH ]; simpl; congruence. Qed.

Lemma substring_all (s : string) : substring 0 (String.length s) s = s.
Proof. induction s as [ | c s IH ]; simpl; congruence. Qed.

Lemma substring_zero n (s : string) : substring n 0 s = EmptyString.
Proof.
  revert n. induction s as [ | c s IH ]; intros [ | n ]; simpl; auto.
Qed.

Lemma substring_head (a b : string) : substring 0 (String.length a) (a ++ b) = a.
Proof.
  induction a as [ | c a IH ]; simpl.
  - apply (substring_zero 0).
  - now rewrite IH.
Qed.

Lemma substring_tail (a b : string) :
  substring (String.length a) (String.length b) (a ++ b) = b.
Proof.
  induction a as [ | c a IH ]; simpl; [ apply substring_all | exact IH ].
Qed.

Lemma substring_split n m : forall s : string,
  n + m = String.length s -> (substring 0 n s ++ substring n m s)%string = s.
Proof.
  induction n as [ | n IH ]; intros s H; simpl in *.
  - subst m. rewrite (substring_zero 0). simpl. apply substring_all.
  - destruct s as [ | c s ]; simpl in *; [ discriminate | ].
    rewrite IH by lia. reflexivity.
Qed.

Lemma endsWith_iff (s p : string) :
  endsWith s p = true <-> exists x, s = (x ++ p)%string.
Proof.
  unfold endsWith. rewrite andb_true_iff, Nat.leb_le, String.eqb_eq. split.
  - intros [Hl He].
    exists (substring 0 (String.length s - String.length p) s).
    assert (Hs := substring_split (String.length s - String.length p)
                    (String.length p) s).
    rewrite He in Hs. symmetry. apply Hs. lia.
  - intros (x & ->). rewrite length_append. split; [ lia | ].
    replace (String.length x + String.length p - String.length p)
      with (String.length x) by lia.
    apply substring_tail.
Qed.

Lemma append_inj_r (a b p : string) : (a ++ p = b ++ p)%string -> a = b.
Proof.
  revert b. induction a as [ | c a IH ]; intros [ | d b ] H; simpl in H.
  - reflexivity.
  - exfalso. apply (f_equal String.length) in H. simpl in H.
    rewrite length_append in H. lia.
  - exfalso. apply (f_equal String.length) in H. simpl in H.
    rewrite length_append in H. lia.
  - inversion H. f_equal. now apply IH.
Qed.

Lemma base_name_append (x : string) : base_name (x ++ MOCK_SUFFIX) = x.
Proof.
  unfold base_name. rewrite length_append.
  replace (String.length x + String.length MOCK_SUFFIX - String.length MOCK_SUFFIX)
    with (String.length x) by lia.
  apply substring_head.
Qed.

Lemma index_from_dot_free (x : string) : forall i,
  dot_free x = true ->
  index_from i MOCK_SUFFIX (x ++ MOCK_SUFFIX) = Some (i + String.length x).
Proof.
  induction x as [ | c x IH ]; intros i H.
  - simpl. f_equal. lia.
  - simpl in H. apply andb_prop in H. destruct H as [Hc Hx].
    apply negb_true_iff in Hc.
    change (index_from i MOCK_SUFFIX (String c x ++ MOCK_SUFFIX))
      with (match drop_prefix MOCK_SUFFIX (String c (x ++ MOCK_SUFFIX)) with
            | Some _ => Some i
            | None => index_from (S i) MOCK_SUFFIX (x ++ MOCK_SUFFIX)
            end).
    assert (E : drop_prefix MOCK_SUFFIX (String c (x ++ MOCK_SUFFIX)) = None).
    { change (drop_prefix MOCK_SUFFIX (String c (x ++ MOCK_SUFFIX)))
        with (if Ascii.eqb "."%char c
              then drop_prefix "mock.ts" (x ++ MOCK_SUFFIX)%string else None).
      now rewrite Ascii.eqb_sym, Hc. }
    rewrite E, (IH (S i) Hx). simpl. f_equal. lia.
Qed.

(** The key the registry derives from an artifact is the operation name the
    artifact was written for, when that name has no dot. *)
Lemma replace_first_suffix (x : string) :
  dot_free x = true ->
  replace_first MOCK_SUFFIX EmptyString (x ++ MOCK_SUFFIX) = x.
Proof.
  intros H. unfold replace_first, indexOf.
  rewrite (index_from_dot_free x 0 H).
  change (0 + String.length x) with (String.length x). cbv beta iota.
  rewrite substring_head, length_append.
  replace (String.length x + String.length MOCK_SUFFIX
           - (String.length x + String.length MOCK_SUFFIX)) with 0 by lia.
  rewrite substring_zero. simpl. apply append_empty_r.
Qed.

Lemma all_word_dot_free (s : string) : all_word s = true -> dot_free s = true.
Proof.
  induction s as [ | c s IH ]; simpl; [ reflexivity | ].
  intros H. apply andb_prop in H. destruct H as [Hc Hs].
  rewrite (IH Hs), andb_true_r. apply negb_true_iff.
  destruct (Ascii.eqb c "."%char) eqn:E; [ | reflexivity ].
  apply Ascii.eqb_eq in E. subst c. discriminate.
Qed.

Lemma is_mock_file_endsWith f : is_mock_file f = endsWith f MOCK_SUFFIX.
Proof.
  unfold is_mock_file.
  destruct (String.eqb f "mock-registry.ts") eqn:E; [ | apply andb_true_r ].
  apply String.eqb_eq in E. subst f. reflexivity.
Qed.

Lemma In_listMocks (r : registry) name : In name (listMocks r) <-> In name (map fst r).
Proof.
  unfold listMocks, GRAPHQL_MOCKS.
  change (fun (m : list (string * string)) (e : string * string) =>
            map_set String.eqb (fst e) (snd e) m) with (@store string string String.eqb).
  assert (Heq : forall a b, String.eqb a b = true -> a = b)
    by (intros a b; apply String.eqb_eq).
  rewrite (keys_fold_store String.eqb Heq).
  rewrite <- !set_has_In. now rewrite (set_has_first_by String.eqb fst Heq).
Qed.

Lemma listMocks_unique (r : registry) : unique_keys String.eqb (listMocks r) = true.
Proof.
  unfold listMocks, GRAPHQL_MOCKS.
  change (fun (m : list (string * string)) (e : string * string) =>
            map_set String.eqb (fst e) (snd e) m) with (@store string string String.eqb).
  assert (Heq : forall a b, String.eqb a b = true -> a = b)
    by (intros a b; apply String.eqb_eq).
  rewrite (keys_fold_store String.eqb Heq).
  apply (unique_first_by String.eqb fst Heq).
Qed.

Lemma updateMockRegistry_none files current :
  existsb is_mock_file files = false -> updateMockRegistry files current = current.
Proof.
  intros H. unfold updateMockRegistry.
  replace (filter is_mock_file files) with (@nil string); [ reflexivity | ].
  symmetry. induction files as [ | f r IH ]; simpl in *; [ reflexivity | ].
  apply orb_false_elim in H. destruct H as [H1 H2]. rewrite H1. auto.
Qed.

Lemma updateMockRegistry_some files current :
  existsb is_mock_file files = true ->
  updateMockRegistry files current
  = map registry_entry (js_sort (filter is_mock_file files)).
Proof.
  intros H. unfold updateMockRegistry.
  rewrite length_js_sort.
  apply existsb_exists in H. destruct H as (f & Hin & Hf).
  assert (Hl : In f (filter is_mock_file files)) by (apply filter_In; auto).
  destruct (filter is_mock_file files); [ contradiction | reflexivity ].
Qed.

Lemma registry_key_iff files name :
  forallb well_named files = true ->
  In name (map fst (map registry_entry (js_sort (filter is_mock_file files))))
  <-> In (name ++ MOCK_SUFFIX)%string files.
Proof.
  intros Hw. rewrite forallb_forall in Hw.
  rewrite map_map, in_map_iff. simpl. split.
  - intros (f & <- & Hin). apply In_js_sort, filter_In in Hin.
    destruct Hin as [Hin Hm]. rewrite is_mock_file_endsWith in Hm.
    specialize (Hw f Hin). unfold well_named in Hw. rewrite Hm in Hw.
    apply endsWith_iff in Hm. destruct Hm as (x & ->).
    rewrite base_name_append in Hw. apply all_word_dot_free in Hw.
    now rewrite replace_first_suffix.
  - intros Hin. exists (name ++ MOCK_SUFFIX)%string.
    assert (Hm : endsWith (name ++ MOCK_SUFFIX) MOCK_SUFFIX = true)
      by (apply endsWith_iff; eauto).
    specialize (Hw _ Hin). unfold well_named in Hw.
    rewrite Hm, base_name_append in Hw. apply all_word_dot_free in Hw. split.
    + now apply replace_first_suffix.
    + apply In_js_sort, filter_In. split; [ assumption | ].
      now rewrite is_mock_file_endsWith.
Qed.

Lemma hasMockForOperation_In name files :
  hasMockForOperation (VString name) files = Some true
  <-> In (name ++ MOCK_SUFFIX)%string files.
Proof.
  unfold hasMockForOperation, mock_file_name. simpl.
  rewrite <- (set_has_In (name ++ MOCK_SUFFIX) files). unfold set_has, MOCK_SUFFIX.
  split; [ intros H; now apply some_inj in H | intros ->; reflexivity ].
Qed.

(** C10 (as stated, in the case without artifacts): after a rebuild in a
    directory that holds no artifact, the registry left by an earlier run is
    still there: it lists GetCountry, for which no artifact exists. *)
Lemma registry_not_emptied :
  updateMockRegistry helpers_only stale_registry = stale_registry
  /\ listMocks (updateMockRegistry helpers_only stale_registry) = ["GetCountry"]
  /\ hasMockForOperation (VString "GetCountry") helpers_only = Some false.
Proof. repeat split. Qed.

(** C10 (amended): when the directory holds at least one artifact (of
    operations whose names are made of word characters), the keys of the
    rebuilt registry are exactly the operation names that have an artifact,
    each once; when it holds none, the rebuild writes nothing and the
    registry module stays as it was. *)
Theorem registry_keys_are_artifacts :
  forall (files : list string) (current : registry),
    (existsb is_mock_file files = false ->
       updateMockRegistry files current = current)
    /\ (existsb is_mock_file files = true ->
        forallb well_named files = true ->
        forall name : string,
          In name (listMocks (updateMockRegistry files current))
          <-> hasMockForOperation (VString name) files = Some true)
    /\ unique_keys String.eqb (listMocks (updateMockRegistry files current)) = true.
Proof.
  intros files current. split; [ | split ].
  - apply updateMockRegistry_none.
  - intros He Hw name.
    rewrite (updateMockRegistry_some files current He).
    rewrite In_listMocks, hasMockForOperation_In.
    now apply registry_key_iff.
  - apply listMocks_unique.
Qed.

(** C10 (amended), on an instance: two artifacts beside two helper files;
    the stale registry is replaced and lists the two operations. *)
Lemma registry_keys_are_artifacts_witness :
  In "GetContinent" (listMocks (updateMockRegistry two_artifacts stale_registry))
  /\ listMocks (updateMockRegistry two_artifacts stale_registry)
     = ["GetContinent"; "GetCountry"].
Proof.
  split; [ | reflexivity ].
  apply (proj1 (proj2 (registry_keys_are_artifacts two_artifacts stale_registry))
           eq_refl eq_refl "GetContinent").
  reflexivity.
Defined.

(** * Further properties of the scripts *)

(** ** The field comparison *)

Lemma sort_insert_permutation x l : Permutation (sort_insert x l) (x :: l).
Proof.
  induction l as [ | y r IH ]; simpl; [ apply Permutation_refl | ].
  destruct (String.leb x y); [ apply Permutation_refl | ].
  eapply perm_trans; [ apply perm_skip, IH | apply perm_swap ].
Qed.

Lemma js_sort_permutation l : Permutation (js_sort l) l.
Proof.
  induction l as [ | x r IH ]; simpl; [ constructor | ].
  eapply perm_trans; [ apply sort_insert_permutation | now apply perm_skip ].
Qed.

Lemma filter_split (A : Type) (f : A -> bool) l :
  Permutation (filter (fun x => negb (f x)) l ++ filter f l) l.
Proof.
  induction l as [ | x r IH ]; simpl; [ constructor | ].
  destruct (f x); simpl.
  - apply Permutation_sym. eapply perm_trans; [ | apply Permutation_middle ].
    apply perm_skip. now apply Permutation_sym.
  - now apply perm_skip.
Qed.

Lemma NoDup_filter_any (A : Type) (f : A -> bool) l : NoDup l -> NoDup (filter f l).
Proof.
  induction 1 as [ | x r Hx Hr IH ]; simpl; [ constructor | ].
  destruct (f x); [ | assumption ].
  constructor; [ | assumption ].
  intros H. apply filter_In in H. tauto.
Qed.

(** the fields two path sets share, read from either side *)
Lemma common_fields (a b : list string) :
  NoDup a -> NoDup b ->
  Permutation (filter (fun f => set_has String.eqb f a) b)
              (filter (fun f => set_has String.eqb f b) a).
Proof.
  intros Ha Hb. apply NoDup_Permutation; try now apply NoDup_filter_any.
  intros p. rewrite !filter_In, !set_has_In. tauto.
Qed.

Lemma js_sort_nil l : js_sort l = [] <-> l = [].
Proof.
  split; [ | intros ->; reflexivity ].
  intros H. apply (f_equal (@length string)) in H.
  rewrite length_js_sort in H. now destruct l.
Qed.

Lemma filter_nil (A : Type) (f : A -> bool) l :
  filter f l = [] <-> forall x, In x l -> f x = false.
Proof.
  induction l as [ | y r IH ]; simpl.
  - split; [ intros _ x [] | reflexivity ].
  - destruct (f y) eqn:E.
    + split; [ discriminate | ]. intros H. rewrite (H y) in E by now left. discriminate.
    + rewrite IH. split.
      * intros H x [ <- | Hx ]; auto.
      * intros H x Hx. apply H. now right.
Qed.

(** X1: a comparison sorts every live path into [added] or [unchanged] and
    every stored path into [removed] or [unchanged]: the three lists hold
    no path twice, [added] holds no stored path, [removed] no live path,
    and swapping the two sides exchanges [added] with [removed] and leaves
    [unchanged] as it is. *)
Theorem compareSchemas_partition :
  forall mockData liveData : value,
    let c := compareSchemas mockData liveData in
    Permutation (added c ++ unchanged c) (extractFieldPaths liveData EmptyString)
    /\ Permutation (removed c ++ unchanged c) (extractFieldPaths mockData EmptyString)
    /\ NoDup (added c ++ removed c ++ unchanged c)
    /\ (forall p, In p (added c) -> ~ In p (extractFieldPaths mockData EmptyString))
    /\ (forall p, In p (removed c) -> ~ In p (extractFieldPaths liveData EmptyString))
    /\ compareSchemas liveData mockData = mkComparison (removed c) (added c) (unchanged c).
Proof.
  intros mockData liveData c. subst c. unfold compareSchemas. simpl.
  set (m := extractFieldPaths mockData EmptyString).
  set (l := extractFieldPaths liveData EmptyString).
  assert (Hm : NoDup m) by apply NoDup_extractFieldPaths.
  assert (Hl : NoDup l) by apply NoDup_extractFieldPaths.
  assert (Hu : js_sort (filter (fun f => set_has String.eqb f m) l)
               = js_sort (filter (fun f => set_has String.eqb f l) m))
    by (apply js_sort_perm, common_fields; assumption).
  split; [ | split; [ | split; [ | split; [ | split ] ] ] ].
  - eapply perm_trans; [ | apply (filter_split (fun f => set_has String.eqb f m) l) ].
    apply Permutation_app; apply js_sort_permutation.
  - rewrite Hu.
    eapply perm_trans; [ | apply (filter_split (fun f => set_has String.eqb f l) m) ].
    apply Permutation_app; apply js_sort_permutation.
  - eapply Permutation_NoDup.
    { apply Permutation_sym. apply Permutation_app; [ apply js_sort_permutation | ].
      apply Permutation_app; apply js_sort_permutation. }
    apply NoDup_app; [ now apply NoDup_filter_any | | ].
    + apply NoDup_app; try now apply NoDup_filter_any.
      intros p Hp Hq. apply filter_In in Hp, Hq.
      destruct Hp as [_ Hp]. destruct Hq as [Hq _].
      apply set_has_In in Hq. rewrite Hq in Hp. discriminate.
    + intros p Hp Hq. apply filter_In in Hp. destruct Hp as [Hp Hn].
      apply in_app_iff in Hq. destruct Hq as [ Hq | Hq ]; apply filter_In in Hq.
      * destruct Hq as [Hq _]. apply set_has_In in Hq. rewrite Hq in Hn. discriminate.
      * destruct Hq as [_ Hq]. rewrite Hq in Hn. discriminate.
  - intros p Hp Hq. apply In_js_sort, filter_In in Hp. destruct Hp as [_ Hp].
    apply set_has_In in Hq. rewrite Hq in Hp. discriminate.
  - intros p Hp Hq. apply In_js_sort, filter_In in Hp. destruct Hp as [_ Hp].
    apply set_has_In in Hq. rewrite Hq in Hp. discriminate.
  - now rewrite Hu.
Qed.

Lemma added_nil a b :
  added (compareSchemas a b) = []
  <-> forall p, In p (extractFieldPaths b EmptyString) -> In p (extractFieldPaths a EmptyString).
Proof.
  unfold compareSchemas. simpl. rewrite js_sort_nil, filter_nil.
  split; intros H p Hp.
  - apply set_has_In. specialize (H p Hp). now apply negb_false_iff in H.
  - apply negb_false_iff, set_has_In. auto.
Qed.

Lemma removed_nil a b :
  removed (compareSchemas a b) = []
  <-> forall p, In p (extractFieldPaths a EmptyString) -> In p (extractFieldPaths b EmptyString).
Proof.
  unfold compareSchemas. simpl. rewrite js_sort_nil, filter_nil.
  split; intros H p Hp.
  - apply set_has_In. specialize (H p Hp). now apply negb_false_iff in H.
  - apply negb_false_iff, set_has_In. auto.
Qed.

Lemma length_zero (A : Type) (l : list A) : (length l =? 0) = true <-> l = [].
Proof. destruct l; simpl; split; congruence. Qed.

Lemma report_status name c :
  result_status (report_comparison name c) = OK <-> added c = [] /\ removed c = [].
Proof.
  unfold report_comparison.
  destruct (length (added c) =? 0) eqn:Ea; simpl.
  - destruct (length (removed c) =? 0) eqn:Er; simpl.
    + apply length_zero in Ea, Er. tauto.
    + split; [ discriminate | ]. intros [_ H]. apply length_zero in H. congruence.
  - split; [ discriminate | ]. intros [H _]. apply length_zero in H. congruence.
Qed.

(** X2: the report of a field comparison is OK exactly when the stored data
    and the live data have the same set of field paths; otherwise it is
    DRIFT and carries the two lists of the comparison, one of them at least
    non-empty; comparing a payload with itself is always OK. *)
Theorem report_OK_iff_same_paths :
  forall (name mockData liveData : value),
    let c := compareSchemas mockData liveData in
    let res := report_comparison name c in
    (result_status res = OK <-> same_paths mockData liveData)
    /\ (result_status res = OK
        \/ result_status res = DRIFT
           /\ result_added res = Some (added c)
           /\ result_removed res = Some (removed c)
           /\ (added c <> [] \/ removed c <> []))
    /\ result_status (report_comparison name (compareSchemas mockData mockData)) = OK.
Proof.
  intros name mockData liveData c res. subst res. split; [ | split ].
  - rewrite report_status. subst c. rewrite added_nil, removed_nil.
    unfold same_paths. split.
    + intros [Ha Hr] p. split; auto.
    + intros H. split; intros p; apply H.
  - clearbody c. unfold report_comparison.
    destruct (length (added c) =? 0) eqn:Ea;
      [ destruct (length (removed c) =? 0) eqn:Er | ]; simpl.
    + left. reflexivity.
    + right. repeat split. right. intros E. rewrite E in Er. discriminate.
    + right. repeat split. left. intros E. rewrite E in Ea. discriminate.
  - apply report_status. rewrite added_nil, removed_nil. tauto.
Qed.

(** ** What the comparison cannot see *)

Lemma keys_only_object fs :
  keys_only (VObject fs) = VObject (map (fun kv => (fst kv, keys_only (snd kv))) fs).
Proof.
  simpl. f_equal. induction fs as [ | [k x] r IH ]; simpl; congruence.
Qed.

Lemma fold_add_item_keys_only prefix l :
  Forall (fun x => forall p, extractFieldPaths (keys_only x) p = extractFieldPaths x p) l ->
  forall paths,
    fold_left (add_item prefix) (map keys_only l) paths
    = fold_left (add_item prefix) l paths.
Proof.
  induction 1 as [ | x r Hx Hr IH ]; intros paths; simpl; [ reflexivity | ].
  unfold add_item at 2 4. now rewrite Hx, IH.
Qed.

Lemma fold_add_field_keys_only prefix fs :
  Forall (fun kv => forall p,
            extractFieldPaths (keys_only (snd kv)) p = extractFieldPaths (snd kv) p) fs ->
  forall paths,
    fold_left (add_field prefix) (map (fun kv => (fst kv, keys_only (snd kv))) fs) paths
    = fold_left (add_field prefix) fs paths.
Proof.
  induction 1 as [ | kv r Hx Hr IH ]; intros paths; simpl; [ reflexivity | ].
  unfold add_field at 2 4. simpl. now rewrite Hx, IH.
Qed.

Lemma extractFieldPaths_keys_only v :
  forall prefix, extractFieldPaths (keys_only v) prefix = extractFieldPaths v prefix.
Proof.
  induction v as [ | | b | n | s | l IH | fs IH ] using value_ind';
    intros prefix; try reflexivity.
  - change (keys_only (VArray l)) with (VArray (map keys_only l)).
    rewrite !extractFieldPaths_array. now apply fold_add_item_keys_only.
  - rewrite keys_only_object, !extractFieldPaths_object.
    now apply fold_add_field_keys_only.
Qed.

(** X3: the comparison looks at keys only: two payloads that differ in their
    leaves alone (a number for a string, a value for [null]) have the same
    field paths, and their comparison is reported OK. *)
Theorem leaves_are_not_compared :
  forall (name mockData liveData : value),
    keys_only mockData = keys_only liveData ->
    extractFieldPaths mockData EmptyString = extractFieldPaths liveData EmptyString
    /\ report_comparison name (compareSchemas mockData liveData)
       = mkResult name OK "Schema matches - all fields present" None None.
Proof.
  intros name mockData liveData H.
  assert (E : extractFieldPaths mockData EmptyString
              = extractFieldPaths liveData EmptyString).
  { rewrite <- (extractFieldPaths_keys_only mockData),
            <- (extractFieldPaths_keys_only liveData). now rewrite H. }
  split; [ exact E | ].
  assert (Ha : added (compareSchemas mockData liveData) = [])
    by (apply added_nil; intros p; now rewrite E).
  assert (Hr : removed (compareSchemas mockData liveData) = [])
    by (apply removed_nil; intros p; now rewrite E).
  unfold report_comparison. now rewrite Ha, Hr.
Qed.

(** X3, on an instance: a number that became a string and a string that
    became [null]. *)
Lemma leaves_are_not_compared_witness :
  report_comparison (VString "GetCountry")
    (compareSchemas
       (VObject [("country", VObject [("code", VString "US"); ("area", VNumber 9)])])
       (VObject [("country", VObject [("code", VNull); ("area", VString "9")])]))
  = mkResult (VString "GetCountry") OK "Schema matches - all fields present" None None.
Proof.
  apply (leaves_are_not_compared (VString "GetCountry")
           (VObject [("country", VObject [("code", VString "US"); ("area", VNumber 9)])])
           (VObject [("country", VObject [("code", VNull); ("area", VString "9")])])).
  reflexivity.
Defined.

(** ** The validation run *)

(** the IntrospectionQuery filter of the callers removes nothing *)
Lemma operations_are_user_operations (JSON_parse : string -> option value) har :
  filter (fun op => negb (is_string (operationName op) INTROSPECTION))
    (extractGraphQLOperations JSON_parse har)
  = extractGraphQLOperations JSON_parse har.
Proof.
  destruct har as [ | | entries ]; try reflexivity.
  rewrite extract_first_by.
  apply forallb_filter_id, forallb_forall. intros op Hin.
  apply incl_filter_first_by, operations_of_named in Hin.
  apply andb_true_iff in Hin. tauto.
Qed.

Section RunFacts.
Variable JSON_parse : string -> option value.
Variable null_read_message : string.
Variable mock_files : string -> option string.
Variable live : value -> value -> fetch_outcome.

(** the requests of one operation: one when stored data is found, none
    otherwise, whatever the outcome *)
Lemma requests_of_operation op :
  snd (validate_operation JSON_parse null_read_message mock_files live op)
  = if truthy (stored_mock JSON_parse mock_files op)
    then [(operationName op, query op)] else [].
Proof.
  unfold validate_operation.
  destruct (to_js_string (operationName op)) eqn:Ep.
  - destruct (truthy (stored_mock JSON_parse mock_files op)); simpl; [ | reflexivity ].
    destruct (truthy (live_errors (live_reply null_read_message live op)));
      [ reflexivity | ].
    now destruct (truthy (live_data (live_reply null_read_message live op))).
  - unfold stored_mock, read_mock, mock_file_name. now rewrite Ep.
Qed.

Lemma result_name op res :
  fst (validate_operation JSON_parse null_read_message mock_files live op) = Some res -> result_operationName res = operationName op.
Proof.
  unfold validate_operation.
  destruct (to_js_string (operationName op)); [ | discriminate ].
  destruct (truthy (stored_mock JSON_parse mock_files op)); simpl.
  - destruct (truthy (live_errors (live_reply null_read_message live op))); simpl.
    + destruct (error_message_of (live_errors (live_reply null_read_message live op)));
        intros E; inversion E; reflexivity.
    + destruct (truthy (live_data (live_reply null_read_message live op))); simpl;
        intros E; inversion E; [ | reflexivity ].
      unfold report_comparison.
      now destruct ((length _ =? 0) && (length _ =? 0)).
  - intros E; inversion E; reflexivity.
Qed.

Lemma run_completes ops : forall results sent rs s,
  validate_all JSON_parse null_read_message mock_files live ops results sent = (Some rs, s) ->
  exists rs',
    rs = results ++ rs'
    /\ Forall2 (fun op r => fst (validate_operation JSON_parse null_read_message mock_files live op) = Some r) ops rs'
    /\ s = sent ++ flat_map (fun op => snd (validate_operation JSON_parse null_read_message mock_files live op)) ops.
Proof.
  induction ops as [ | op r IH ]; intros results sent rs s; simpl.
  - intros E. inversion E; subst. exists []. rewrite !app_nil_r. repeat split. constructor.
  - destruct (validate_operation JSON_parse null_read_message mock_files live op) as [ [ res | ] sn ] eqn:Ev; [ | discriminate ].
    intros E. apply IH in E. destruct E as (rs' & -> & HF & ->).
    exists (res :: rs'). rewrite <- !app_assoc. simpl. repeat split.
    constructor; [ now rewrite Ev | assumption ].
Qed.

Lemma run_of_results ops : forall rs' results sent,
  Forall2 (fun op r => fst (validate_operation JSON_parse null_read_message mock_files live op) = Some r) ops rs' ->
  validate_all JSON_parse null_read_message mock_files live ops results sent
  = (Some (results ++ rs'), sent ++ flat_map (fun op => snd (validate_operation JSON_parse null_read_message mock_files live op)) ops).
Proof.
  induction ops as [ | op r IH ]; intros rs' results sent HF; inversion HF; subst; simpl.
  - now rewrite !app_nil_r.
  - destruct (validate_operation JSON_parse null_read_message mock_files live op) as [ o sn ] eqn:Ev. simpl in *. subst o.
    rewrite (IH _ _ _ H3). now rewrite <- !app_assoc.
Qed.

Lemma run_throws ops : forall results sent,
  fst (validate_all JSON_parse null_read_message mock_files live ops results sent) = None
  <-> exists op, In op ops /\ fst (validate_operation JSON_parse null_read_message mock_files live op) = None.
Proof.
  induction ops as [ | op r IH ]; intros results sent; simpl.
  - split; [ discriminate | intros (op & [] & _) ].
  - destruct (validate_operation JSON_parse null_read_message mock_files live op) as [ [ res | ] sn ] eqn:Ev; simpl.
    + rewrite IH. split.
      * intros (op' & Hin & H). eauto.
      * intros (op' & [ <- | Hin ] & H); [ rewrite Ev in H; discriminate | eauto ].
    + split; [ | reflexivity ]. intros _. exists op. rewrite Ev. auto.
Qed.

Lemma requests_filter ops :
  flat_map (fun op => snd (validate_operation JSON_parse null_read_message mock_files live op)) ops
  = map (fun op => (operationName op, query op))
      (filter (fun op => truthy (stored_mock JSON_parse mock_files op)) ops).
Proof.
  induction ops as [ | op r IH ]; simpl; [ reflexivity | ].
  rewrite requests_of_operation, IH.
  now destruct (truthy (stored_mock JSON_parse mock_files op)).
Qed.

Lemma Forall2_names ops : forall rs,
  Forall2 (fun op r => fst (validate_operation JSON_parse null_read_message mock_files live op) = Some r) ops rs ->
  map result_operationName rs = map operationName ops.
Proof.
  induction 1 as [ | op res r rs H HF IH ]; simpl; [ reflexivity | ].
  now rewrite (result_name _ H), IH.
Qed.

Lemma printable_item_spec e :
  printable_item e = true
  <-> exists m t, get_prop e "message" = Some m /\ join_item m = Some t.
Proof.
  destruct e as [ | | b | n | s | l | fs ]; cbn [printable_item get_prop];
    try (split; [ discriminate | intros (m & t & H & _); discriminate ]);
    try (split; [ intros _; exists VUndefined, EmptyString; auto | reflexivity ]).
  destruct (assoc "message" fs) as [ [ | | b | n | s | items | ms ] | ];
    try (split; [ intros _; eexists; eexists; split; reflexivity | reflexivity ]).
  - destruct b; (split; [ intros _; eexists; eexists; split; reflexivity | reflexivity ]).
  - destruct (to_js_string (VArray items)) as [ t | ] eqn:Et.
    + split; [ intros _; exists (VArray items), t; auto | reflexivity ].
    + split; [ discriminate | ].
      intros (m & t & H & Hj). apply some_inj in H. subst m.
      cbn [join_item] in Hj. congruence.
  - destruct (map_has String.eqb "toString" ms) eqn:Eh; cbn [negb].
    + split; [ discriminate | ].
      intros (m & t & H & Hj). apply some_inj in H. subst m.
      cbn [join_item to_js_string] in Hj. rewrite Eh in Hj. discriminate.
    + split; [ intros _ | reflexivity ].
      exists (VObject ms), "[object Object]". split; [ reflexivity | ].
      cbn [join_item to_js_string]. now rewrite Eh.
Qed.

Lemma join_items_messages l :
  (exists texts, (let? ms := messages l in join_items ms) = Some texts)
  <-> forallb printable_item l = true.
Proof.
  induction l as [ | e r IH ]; cbn [messages join_items forallb].
  - split; [ reflexivity | eauto ].
  - rewrite andb_true_iff, printable_item_spec. split.
    + intros (texts & H).
      destruct (get_prop e "message") as [ m | ] eqn:Em; [ | discriminate ].
      destruct (messages r) as [ ms | ] eqn:Er; [ | discriminate ].
      cbn [join_items] in H.
      destruct (join_item m) as [ t | ] eqn:Et; [ | discriminate ].
      destruct (join_items ms) as [ ts | ] eqn:Es; [ | discriminate ].
      split; [ eauto | ]. apply IH. eauto.
    + intros [(m & t & Hm & Ht) Hr]. apply IH in Hr. destruct Hr as (texts & H).
      rewrite Hm. destruct (messages r) as [ ms | ]; [ | discriminate ].
      cbn [join_items]. rewrite Ht, H. eauto.
Qed.

Lemma error_message_printable errors :
  error_message_of errors = None <-> printable_errors errors = false.
Proof.
  destruct errors as [ | | b | n | s | l | fs ]; simpl; try tauto.
  pose proof (join_items_messages l) as H.
  destruct (forallb printable_item l).
  - destruct (proj2 H eq_refl) as [texts E].
    destruct (messages l) as [ ms | ]; [ | discriminate ].
    rewrite E. split; discriminate.
  - split; [ reflexivity | intros _ ].
    destruct (messages l) as [ ms | ]; [ | reflexivity ].
    destruct (join_items ms) as [ texts | ] eqn:E; [ | reflexivity ].
    assert (F : false = true) by (apply H; eauto). discriminate.
Qed.

(** an iteration throws exactly when the name cannot be printed, or
    stored data is found and the reply carries a truthy [errors] that
    cannot be printed *)
Lemma validate_throws op :
  fst (validate_operation JSON_parse null_read_message mock_files live op) = None
  <-> to_js_string (operationName op) = None
      \/ truthy (stored_mock JSON_parse mock_files op) = true
         /\ truthy (live_errors (live_reply null_read_message live op)) = true
         /\ printable_errors (live_errors (live_reply null_read_message live op))
            = false.
Proof.
  rewrite <- error_message_printable.
  unfold validate_operation.
  destruct (to_js_string (operationName op)) eqn:Ep; [ | simpl; tauto ].
  destruct (truthy (stored_mock JSON_parse mock_files op)); simpl.
  - destruct (truthy (live_errors (live_reply null_read_message live op))); simpl.
    + destruct (error_message_of (live_errors (live_reply null_read_message live op)));
        simpl; split; try tauto; try discriminate.
      intros [ H | (_ & _ & H) ]; discriminate.
    + destruct (truthy (live_data (live_reply null_read_message live op))); simpl;
        split; try discriminate; intros [ H | (_ & H & _) ]; discriminate.
  - split; [ discriminate | intros [ H | (H & _) ]; discriminate ].
Qed.

(** the unprintable [errors] come from the body of an HTTP-ok reply *)
Lemma unprintable_reply op :
  truthy (live_errors (live_reply null_read_message live op)) = true
  /\ printable_errors (live_errors (live_reply null_read_message live op)) = false
  <-> exists st json errors,
        live (operationName op) (query op) = FetchResponse true st (inr json)
        /\ get_prop json "errors" = Some errors
        /\ truthy errors = true
        /\ printable_errors errors = false.
Proof.
  unfold live_reply, queryLiveServer.
  destruct (live (operationName op) (query op)) as [ m | ok st [ m | json ] ].
  - simpl. split; [ intros [_ H]; discriminate | intros (st & j & e & H & _); discriminate ].
  - destruct ok; simpl;
      (split; [ intros [_ H]; discriminate | intros (st' & j & e & H & _); discriminate ]).
  - destruct ok; simpl.
    + destruct (get_prop json "errors") as [ errors | ] eqn:Ee.
      * destruct (get_prop_total json "errors" "data" Ee) as [data Ed]. rewrite Ed.
        destruct (truthy errors) eqn:Et; simpl.
        -- split.
           ++ intros [_ H]. exists st, json, errors. auto.
           ++ intros (st' & j & e & H & He & Ht & Hp).
              inversion H; subst. rewrite Ee in He. inversion He; subst. auto.
        -- split; [ intros [H _]; discriminate | ].
           intros (st' & j & e & H & He & Ht & Hp).
           inversion H; subst. rewrite Ee in He. inversion He; subst. congruence.
      * simpl. split; [ intros [_ H]; discriminate | ].
        intros (st' & j & e & H & He & _). inversion H; subst. congruence.
    + split; [ intros [_ H]; discriminate | intros (st' & j & e & H & _); discriminate ].
Qed.

End RunFacts.

(** X4: a run that completes reports every operation of the capture once,
    in the order of the capture (the IntrospectionQuery filter of the run
    removes nothing, the extractor having dropped it already), and it
    queries the live server exactly for the operations for which stored
    data was found, in that order. *)
Theorem validateMocks_one_result_per_operation :
  forall (JSON_parse : string -> option value) (null_read_message : string)
         (mock_files : string -> option string)
         (live : value -> value -> fetch_outcome) (har : har_file)
         (results : list ValidationResult) (sent : list (value * value)),
    validateMocks JSON_parse null_read_message mock_files live har
    = (Some results, sent) ->
    map result_operationName results
    = map operationName (extractGraphQLOperations JSON_parse har)
    /\ sent
       = map (fun op => (operationName op, query op))
           (filter (fun op => truthy (stored_mock JSON_parse mock_files op))
              (extractGraphQLOperations JSON_parse har)).
Proof.
  intros JSON_parse msg mock_files live har results sent.
  unfold validateMocks. rewrite operations_are_user_operations.
  intros H. apply run_completes in H. destruct H as (rs' & -> & HF & ->). simpl.
  split; [ now apply Forall2_names in HF | apply requests_filter ].
Qed.

(** X4, on an instance: a capture of IntrospectionQuery, GetContinent and
    GetThing against the committed artifact of GetContinent: two results,
    one request. *)
Lemma validateMocks_one_result_per_operation_witness :
  map operationName
    (extractGraphQLOperations json_parse
       (HarLog [introspection_exchange; getContinent_exchange; getThing_exchange]))
  = [VString "GetContinent"; VString "GetThing"]
  /\ snd (validateMocks json_parse "null" committed_mocks live_null_data
            (HarLog [introspection_exchange; getContinent_exchange; getThing_exchange]))
     = map (fun op => (operationName op, query op))
         (filter (fun op => truthy (stored_mock json_parse committed_mocks op))
            (extractGraphQLOperations json_parse
               (HarLog [introspection_exchange; getContinent_exchange;
                        getThing_exchange]))).
Proof.
  split; [ vm_compute; reflexivity | ].
  apply (validateMocks_one_result_per_operation json_parse "null" committed_mocks
           live_null_data
           (HarLog [introspection_exchange; getContinent_exchange; getThing_exchange])
           (results :=
              [mkResult (VString "GetContinent") REMOVED
                 "Operation may have been removed from API" None None;
               mkResult (VString "GetThing") DRIFT
                 "Mock file not found or couldn't parse data" None None])).
  vm_compute. reflexivity.
Defined.

(** X5: the run throws (no summary is printed, the script exits with 1)
    exactly when the name of some operation cannot be printed, or for some
    operation with stored data the live server answers with an HTTP-ok JSON
    body whose [errors] member is truthy but cannot be printed: it is not
    an array, or it holds [null], or one of its messages does not print
    (an object with a member named [toString]). *)
Theorem validateMocks_throws_iff :
  forall (JSON_parse : string -> option value) (null_read_message : string)
         (mock_files : string -> option string)
         (live : value -> value -> fetch_outcome) (har : har_file),
    fst (validateMocks JSON_parse null_read_message mock_files live har) = None
    <-> exists op,
          In op (extractGraphQLOperations JSON_parse har)
          /\ (to_js_string (operationName op) = None
              \/ exists st json errors,
                   truthy (stored_mock JSON_parse mock_files op) = true
                   /\ live (operationName op) (query op)
                      = FetchResponse true st (inr json)
                   /\ get_prop json "errors" = Some errors
                   /\ truthy errors = true
                   /\ printable_errors errors = false).
Proof.
  intros JSON_parse msg mock_files live har.
  unfold validateMocks. rewrite operations_are_user_operations, run_throws.
  split.
  - intros (op & Hin & H). exists op. split; [ exact Hin | ].
    apply validate_throws in H. destruct H as [ H | (Hm & He & Hp) ]; [ now left | ].
    right. destruct (proj1 (unprintable_reply msg live op) (conj He Hp))
      as (st & json & errors & H). exists st, json, errors. tauto.
  - intros (op & Hin & H). exists op. split; [ assumption | ].
    apply validate_throws. destruct H as [ H | (st & json & errors & Hm & H) ];
      [ now left | right ].
    split; [ assumption | ]. apply unprintable_reply. eauto.
Qed.

(** Three replies that stop the run (an [errors] member
    that is an object, a message with a member named [toString], an item
    [null]) and one that does not. *)
Example validateMocks_throws_examples :
  fst (validateMocks json_parse "null" committed_mocks live_errors_object
         (HarLog [getContinent_exchange])) = None
  /\ fst (validateMocks json_parse "null" committed_mocks live_message_object
            (HarLog [getContinent_exchange])) = None
  /\ printable_errors (VArray [VNull]) = false
  /\ fst (validateMocks json_parse "null" committed_mocks live_graphql_error
            (HarLog [getContinent_exchange]))
     = Some [mkResult (VString "GetContinent") ERROR
               "Live server returned errors: Cannot query field `code`, Unknown type"
               None None].
Proof. repeat split; vm_compute; reflexivity. Qed.

(** ** The summary *)

Lemma count_status_cons s r rs :
  count_status s (r :: rs)
  = (if status_eqb (result_status r) s then 1 else 0) + count_status s rs.
Proof. unfold count_status. simpl. now destruct (status_eqb (result_status r) s). Qed.

Lemma counts_add_up rs :
  count_status OK rs + count_status DRIFT rs + count_status ERROR rs
  + count_status REMOVED rs = length rs.
Proof.
  induction rs as [ | r rs IH ]; [ reflexivity | ].
  rewrite !count_status_cons. simpl length.
  destruct (result_status r); simpl; lia.
Qed.

Lemma count_all_OK rs :
  count_status OK rs = length rs <-> Forall (fun r => result_status r = OK) rs.
Proof.
  induction rs as [ | r rs IH ]; [ split; [ constructor | reflexivity ] | ].
  rewrite count_status_cons. simpl length.
  assert (Hle : count_status OK rs <= length rs)
    by (unfold count_status; apply filter_length_le).
  destruct (result_status r) eqn:E; simpl; split; intros H;
    try lia; try (inversion H; congruence).
  - constructor; [ assumption | apply IH; lia ].
  - inversion H; subst. apply IH in H3. lia.
Qed.

Lemma exit_code_zero (results : list ValidationResult) :
  exit_code (printSummary results) = 0
  <-> Forall (fun r => result_status r = OK) results.
Proof.
  unfold printSummary. simpl.
  pose proof (counts_add_up results) as Hsum.
  rewrite <- count_all_OK.
  destruct (count_status DRIFT results), (count_status ERROR results),
    (count_status REMOVED results); simpl; split; intros H; try lia; discriminate.
Qed.

(** X6: the four counts of the summary add up to the number of results, and
    the exit code is 0 exactly when every result is OK (so also when there
    is no result at all), 1 otherwise. *)
Theorem printSummary_exit_code :
  forall results : list ValidationResult,
    let s := printSummary results in
    summary_ok s + summary_drift s + summary_error s + summary_removed s
    = length results
    /\ (exit_code s = 0 <-> Forall (fun r => result_status r = OK) results)
    /\ (exit_code s = 0 \/ exit_code s = 1).
Proof.
  intros results s. subst s. split; [ | split ].
  - unfold printSummary. simpl. apply counts_add_up.
  - apply exit_code_zero.
  - unfold printSummary. simpl.
    destruct ((0 <? _) || (0 <? _) || (0 <? _)); auto.
Qed.

Section ScriptFacts.
Variable JSON_parse : string -> option value.
Variable null_read_message : string.
Variable mock_files : string -> option string.
Variable live : value -> value -> fetch_outcome.

Lemma report_OK_same_paths name a b :
  result_status (report_comparison name (compareSchemas a b)) = OK <-> same_paths a b.
Proof.
  rewrite report_status, added_nil, removed_nil. unfold same_paths. split.
  - intros [Ha Hr] p. split; auto.
  - intros H. split; intros p; apply H.
Qed.

Lemma validate_OK_iff op :
  (exists res,
     fst (validate_operation JSON_parse null_read_message mock_files live op) = Some res
     /\ result_status res = OK)
  <-> in_step JSON_parse null_read_message mock_files live op.
Proof.
  unfold in_step. split.
  - intros (res & E & Hs).
    destruct (validate_operation JSON_parse null_read_message mock_files live op)
      as [o sent] eqn:Ev. simpl in E. subst o.
    destruct (validate_compared_only JSON_parse null_read_message mock_files live op
                Ev (or_introl Hs)) as (Hm & He & Hd & ->).
    apply report_OK_same_paths in Hs. tauto.
  - intros (Hm & He & Hd & Hp).
    rewrite (validate_compared JSON_parse null_read_message mock_files live op Hm He Hd).
    eexists. split; [ reflexivity | ]. now apply report_OK_same_paths.
Qed.

Lemma all_OK_iff ops : forall results,
  Forall2 (fun op r =>
             fst (validate_operation JSON_parse null_read_message mock_files live op)
             = Some r) ops results ->
  Forall (fun r => result_status r = OK) results
  <-> forall op, In op ops -> in_step JSON_parse null_read_message mock_files live op.
Proof.
  induction 1 as [ | op r ops rs Hr HF IH ].
  - split; [ intros _ op [] | constructor ].
  - split.
    + intros H. inversion H; subst. intros op' [ <- | Hin ].
      * apply validate_OK_iff. eauto.
      * now apply IH.
    + intros H. constructor.
      * destruct (proj2 (validate_OK_iff op) (H op (or_introl eq_refl)))
          as (res & E & Hs). congruence.
      * apply IH. intros op' Hin. apply H. now right.
Qed.

Lemma results_exist ops :
  (forall op, In op ops -> in_step JSON_parse null_read_message mock_files live op) ->
  exists results,
    Forall2 (fun op r =>
               fst (validate_operation JSON_parse null_read_message mock_files live op)
               = Some r) ops results.
Proof.
  induction ops as [ | op r IH ]; intros H.
  - exists []. constructor.
  - destruct IH as (rs & HF); [ intros op' Hin; apply H; now right | ].
    destruct (proj2 (validate_OK_iff op) (H op (or_introl eq_refl))) as (res & E & _).
    exists (res :: rs). now constructor.
Qed.
End ScriptFacts.

Lemma script_passes_iff (JSON_parse : string -> option value) (msg : string)
    (mock_files : string -> option string) (live : value -> value -> fetch_outcome)
    (har : har_file) :
  validate_script JSON_parse msg mock_files live har = 0
  <-> forall op, In op (extractGraphQLOperations JSON_parse har) ->
                 in_step JSON_parse msg mock_files live op.
Proof.
  unfold validate_script, validateMocks. rewrite operations_are_user_operations.
  set (ops := extractGraphQLOperations JSON_parse har).
  destruct (validate_all JSON_parse msg mock_files live ops [] [])
    as [ [ results | ] sent ] eqn:Er; simpl.
  - apply run_completes in Er. destruct Er as (rs' & -> & HF & _). simpl.
    change (exit_code (printSummary rs') = 0
            <-> (forall op, In op ops -> in_step JSON_parse msg mock_files live op)).
    rewrite exit_code_zero. now apply all_OK_iff.
  - split; [ discriminate | ]. intros H.
    destruct (@results_exist JSON_parse msg mock_files live ops H) as (rs & HF).
    rewrite (@run_of_results JSON_parse msg mock_files live ops rs [] [] HF) in Er.
    discriminate.
Qed.

(** X7: the validation script exits with 0 exactly when every operation of
    the capture is in step with the live server: its artifact yields stored
    data, the live reply carries no errors and carries data, and the stored
    data and the live data have the same field paths.  It exits with 0 in
    particular when the capture is missing or holds no operation; it exits
    with 1 in every other case (drift, error, removal, or a run that
    throws). *)
Theorem validate_script_passes_iff :
  forall (JSON_parse : string -> option value) (null_read_message : string)
         (mock_files : string -> option string)
         (live : value -> value -> fetch_outcome) (har : har_file),
    (validate_script JSON_parse null_read_message mock_files live har = 0
     <-> forall op, In op (extractGraphQLOperations JSON_parse har) ->
                    in_step JSON_parse null_read_message mock_files live op)
    /\ (validate_script JSON_parse null_read_message mock_files live har = 0
        \/ validate_script JSON_parse null_read_message mock_files live har = 1)
    /\ validate_script JSON_parse null_read_message mock_files live HarMissing = 0
    /\ validate_script JSON_parse null_read_message mock_files live (HarLog []) = 0.
Proof.
  intros JSON_parse msg mock_files live har.
  split; [ apply script_passes_iff | split; [ | split; reflexivity ] ].
  unfold validate_script.
  destruct (fst (validateMocks JSON_parse msg mock_files live har)); [ | now right ].
  unfold printSummary. simpl.
  destruct ((0 <? _) || (0 <? _) || (0 <? _)); auto.
Qed.

(** ** The operation name *)


Lemma nonempty_not_empty s : nonempty s = true <-> s <> EmptyString.
Proof.
  unfold nonempty. rewrite negb_true_iff. split.
  - intros H E. subst. discriminate.
  - intros H. apply String.eqb_neq. exact H.
Qed.






Lemma span_app (p : ascii -> bool) (a b : string) :
  all_chars p a = true ->
  match b with EmptyString => true | String c _ => negb (p c) end = true ->
  span p (a ++ b) = (a, b).
Proof.
  induction a as [ | c r IH ]; simpl; intros Ha Hb.
  - destruct b as [ | c r ]; simpl; [ reflexivity | ].
    apply negb_true_iff in Hb. now rewrite Hb.
  - apply andb_true_iff in Ha. destruct Ha as [Hc Hr].
    rewrite Hc, (IH Hr Hb). reflexivity.
Qed.

Lemma all_word_chars s : all_word s = all_chars is_word s.
Proof. induction s as [ | c r IH ]; simpl; congruence. Qed.

Lemma word_not_space c : is_word c = true -> is_space c = false.
Proof.
  destruct c as [[] [] [] [] [] [] [] []]; vm_compute; congruence.
Qed.

Lemma match_name_after_named sp w rest :
  all_space sp = true -> sp <> EmptyString ->
  all_word w = true -> w <> EmptyString ->
  starts_with_word rest = false ->
  match_name_after (sp ++ w ++ rest) = Some w.
Proof.
  intros Hsp Hne Hw Hwe Hr. unfold match_name_after.
  rewrite (span_app is_space sp (w ++ rest)); [ | exact Hsp | ].
  - apply nonempty_not_empty in Hne. rewrite Hne.
    rewrite (span_app is_word w rest); [ | now rewrite <- all_word_chars | ].
    + apply nonempty_not_empty in Hwe. now rewrite Hwe.
    + destruct rest; simpl in *; [ reflexivity | now rewrite Hr ].
  - destruct w as [ | c r ]; [ congruence | ]. simpl in *.
    apply andb_true_iff in Hw. destruct Hw as [Hc _].
    now rewrite (word_not_space _ Hc).
Qed.

Lemma match_operation_named keyword sp w rest :
  keyword = "query" \/ keyword = "mutation" ->
  all_space sp = true -> sp <> EmptyString ->
  all_word w = true -> w <> EmptyString ->
  starts_with_word rest = false ->
  match_operation (named_document keyword sp w rest) = Some w.
Proof.
  intros Hk Hsp Hne Hw Hwe Hr.
  pose proof (@match_name_after_named sp w rest Hsp Hne Hw Hwe Hr) as Hm.
  unfold named_document.
  destruct Hk as [ -> | -> ].
  - change (match_operation ("query" ++ sp ++ w ++ rest))
      with (match match_here ("query" ++ sp ++ w ++ rest) with
            | Some w => Some w
            | None => match_operation ("uery" ++ sp ++ w ++ rest)
            end).
    unfold match_here.
    change (drop_prefix "query" ("query" ++ sp ++ w ++ rest)) with (Some (sp ++ w ++ rest))%string.
    cbv beta iota. now rewrite Hm.
  - change (match_operation ("mutation" ++ sp ++ w ++ rest))
      with (match match_here ("mutation" ++ sp ++ w ++ rest) with
            | Some w => Some w
            | None => match_operation ("utation" ++ sp ++ w ++ rest)
            end).
    unfold match_here.
    change (drop_prefix "query" ("mutation" ++ sp ++ w ++ rest)) with (@None string).
    change (drop_prefix "mutation" ("mutation" ++ sp ++ w ++ rest))
      with (Some (sp ++ w ++ rest))%string.
    cbv beta iota. now rewrite Hm.
Qed.

(** X9: a body that parses to an object without a truthy [operationName]
    and whose [query] opens with [query Name] or [mutation Name] (the
    keyword, white space, a name of word characters that ends there) is
    named [Name]; the operation list files it under that name. *)
Theorem operation_name_from_query_text :
  forall (JSON_parse : string -> option value) (text : string)
         (fields : list (string * value)) (explicit : value)
         (keyword space name rest : string),
    text <> EmptyString ->
    JSON_parse text = Some (VObject fields) ->
    get_prop (VObject fields) "operationName" = Some explicit ->
    truthy explicit = false ->
    get_prop (VObject fields) "query"
    = Some (VString (named_document keyword space name rest)) ->
    keyword = "query" \/ keyword = "mutation" ->
    all_space space = true -> space <> EmptyString ->
    all_word name = true -> name <> EmptyString ->
    starts_with_word rest = false ->
    extractOperationName JSON_parse (Some text) = VString name
    /\ forall url response,
         map operationName
           (extractGraphQLOperations JSON_parse
              (HarLog [mkEntry url "POST" (Some text) response]))
         = if String.eqb name INTROSPECTION then [] else [VString name].
Proof.
  intros JSON_parse text fields explicit keyword space name rest
         Hne Hj He Ht Hq Hk Hsp Hspe Hw Hwe Hr.
  pose proof (@match_operation_named keyword space name rest Hk Hsp Hspe Hw Hwe Hr) as Hm.
  assert (Hpr : present (Some text) = Some text).
  { unfold present. apply nonempty_not_empty in Hne. now rewrite Hne. }
  assert (Hdoc : named_document keyword space name rest <> EmptyString).
  { unfold named_document. destruct Hk as [ -> | -> ]; discriminate. }
  assert (Hname : extractOperationName JSON_parse (Some text) = VString name).
  { unfold extractOperationName. rewrite Hpr, Hj. cbn [try_catch].
    rewrite He, Ht, Hq. cbn [truthy].
    apply nonempty_not_empty in Hdoc. unfold nonempty in Hdoc. rewrite Hdoc.
    cbn [query_name]. unfold matched_name. now rewrite Hm. }
  split; [ exact Hname | ].
  intros url response.
  cbn [extractGraphQLOperations fold_left]. unfold operations_step.
  cbn [method postData String.eqb Ascii.eqb Bool.eqb negb].
  rewrite Hpr, Hj. cbn [try_catch]. rewrite He, Ht, Hname. cbn [truthy is_string].
  apply nonempty_not_empty in Hwe. unfold nonempty in Hwe. rewrite Hwe.
  cbn [negb orb].
  destruct (String.eqb name INTROSPECTION); [ reflexivity | ].
  cbn [set_has existsb]. rewrite Hq. reflexivity.
Qed.

(** X9, on an instance: the exchange whose body carries the query text
    alone. *)
Lemma operation_name_from_query_text_witness :
  extractOperationName json_parse
    (Some (qq "{`query`:`query GetFoo { foo { id } }`}"))
  = VString "GetFoo".
Proof.
  apply (@operation_name_from_query_text json_parse
           (qq "{`query`:`query GetFoo { foo { id } }`}")
           [("query", VString "query GetFoo { foo { id } }")]
           VUndefined "query" " " "GetFoo" " { foo { id } }");
    try reflexivity; try discriminate.
  left. reflexivity.
Defined.

(** ** The schema hash in the artifact *)

Lemma all_chars_app p (a b : string) :
  all_chars p (a ++ b) = all_chars p a && all_chars p b.
Proof.
  induction a as [ | c r IH ]; simpl; [ reflexivity | ].
  now rewrite IH, andb_assoc.
Qed.

Lemma hex_digit_lower m : m < 16 -> is_lower_hex (hex_digit m) = true.
Proof.
  intros H. do 16 (destruct m as [ | m ]; [ reflexivity | ]). lia.
Qed.

Lemma hex_byte_lower n : n < 256 -> all_chars is_lower_hex (hex_byte n) = true.
Proof.
  intros H. unfold hex_byte. cbn [all_chars].
  rewrite !hex_digit_lower; [ reflexivity | | ].
  - apply Nat.mod_upper_bound. discriminate.
  - apply Nat.Div0.div_lt_upper_bound. exact H.
Qed.

Lemma le_bytes_range count : forall x,
  Forall (fun b => (0 <= b < 256)%Z) (le_bytes count x).
Proof.
  induction count as [ | c IH ]; intros x; simpl; constructor; [ | apply IH ].
  change 255%Z with (Z.ones 8). rewrite Z.land_ones by lia.
  apply Z.mod_pos_bound. reflexivity.
Qed.

Lemma hex_of_bytes_lower bs :
  Forall (fun b => (0 <= b < 256)%Z) bs ->
  all_chars is_lower_hex (hex_of_bytes bs) = true.
Proof.
  induction 1 as [ | b r Hb Hr IH ]; [ reflexivity | ].
  cbn [hex_of_bytes]. rewrite all_chars_app, IH, andb_true_r.
  apply hex_byte_lower. lia.
Qed.

Lemma md5_hex_lower s :
  all_chars is_lower_hex (md5_hex s) = true /\ md5_hex s <> EmptyString.
Proof.
  unfold md5_hex.
  destruct (md5_chunks _ _ _) as [[[a b] c] d].
  split.
  - apply hex_of_bytes_lower. repeat (apply Forall_app; split); apply le_bytes_range.
  - cbn [le_bytes app hex_of_bytes]. unfold hex_byte. discriminate.
Qed.

Lemma schema_hash_lower v h :
  generateSchemaHash v = Some h ->
  all_chars is_lower_hex h = true /\ h <> EmptyString.
Proof.
  unfold generateSchemaHash.
  destruct (JSON_stringify_2 (getStructure v)) as [ t | ]; [ | discriminate ].
  intros E. inversion E. apply md5_hex_lower.
Qed.

Lemma drop_prefix_in_word p : forall (n tail : string) (c0 : ascii),
  all_word n = true -> lacks c0 p = true -> all_word p = false ->
  drop_prefix p (n ++ String c0 tail) = None.
Proof.
  induction p as [ | a p' IH ]; intros n tail c0 Hn Hl Hp; [ discriminate | ].
  cbn [lacks] in Hl. apply andb_true_iff in Hl. destruct Hl as [Hc Hl].
  destruct n as [ | c n' ]; cbn [append drop_prefix].
  - destruct (Ascii.eqb a c0) eqn:E; [ | reflexivity ].
    apply Ascii.eqb_eq in E. subst. rewrite Ascii.eqb_refl in Hc. discriminate.
  - destruct (Ascii.eqb a c) eqn:E; [ | reflexivity ].
    apply Ascii.eqb_eq in E. subst.
    cbn [all_word] in Hn, Hp. apply andb_true_iff in Hn. destruct Hn as [Hc' Hn].
    rewrite Hc' in Hp. now apply IH.
Qed.

Lemma match_schema_hash_skip c r :
  Ascii.eqb "S" c = false -> match_schema_hash (String c r) = match_schema_hash r.
Proof. intros H. cbn [match_schema_hash drop_prefix]. now rewrite H. Qed.

Lemma match_schema_hash_word n : forall (tail : string) (c0 : ascii),
  all_word n = true -> lacks c0 "Schema Hash: " = true ->
  match_schema_hash (n ++ String c0 tail) = match_schema_hash (String c0 tail).
Proof.
  induction n as [ | c n' IH ]; intros tail c0 Hn Hc; [ reflexivity | ].
  cbn [append].
  change (match_schema_hash (String c (n' ++ String c0 tail)))
    with (match
            match drop_prefix "Schema Hash: " (String c n' ++ String c0 tail) with
            | Some r => let (h, _) := span is_lower_hex r in
                        if nonempty h then Some h else None
            | None => None
            end
          with
          | Some h => Some h
          | None => match_schema_hash (n' ++ String c0 tail)
          end).
  rewrite (drop_prefix_in_word "Schema Hash: " (String c n') tail c0 Hn Hc eq_refl).
  cbn [all_word] in Hn. apply andb_true_iff in Hn. now apply IH.
Qed.

Lemma match_schema_hash_here (h tail : string) :
  all_chars is_lower_hex h = true -> h <> EmptyString ->
  match tail with EmptyString => true | String c _ => negb (is_lower_hex c) end = true ->
  match_schema_hash ("Schema Hash: " ++ h ++ tail) = Some h.
Proof.
  intros Hh Hne Ht.
  change (match_schema_hash ("Schema Hash: " ++ h ++ tail))
    with (match
            (let (h', _) := span is_lower_hex (h ++ tail) in
             if nonempty h' then Some h' else None)
          with
          | Some h' => Some h'
          | None => match_schema_hash ("chema Hash: " ++ h ++ tail)
          end).
  rewrite (span_app is_lower_hex h tail Hh Ht).
  apply nonempty_not_empty in Hne. now rewrite Hne.
Qed.

(** the hash line of a generated artifact is found by the pattern *)
Lemma hash_line_found n response t content h :
  all_word n = true ->
  generateSchemaHash response = Some h ->
  mock_source (VString n) response t = Some content ->
  match_schema_hash content = Some h.
Proof.
  intros Hn Hh Hs. unfold mock_source in Hs. cbn [to_js_string] in Hs.
  rewrite Hh in Hs. injection Hs as <-.
  destruct (schema_hash_lower _ Hh) as [Hlow Hne].
  unfold nl. cbn [append].
  repeat (rewrite match_schema_hash_skip by reflexivity).
  rewrite match_schema_hash_word by (assumption || reflexivity).
  repeat (rewrite match_schema_hash_skip by reflexivity).
  apply match_schema_hash_here; [ exact Hlow | exact Hne | reflexivity ].
Qed.

Lemma mock_source_prints name response t printed :
  to_js_string name = Some printed ->
  exists content, mock_source name response t = Some content.
Proof.
  intros Hp. unfold mock_source. rewrite Hp.
  destruct (generateSchemaHash_total response) as [h ->]. eexists. reflexivity.
Qed.

Lemma word_name_file name :
  word_name name = true ->
  exists w, name = VString w /\ all_word w = true
            /\ mock_file_name name = Some (file_of name)
            /\ file_of name = (w ++ MOCK_SUFFIX)%string.
Proof.
  destruct name as [ | | | | w | | ]; try discriminate.
  intros H. exists w. repeat split. exact H.
Qed.

Lemma save_each_spec mocks clock : forall i,
  forallb word_name (map fst mocks) = true ->
  exists files,
    save_each mocks clock i = Some files
    /\ map fst files = map (fun c => file_of (fst c)) mocks
    /\ forall k name response,
         nth_error mocks k = Some (name, response) ->
         exists content,
           mock_source name response (clock (i + k)) = Some content
           /\ nth_error files k = Some (file_of name, content).
Proof.
  induction mocks as [ | [name response] r IH ]; intros i Hw.
  - exists []. repeat split. intros [ | k ] ? ? H; discriminate.
  - cbn [map fst forallb] in Hw. apply andb_true_iff in Hw. destruct Hw as [Hn Hw].
    destruct (word_name_file name Hn) as (w & -> & _ & Hfile & _).
    cbn [save_each]. rewrite Hfile.
    destruct (@mock_source_prints (VString w) response (clock i) w eq_refl)
      as [content Hc].
    rewrite Hc.
    destruct (IH (S i) Hw) as (rest & -> & Hnames & Hf).
    exists ((file_of (VString w), content) :: rest). split; [ reflexivity | ].
    split; [ simpl; now rewrite Hnames | ].
    intros [ | k ] name' response' H; simpl in H.
    + inversion H; subst. exists content. rewrite Nat.add_0_r. auto.
    + destruct (Hf k name' response' H) as (content' & Hs & Hk).
      exists content'. replace (i + S k) with (S i + k) by lia. auto.
Qed.

Lemma length_mocks_le (JSON_parse : string -> option value) entries :
  length (fold_left (mocks_step JSON_parse) entries []) <= length entries.
Proof.
  rewrite fold_mocks_step.
  rewrite <- (length_map fst),
    (keys_fold_store same_value_zero same_value_zero_eq), length_map.
  etransitivity;
    [ apply (length_first_by_le same_value_zero fst) | ].
  unfold mocks_of. induction entries as [ | e r IH ]; simpl; [ lia | ].
  rewrite length_app. destruct (entry_mock JSON_parse e); simpl; lia.
Qed.

(** X11: a re-recorded response of the same sampled shape is no schema
    change: when the mocks directory holds, for an operation with a name of
    word characters, the artifact generated from a response, and the
    capture holds for that name a response of the same shape (other leaf
    values of the same type, another key order, other array items after the
    first), [hasSchemaChanged] answers false. *)
Theorem same_shape_is_unchanged :
  forall (JSON_parse : string -> option value) (har : har_file)
         (mocks : list (value * value)) (mock_files : string -> option string)
         (name : string) (stored current : value) (lastUpdated content : string),
    all_word name = true ->
    mock_source (VString name) stored lastUpdated = Some content ->
    read_mock mock_files (VString name) = Some content ->
    extractGraphQLMocks JSON_parse har = Some mocks ->
    map_get same_value_zero (VString name) mocks = Some current ->
    same_shape stored current ->
    hasSchemaChanged JSON_parse (VString name) har mock_files = false.
Proof.
  intros JSON_parse har mocks mock_files name stored current t content
         Hn Hs Hf Hm Hg Hshape.
  unfold hasSchemaChanged. rewrite Hm. cbn [try_catch]. rewrite Hg.
  destruct (truthy current); [ | reflexivity ]. cbn [negb].
  destruct (generateSchemaHash_total stored) as [h Hh].
  assert (Hc : generateSchemaHash current = Some h).
  { unfold generateSchemaHash in *. now rewrite <- (getStructure_same_shape Hshape). }
  rewrite Hc, Hf, (hash_line_found name stored t Hn Hh Hs).
  now rewrite String.eqb_refl.
Qed.

(** X11, on an instance: an artifact of GetThing against a capture with
    other values in another key order. *)
Lemma same_shape_is_unchanged_witness :
  hasSchemaChanged json_parse (VString "GetThing")
    (HarLog [mkEntry ENDPOINT "POST"
               (Some (qq "{`operationName`:`GetThing`,`query`:`query GetThing { thing { id } }`}"))
               (Some (qq "{`data`:{`thing`:{`label`:`z`,`id`:7}}}"))])
    (fun file =>
       if String.eqb file "GetThing.mock.ts"
       then mock_source (VString "GetThing")
              (VObject [("data", VObject [("thing",
                 VObject [("id", VNumber 2); ("label", VString "b")])])])
              "2026-01-03T10:33:05.134Z"
       else None)
  = false.
Proof.
  eapply (@same_shape_is_unchanged json_parse _ _ _ "GetThing"
            (VObject [("data", VObject [("thing",
               VObject [("id", VNumber 2); ("label", VString "b")])])])
            (VObject [("data", VObject [("thing",
               VObject [("label", VString "z"); ("id", VNumber 7)])])])
            "2026-01-03T10:33:05.134Z").
  - reflexivity.
  - vm_compute. reflexivity.
  - vm_compute. reflexivity.
  - reflexivity.
  - vm_compute. reflexivity.
  - apply (@shape_field [] "data"). apply (@shape_field [] "thing").
    apply shape_trans with
      (VObject [("id", VNumber 7); ("label", VString "b")]).
    { apply (@shape_field [] "id"). apply shape_number. }
    apply shape_trans with
      (VObject [("id", VNumber 7); ("label", VString "z")]).
    { apply (@shape_field [("id", VNumber 7)] "label"). apply shape_string. }
    apply shape_keys.
    + apply perm_swap.
    + repeat constructor; simpl; intuition discriminate.
Defined.

(** ** Reading a generated artifact back *)

Lemma scan_plain s : forall rest i braceCount inString,
  all_chars plain_char s = true ->
  match_braces (s ++ rest) i braceCount inString false
  = match_braces rest (i + String.length s) braceCount inString false.
Proof.
  induction s as [ | c r IH ]; intros rest i braceCount inString H.
  - cbn [append String.length]. now rewrite Nat.add_0_r.
  - cbn [all_chars] in H. apply andb_true_iff in H. destruct H as [Hc Hr].
    cbn [append String.length match_braces].
    unfold plain_char in Hc. apply negb_true_iff in Hc.
    apply orb_false_iff in Hc. destruct Hc as [Hc H92].
    apply orb_false_iff in Hc. destruct Hc as [Hc H34].
    apply orb_false_iff in Hc. destruct Hc as [H123 H125].
    rewrite H92, H34, H123, H125, andb_false_r.
    replace (i + S (String.length r)) with (S i + String.length r) by lia.
    destruct inString; cbn [negb]; now apply IH.
Qed.

Lemma scanned_through_plain s : all_chars plain_char s = true -> scanned_through s.
Proof. intros H rest i braceCount _. now apply scan_plain. Qed.

Lemma scanned_through_app a b :
  scanned_through a -> scanned_through b -> scanned_through (a ++ b).
Proof.
  intros Ha Hb rest i braceCount Hc.
  rewrite append_assoc, Ha, Hb, length_append by assumption.
  f_equal. lia.
Qed.

Lemma scan_escaped_char c rest i braceCount :
  match_braces (json_escape c ++ rest) i braceCount true false
  = match_braces rest (String.length (json_escape c) + i) braceCount true false.
Proof.
  destruct c as [[] [] [] [] [] [] [] []]; reflexivity.
Qed.

Lemma scan_escaped s : forall rest i braceCount,
  match_braces (json_escape_all s ++ rest) i braceCount true false
  = match_braces rest (i + String.length (json_escape_all s)) braceCount true false.
Proof.
  induction s as [ | c r IH ]; intros rest i braceCount.
  - cbn [json_escape_all append String.length]. now rewrite Nat.add_0_r.
  - cbn [json_escape_all].
    rewrite append_assoc, scan_escaped_char, IH, length_append. f_equal. lia.
Qed.

Lemma scanned_through_quote s : scanned_through (json_quote s).
Proof.
  intros rest i braceCount _. unfold json_quote, dquote.
  rewrite !append_assoc.
  cbn [append match_braces nat_of_ascii ascii_of_nat].
  change (nat_of_ascii (ascii_of_nat 34)) with 34.
  cbn [Nat.eqb negb]. rewrite scan_escaped.
  cbn [match_braces]. change (nat_of_ascii (ascii_of_nat 34)) with 34.
  cbn [Nat.eqb negb append]. f_equal.
  cbn [String.length]. rewrite length_append. cbn [String.length]. lia.
Qed.

Lemma plain_uint u : all_chars plain_char (NilEmpty.string_of_uint u) = true.
Proof. induction u; simpl; auto. Qed.

Lemma plain_number n : all_chars plain_char (string_of_Z n) = true.
Proof.
  unfold string_of_Z, NilEmpty.string_of_int.
  destruct (Z.to_int n) as [ u | u ]; [ apply plain_uint | ].
  cbn [all_chars]. now rewrite plain_uint.
Qed.

Lemma scanned_through_join sep parts :
  all_chars plain_char sep = true ->
  Forall scanned_through parts -> scanned_through (join sep parts).
Proof.
  intros Hs. induction 1 as [ | x r Hx Hr IH ].
  - apply scanned_through_plain. reflexivity.
  - destruct r as [ | y r' ]; [ exact Hx | ].
    change (join sep (x :: y :: r')) with (x ++ sep ++ join sep (y :: r'))%string.
    apply scanned_through_app; [ exact Hx | ].
    apply scanned_through_app; [ now apply scanned_through_plain | exact IH ].
Qed.

(** an object or an array between its brackets *)
Lemma scanned_through_braces body :
  scanned_through body -> scanned_through ("{" ++ body ++ "}").
Proof.
  intros Hb rest i braceCount Hc.
  rewrite !append_assoc. cbn [append match_braces].
  change (nat_of_ascii "{") with 123. cbn [Nat.eqb negb andb].
  rewrite andb_false_r.
  rewrite Hb by lia. cbn [append match_braces].
  change (nat_of_ascii "}") with 125. cbn [Nat.eqb negb].
  replace (braceCount + 1 - 1)%Z with braceCount by lia.
  destruct (braceCount =? 0)%Z eqn:E; [ apply Z.eqb_eq in E; lia | ].
  cbn [andb]. f_equal. cbn [String.length]. rewrite length_append.
  cbn [String.length]. lia.
Qed.

Lemma stringify_items inner l :
  (fix items (l : list value) : list string :=
     match l with
     | [] => []
     | x :: r =>
         match stringify inner x with
         | Some t => t
         | None => "null"
         end :: items r
     end) l
  = map (fun x => match stringify inner x with Some t => t | None => "null" end) l.
Proof. induction l as [ | x r IH ]; simpl; congruence. Qed.

Lemma stringify_members inner fs :
  (fix members (fs : list (string * value)) : list string :=
     match fs with
     | [] => []
     | (k, x) :: r =>
         match stringify inner x with
         | Some t => (json_quote k ++ ": " ++ t)%string :: members r
         | None => members r
         end
     end) fs
  = flat_map
      (fun kv =>
         match stringify inner (snd kv) with
         | Some t => [(json_quote (fst kv) ++ ": " ++ t)%string]
         | None => []
         end) fs.
Proof.
  induction fs as [ | [k x] r IH ]; [ reflexivity | ].
  cbn [flat_map fst snd]. rewrite <- IH.
  destruct (stringify inner x); reflexivity.
Qed.

Lemma plain_app (a b : string) :
  all_chars plain_char a = true -> all_chars plain_char b = true ->
  all_chars plain_char (a ++ b) = true.
Proof. intros Ha Hb. now rewrite all_chars_app, Ha, Hb. Qed.

(** the members of an object, between the braces *)
Lemma scanned_through_block inner indent parts :
  all_chars plain_char inner = true -> all_chars plain_char indent = true ->
  Forall scanned_through parts ->
  scanned_through (nl ++ inner ++ join ("," ++ nl ++ inner) parts ++ nl ++ indent).
Proof.
  intros Hi Hd Hp.
  apply scanned_through_app; [ now apply scanned_through_plain | ].
  apply scanned_through_app; [ now apply scanned_through_plain | ].
  apply scanned_through_app.
  - apply scanned_through_join; [ | exact Hp ].
    apply plain_app; [ reflexivity | ]. now apply plain_app.
  - apply scanned_through_app; now apply scanned_through_plain.
Qed.

Lemma scanned_through_array_text inner indent parts :
  all_chars plain_char inner = true -> all_chars plain_char indent = true ->
  Forall scanned_through parts ->
  scanned_through
    ("[" ++ nl ++ inner ++ join ("," ++ nl ++ inner) parts ++ nl ++ indent ++ "]").
Proof.
  intros Hi Hd Hp.
  apply (@scanned_through_app "["); [ now apply scanned_through_plain | ].
  replace (nl ++ inner ++ join ("," ++ nl ++ inner) parts ++ nl ++ indent ++ "]")%string
    with ((nl ++ inner ++ join ("," ++ nl ++ inner) parts ++ nl ++ indent) ++ "]")%string
    by (now rewrite !append_assoc).
  apply scanned_through_app; [ | now apply scanned_through_plain ].
  now apply scanned_through_block.
Qed.

Lemma scanned_through_object_text inner indent parts :
  all_chars plain_char inner = true -> all_chars plain_char indent = true ->
  Forall scanned_through parts ->
  scanned_through
    ("{" ++ nl ++ inner ++ join ("," ++ nl ++ inner) parts ++ nl ++ indent ++ "}").
Proof.
  intros Hi Hd Hp.
  replace ("{" ++ nl ++ inner ++ join ("," ++ nl ++ inner) parts ++ nl ++ indent ++ "}")%string
    with ("{" ++ (nl ++ inner ++ join ("," ++ nl ++ inner) parts ++ nl ++ indent) ++ "}")%string
    by (now rewrite !append_assoc).
  apply scanned_through_braces. now apply scanned_through_block.
Qed.

Lemma stringify_scanned v : forall indent t,
  all_chars plain_char indent = true ->
  stringify indent v = Some t -> scanned_through t.
Proof.
  induction v as [ | | b | n | s | l IH | fs IH ] using value_ind';
    intros indent t Hi; cbn [stringify].
  - discriminate.
  - intros E. injection E as <-. now apply scanned_through_plain.
  - destruct b; intros E; injection E as <-; now apply scanned_through_plain.
  - intros E. injection E as <-. apply scanned_through_plain, plain_number.
  - intros E. injection E as <-. apply scanned_through_quote.
  - rewrite stringify_items. intros E. apply some_inj in E. subst t.
    assert (Hin : all_chars plain_char (indent ++ gap) = true)
      by (apply plain_app; [ assumption | reflexivity ]).
    assert (Hp : Forall scanned_through
                   (map (fun x => match stringify (indent ++ gap) x with
                                  | Some t => t
                                  | None => "null"
                                  end) l)).
    { clear -IH Hin. induction IH as [ | x r Hx Hr IHr ]; constructor; [ | exact IHr ].
      destruct (stringify (indent ++ gap) x) as [ t | ] eqn:E.
      - eapply Hx; [ exact Hin | exact E ].
      - now apply scanned_through_plain. }
    revert Hp.
    generalize (map (fun x => match stringify (indent ++ gap) x with
                              | Some t => t
                              | None => "null"
                              end) l).
    intros [ | p ps ] Hp; [ now apply scanned_through_plain | ].
    now apply (@scanned_through_array_text (indent ++ gap) indent (p :: ps)).
  - rewrite stringify_members. intros E. apply some_inj in E. subst t.
    assert (Hin : all_chars plain_char (indent ++ gap) = true)
      by (apply plain_app; [ assumption | reflexivity ]).
    assert (Hp : Forall scanned_through
                   (flat_map
                      (fun kv =>
                         match stringify (indent ++ gap) (snd kv) with
                         | Some t => [(json_quote (fst kv) ++ ": " ++ t)%string]
                         | None => []
                         end) fs)).
    { clear -IH Hin. induction IH as [ | kv r Hx Hr IHr ]; [ constructor | ].
      cbn [flat_map]. apply Forall_app. split; [ | exact IHr ].
      destruct (stringify (indent ++ gap) (snd kv)) as [ t | ] eqn:E; constructor;
        [ | constructor ].
      apply scanned_through_app; [ apply scanned_through_quote | ].
      apply scanned_through_app; [ now apply scanned_through_plain | ].
      eapply Hx; [ exact Hin | exact E ]. }
    revert Hp.
    generalize (flat_map
                  (fun kv =>
                     match stringify (indent ++ gap) (snd kv) with
                     | Some t => [(json_quote (fst kv) ++ ": " ++ t)%string]
                     | None => []
                     end) fs).
    intros [ | p ps ] Hp.
    + apply (@scanned_through_braces EmptyString). now apply scanned_through_plain.
    + now apply (@scanned_through_object_text (indent ++ gap) indent (p :: ps)).
Qed.

(** the outermost object: the matching stops right after its closing brace *)
Lemma scan_top_object fs text rest i :
  stringify EmptyString (VObject fs) = Some text ->
  match_braces (text ++ rest) i 0 false false = Some (i + String.length text)
  /\ exists r, text = String "{" r.
Proof.
  cbn [stringify]. rewrite stringify_members. intros E. apply some_inj in E. subst text.
  assert (Hp : Forall scanned_through
                 (flat_map
                    (fun kv =>
                       match stringify (EmptyString ++ gap) (snd kv) with
                       | Some t => [(json_quote (fst kv) ++ ": " ++ t)%string]
                       | None => []
                       end) fs)).
  { induction fs as [ | kv r IH ]; [ constructor | ].
    cbn [flat_map]. apply Forall_app. split; [ | exact IH ].
    destruct (stringify (EmptyString ++ gap) (snd kv)) as [ t | ] eqn:E; constructor;
      [ | constructor ].
    apply scanned_through_app; [ apply scanned_through_quote | ].
    apply scanned_through_app; [ now apply scanned_through_plain | ].
    eapply stringify_scanned; [ | exact E ]. reflexivity. }
  revert Hp.
  generalize (flat_map
                (fun kv =>
                   match stringify (EmptyString ++ gap) (snd kv) with
                   | Some t => [(json_quote (fst kv) ++ ": " ++ t)%string]
                   | None => []
                   end) fs).
  intros parts Hp.
  assert (Hb : forall body,
             scanned_through body ->
             match_braces (("{" ++ body ++ "}") ++ rest) i 0 false false
             = Some (i + String.length ("{" ++ body ++ "}"))).
  { intros body Hbody. rewrite !append_assoc. cbn [append match_braces].
    change (nat_of_ascii "{") with 123. cbn [Nat.eqb negb andb Z.add Z.eqb].
    rewrite Hbody by lia. cbn [append match_braces].
    change (nat_of_ascii "}") with 125. cbn [Nat.eqb negb andb Z.sub Z.add Z.opp Z.eqb Z.pos_sub].
    f_equal. cbn [String.length]. rewrite length_append. cbn [String.length]. lia. }
  destruct parts as [ | p ps ].
  - split; [ | eauto ].
    apply (Hb EmptyString). now apply scanned_through_plain.
  - split; [ | eexists; reflexivity ].
    replace ("{" ++ nl ++ (EmptyString ++ gap)
             ++ join ("," ++ nl ++ EmptyString ++ gap) (p :: ps)
             ++ nl ++ EmptyString ++ "}")%string
      with ("{" ++ (nl ++ (EmptyString ++ gap)
                    ++ join ("," ++ nl ++ EmptyString ++ gap) (p :: ps)
                    ++ nl ++ EmptyString) ++ "}")%string
      by (now rewrite !append_assoc).
    apply Hb.
    now apply (@scanned_through_block (EmptyString ++ gap) EmptyString (p :: ps)).
Qed.

Lemma lacks_app c (a b : string) : lacks c (a ++ b) = lacks c a && lacks c b.
Proof.
  induction a as [ | d r IH ]; simpl; [ reflexivity | ].
  now rewrite IH, andb_assoc.
Qed.

Lemma word_lacks c n : is_word c = false -> all_word n = true -> lacks c n = true.
Proof.
  intros Hc. induction n as [ | d r IH ]; simpl; [ reflexivity | ].
  intros H. apply andb_true_iff in H. destruct H as [Hd Hr].
  rewrite (IH Hr), andb_true_r. apply negb_true_iff.
  destruct (Ascii.eqb c d) eqn:E; [ | reflexivity ].
  apply Ascii.eqb_eq in E. congruence.
Qed.

Lemma hex_lacks c h :
  is_lower_hex c = false -> all_chars is_lower_hex h = true -> lacks c h = true.
Proof.
  intros Hc. induction h as [ | d r IH ]; simpl; [ reflexivity | ].
  intros H. apply andb_true_iff in H. destruct H as [Hd Hr].
  rewrite (IH Hr), andb_true_r. apply negb_true_iff.
  destruct (Ascii.eqb c d) eqn:E; [ | reflexivity ].
  apply Ascii.eqb_eq in E. congruence.
Qed.

(** [indexOf] of a pattern whose first character does not occur before *)
Lemma index_from_lacks c (p pre : string) : forall i rest,
  lacks c pre = true ->
  drop_prefix (String c p) rest <> None ->
  index_from i (String c p) (pre ++ rest) = Some (i + String.length pre).
Proof.
  induction pre as [ | d r IH ]; intros i rest Hl Hd.
  - cbn [append String.length]. rewrite Nat.add_0_r.
    destruct rest as [ | e rest' ]; cbn [index_from].
    + destruct (drop_prefix (String c p) EmptyString); congruence.
    + destruct (drop_prefix (String c p) (String e rest')); congruence.
  - cbn [lacks] in Hl. apply andb_true_iff in Hl. destruct Hl as [Hc Hl].
    apply negb_true_iff in Hc.
    cbn [append String.length index_from drop_prefix]. rewrite Hc.
    rewrite IH by assumption. f_equal. lia.
Qed.

Lemma substring_skip (a b : string) : forall n,
  substring (String.length a) n (a ++ b) = substring 0 n b.
Proof. induction a as [ | c r IH ]; intros n; simpl; [ reflexivity | apply IH ]. Qed.

Lemma substring_middle (a b c : string) :
  substring (String.length a) (String.length b) (a ++ b ++ c) = b.
Proof. rewrite substring_skip. apply substring_head. Qed.

(** the text [getMockData] cuts out of a generated artifact *)
Lemma parsed_text_of_artifact (JSON_parse : string -> option value) name fields t
    content text :
  all_word name = true ->
  lacks "=" t = true ->
  mock_source (VString name) (VObject fields) t = Some content ->
  JSON_stringify_2 (VObject fields) = Some text ->
  getMockData JSON_parse (Some content)
  = try_catch (let? mockObject := JSON_parse text in get_prop mockObject "data") VNull.
Proof.
  intros Hn Ht Hs Htext.
  unfold mock_source in Hs.
  destruct (generateSchemaHash (VObject fields)) as [ h | ] eqn:Hh; [ | discriminate ].
  rewrite Htext in Hs. cbn [interpolate to_js_string] in Hs.
  apply some_inj in Hs.
  destruct (schema_hash_lower _ Hh) as [Hlow _].
  set (post := (";" ++ nl ++ nl ++ "export const metadata = "
                ++ interpolate
                     (JSON_stringify_2
                        (VObject [("operationName", VString name);
                                  ("schemaHash", VString h);
                                  ("lastUpdated", VString t)]))
                ++ ";" ++ nl)%string) in Hs.
  set (pre := ("// Auto-generated from HAR file" ++ nl
               ++ "// Operation: " ++ name ++ nl
               ++ "// Schema Hash: " ++ h ++ nl
               ++ "// Last Updated: " ++ t ++ nl
               ++ nl
               ++ "export const " ++ name ++ "Mock ")%string).
  assert (Hc : content = ((pre ++ "= ") ++ text ++ post)%string).
  { rewrite <- Hs. subst pre. rewrite !append_assoc. reflexivity. }
  assert (Hpre : lacks "=" pre = true).
  { subst pre. unfold nl.
    rewrite !lacks_app, Ht, (word_lacks "=" name eq_refl Hn),
      (hex_lacks "=" h eq_refl Hlow).
    reflexivity. }
  destruct (@scan_top_object fields text post (String.length (pre ++ "= ")) Htext)
    as [Hscan [r Hr]].
  assert (Hi : indexOf content "= {" = Some (String.length pre)).
  { rewrite Hc, append_assoc. unfold indexOf.
    rewrite (index_from_lacks "=" " {" pre 0); [ reflexivity | exact Hpre | ].
    rewrite Hr. discriminate. }
  assert (Hlen : String.length (pre ++ "= ") = String.length pre + 2).
  { rewrite length_append. reflexivity. }
  unfold getMockData. rewrite Hi. rewrite <- Hlen.
  assert (Hsub : substring (String.length (pre ++ "= "))
                   (String.length content - String.length (pre ++ "= ")) content
                 = (text ++ post)%string).
  { rewrite Hc.
    replace (String.length ((pre ++ "= ") ++ text ++ post)
             - String.length (pre ++ "= "))
      with (String.length (text ++ post))
      by (rewrite (length_append (pre ++ "= ")); lia).
    apply substring_tail. }
  rewrite Hsub, Hscan.
  replace (String.length (pre ++ "= ") + String.length text
           - String.length (pre ++ "= "))
    with (String.length text) by lia.
  rewrite Hc, substring_middle. reflexivity.
Qed.

(** X13: the validator reads a generated artifact back: for an operation
    with a name of word characters, a response that is an object and a time
    stamp without an equals sign, the text that [getMockData] cuts out of
    the artifact and hands to [JSON.parse] is exactly the text
    [JSON.stringify] gave for the response; so when [JSON.parse] inverts
    [JSON.stringify] on the response, the stored data is the [data] member
    of the response. *)
Theorem getMockData_reads_generated_artifact :
  forall (JSON_parse : string -> option value) (name : string)
         (fields : list (string * value)) (lastUpdated content text : string),
    all_word name = true ->
    lacks "=" lastUpdated = true ->
    mock_source (VString name) (VObject fields) lastUpdated = Some content ->
    JSON_stringify_2 (VObject fields) = Some text ->
    getMockData JSON_parse (Some content)
    = try_catch (let? mockObject := JSON_parse text in get_prop mockObject "data") VNull
    /\ (JSON_parse text = Some (VObject fields) ->
        getMockData JSON_parse (Some content)
        = match assoc "data" fields with Some d => d | None => VUndefined end).
Proof.
  intros JSON_parse name fields t content text Hn Ht Hs Htext.
  pose proof (@parsed_text_of_artifact JSON_parse name fields t content text
                Hn Ht Hs Htext) as Hmain.
  split; [ exact Hmain | ].
  intros Hp. rewrite Hmain, Hp. reflexivity.
Qed.

(** X13, on an instance: the artifact of GetCountry of the drift scenario. *)
Lemma getMockData_reads_generated_artifact_witness :
  getMockData json_parse
    (mock_source (VString "GetCountry") stored_country "2026-01-03T10:33:05.134Z")
  = VObject [("country",
      VObject [("code", VString "US"); ("name", VString "United States")])].
Proof.
  destruct (mock_source (VString "GetCountry") stored_country
              "2026-01-03T10:33:05.134Z") as [ content | ] eqn:Hs;
    [ | vm_compute in Hs; discriminate ].
  destruct (JSON_stringify_2 stored_country) as [ text | ] eqn:Htext;
    [ | vm_compute in Htext; discriminate ].
  apply (proj2 (@getMockData_reads_generated_artifact json_parse "GetCountry"
                  [("data", VObject [("country",
                      VObject [("code", VString "US");
                               ("name", VString "United States")])])]
                  "2026-01-03T10:33:05.134Z" content text
                  eq_refl eq_refl Hs Htext)).
  vm_compute in Htext. apply some_inj in Htext. subst text.
  vm_compute. reflexivity.
Defined.

(** ** Merging twice, and where the merged entries come from *)

Lemma map_get_reflexive (V : Type) k (v : V) (m : list (value * V)) :
  map_get same_value_zero k m = Some v -> same_value_zero k k = true.
Proof.
  induction m as [ | [k0 v0] r IH ]; cbn [map_get]; [ discriminate | ].
  destruct (same_value_zero k k0) eqn:E; [ | exact IH ].
  intros _. pose proof (same_value_zero_eq _ _ E). now subst.
Qed.

Lemma map_get_unique (V : Type) k (v v' : V) (m : list (value * V)) :
  unique_keys same_value_zero (map fst m) = true ->
  In (k, v) m -> map_get same_value_zero k m = Some v' -> v' = v.
Proof.
  induction m as [ | [k0 v0] r IH ]; [ intros _ [] | ].
  cbn [map fst unique_keys map_get]. intros Hu Hin Hg.
  apply andb_true_iff in Hu. destruct Hu as [Hk0 Hu]. apply negb_true_iff in Hk0.
  destruct (same_value_zero k k0) eqn:E.
  - pose proof (same_value_zero_eq _ _ E). subst k0.
    destruct Hin as [ Hin | Hin ]; [ congruence | ].
    exfalso. unfold set_has in Hk0.
    assert (Ht : existsb (same_value_zero k) (map fst r) = true).
    { apply existsb_exists. exists k. split; [ | exact E ].
      apply in_map_iff. exists (k, v). auto. }
    congruence.
  - destruct Hin as [ Hin | Hin ]; [ | now apply IH ].
    inversion Hin; subst. apply map_get_reflexive in Hg. congruence.
Qed.

Section MergeAgain.
Variable JSON_parse : string -> option value.

Lemma newOpMap_unique newEntries :
  unique_keys same_value_zero (map fst (build_newOpMap JSON_parse newEntries)) = true.
Proof.
  rewrite keys_newOpMap.
  apply (unique_first_by same_value_zero fst same_value_zero_eq).
Qed.

(** an entry of the map is its own replacement *)
Lemma replace_map_entry newEntries c :
  In c (build_newOpMap JSON_parse newEntries) ->
  replace_or_keep JSON_parse (build_newOpMap JSON_parse newEntries) (snd c) = snd c.
Proof.
  intros Hc. pose proof (@newOpMap_sound JSON_parse newEntries c Hc) as Hn.
  apply entry_name_body in Hn. destruct Hn as [Hb _].
  unfold replace_or_keep. rewrite Hb.
  destruct (map_get same_value_zero (fst c) (build_newOpMap JSON_parse newEntries))
    as [ u | ] eqn:Hg; [ | reflexivity ].
  destruct c as [k v]. simpl in *.
  eapply map_get_unique; [ apply newOpMap_unique | exact Hc | exact Hg ].
Qed.

Lemma replace_twice newEntries e :
  replace_or_keep JSON_parse (build_newOpMap JSON_parse newEntries)
    (replace_or_keep JSON_parse (build_newOpMap JSON_parse newEntries) e)
  = replace_or_keep JSON_parse (build_newOpMap JSON_parse newEntries) e.
Proof.
  unfold replace_or_keep at 2 3.
  destruct (body_operationName JSON_parse e) as [ k | ] eqn:Hb.
  - destruct (map_get same_value_zero k (build_newOpMap JSON_parse newEntries))
      as [ u | ] eqn:Hg.
    + apply (map_get_In same_value_zero same_value_zero_eq) in Hg.
      apply (@replace_map_entry newEntries (k, u) Hg).
    + unfold replace_or_keep. now rewrite Hb, Hg.
  - unfold replace_or_keep. now rewrite Hb.
Qed.

Lemma named_entries_from newEntries c :
  In c (named_entries JSON_parse newEntries) -> In (snd c) newEntries.
Proof.
  unfold named_entries. rewrite in_flat_map. intros (e & He & H).
  destruct (entry_name JSON_parse e); simpl in H; [ | contradiction ].
  destruct H as [ <- | [] ]. exact He.
Qed.

(** the entries of the map are entries of the new capture *)
Lemma newOpMap_from newEntries c :
  In c (build_newOpMap JSON_parse newEntries) -> In (snd c) newEntries.
Proof.
  rewrite build_newOpMap_spec,
    (fold_store_first_latest same_value_zero same_value_zero_eq).
  rewrite in_map_iff. intros (d & <- & Hd). simpl.
  apply incl_filter_first_by in Hd.
  destruct (latest_In _ _ Hd) as [Hin _].
  now apply named_entries_from.
Qed.

Lemma newOpMap_keys_named newEntries k :
  In k (map fst (build_newOpMap JSON_parse newEntries)) ->
  In k (entry_names JSON_parse newEntries).
Proof.
  rewrite keys_newOpMap. unfold entry_names. rewrite !in_map_iff.
  intros (c & <- & Hc). exists c. split; [ reflexivity | ].
  eapply incl_filter_first_by, Hc.
Qed.

Lemma merge_again existing newEntries :
  forallb primitive (entry_names JSON_parse newEntries) = true ->
  merge_entries JSON_parse (merge_entries JSON_parse existing newEntries) newEntries
  = merge_entries JSON_parse existing newEntries.
Proof.
  intros Hprim.
  rewrite (merge_entries_spec JSON_parse (merge_entries JSON_parse existing newEntries)).
  set (M := build_newOpMap JSON_parse newEntries).
  assert (Hnone :
            filter (fun c => is_brand_new JSON_parse
                               (merge_entries JSON_parse existing newEntries) (fst c)) M
            = []).
  { apply filter_nil. intros c Hc. unfold is_brand_new. apply negb_false_iff.
    rewrite merged_names, set_has_app.
    destruct (set_has same_value_zero (fst c) (entry_names JSON_parse existing))
      eqn:He; [ reflexivity | ].
    cbn [orb]. unfold set_has. apply existsb_exists. exists (fst c). split.
    - unfold brand_new. rewrite <- keys_newOpMap. apply filter_In. split.
      + now apply in_map.
      + unfold is_brand_new. now rewrite He.
    - apply same_value_zero_refl.
      rewrite forallb_forall in Hprim. apply Hprim.
      apply newOpMap_keys_named. now apply in_map. }
  rewrite Hnone. cbn [map]. rewrite app_nil_r.
  rewrite merge_entries_spec. fold M. rewrite map_app, map_map. f_equal.
  - apply map_ext. intros e. apply replace_twice.
  - rewrite map_map. apply map_ext_in. intros c Hc.
    apply filter_In in Hc. destruct Hc as [Hc _].
    now apply replace_map_entry.
Qed.

Lemma merge_sources existing newEntries e :
  In e (merge_entries JSON_parse existing newEntries) ->
  In e existing
  \/ In e newEntries /\ exists k, entry_name JSON_parse e = Some k.
Proof.
  rewrite merge_entries_spec, in_app_iff, !in_map_iff.
  intros [ (e0 & <- & He0) | (c & <- & Hc) ].
  - unfold replace_or_keep.
    destruct (body_operationName JSON_parse e0) as [ k | ]; [ | now left ].
    destruct (map_get same_value_zero k (build_newOpMap JSON_parse newEntries))
      as [ u | ] eqn:Hg; [ | now left ].
    apply (map_get_In same_value_zero same_value_zero_eq) in Hg. right. split.
    + apply (@newOpMap_from newEntries (k, u) Hg).
    + exists k. apply (@newOpMap_sound JSON_parse newEntries (k, u) Hg).
  - apply filter_In in Hc. destruct Hc as [Hc _]. right. split.
    + now apply newOpMap_from.
    + exists (fst c). now apply (@newOpMap_sound JSON_parse newEntries c).
Qed.

Lemma merge_keeps existing newEntries e :
  In e existing ->
  In (replace_or_keep JSON_parse (build_newOpMap JSON_parse newEntries) e)
    (merge_entries JSON_parse existing newEntries).
Proof.
  intros He. rewrite merge_entries_spec, in_app_iff. left. now apply in_map.
Qed.
End MergeAgain.

(** X14: merging is idempotent on the entries: when the names of the new
    capture are primitive values (strings, as GraphQL names are), merging
    the same new capture into the merged capture once more changes
    nothing. *)
Theorem merge_is_idempotent :
  forall (JSON_parse : string -> option value)
         (existingEntries newEntries merged : list HarEntry)
         (newOps updatedOps : list value),
    forallb primitive (entry_names JSON_parse newEntries) = true ->
    mergeHarFiles JSON_parse (HarLog existingEntries) (HarLog newEntries)
    = Merged merged newOps updatedOps ->
    merge_entries JSON_parse merged newEntries = merged
    /\ exists newOps' updatedOps',
         mergeHarFiles JSON_parse (HarLog merged) (HarLog newEntries)
         = Merged merged newOps' updatedOps'.
Proof.
  intros JSON_parse existing newEntries merged newOps updatedOps Hprim Hm.
  assert (E : merged = merge_entries JSON_parse existing newEntries).
  { destruct (mergeHarFiles_entries JSON_parse existing newEntries)
      as [ H | (n & u & H) ]; rewrite H in Hm; [ discriminate | ].
    now inversion Hm. }
  assert (Hagain : merge_entries JSON_parse merged newEntries = merged)
    by (rewrite E; now apply merge_again).
  split; [ exact Hagain | ].
  destruct (mergeHarFiles_entries JSON_parse merged newEntries)
    as [ H | (n & u & H) ].
  - exfalso. unfold mergeHarFiles in H, Hm.
    destruct (length _ =? 0); discriminate.
  - exists n, u. now rewrite H, Hagain.
Qed.

(** X14, on an instance: a capture of GetThing and GetOther merged twice
    with a new capture of GetThing (sent twice) and GetContinent. *)
Lemma merge_is_idempotent_witness :
  merge_entries json_parse
    [getThing_retry; getOther_exchange; getContinent_exchange]
    [getThing_exchange; getThing_retry; getContinent_exchange]
  = [getThing_retry; getOther_exchange; getContinent_exchange].
Proof.
  apply (@merge_is_idempotent json_parse [getThing_stored; getOther_exchange]
           [getThing_exchange; getThing_retry; getContinent_exchange]
           [getThing_retry; getOther_exchange; getContinent_exchange]
           [VString "GetContinent"] [VString "GetThing"]).
  - vm_compute. reflexivity.
  - vm_compute. reflexivity.
Defined.

Lemma find_app_none (A : Type) (f : A -> bool) (a b : list A) :
  find f a = None -> find f (a ++ b) = find f b.
Proof.
  induction a as [ | x r IH ]; simpl; [ reflexivity | ].
  destruct (f x); [ discriminate | exact IH ].
Qed.

Lemma find_none_iff (A : Type) (f : A -> bool) (l : list A) :
  existsb f l = false -> find f l = None.
Proof.
  induction l as [ | x r IH ]; simpl; [ reflexivity | ].
  destruct (f x); [ discriminate | exact IH ].
Qed.

Lemma existsb_rev (A : Type) (f : A -> bool) (l : list A) :
  existsb f (rev l) = existsb f l.
Proof.
  induction l as [ | x r IH ]; simpl; [ reflexivity | ].
  rewrite existsb_app, IH. simpl. rewrite orb_false_r. apply orb_comm.
Qed.

Lemma existsb_of_map (A B : Type) (f : B -> bool) (g : A -> B) (l : list A) :
  existsb f (map g l) = existsb (fun x => f (g x)) l.
Proof. induction l as [ | x r IH ]; simpl; [ reflexivity | now rewrite IH ]. Qed.

(** no element under the key: nothing is found *)
Lemma last_with_absent (A : Type) (l : list (value * A)) k :
  set_has same_value_zero k (map fst l) = false ->
  last_with same_value_zero fst l k = None.
Proof.
  intros H. unfold last_with. apply find_none_iff.
  rewrite existsb_rev. unfold set_has in H. now rewrite existsb_of_map in H.
Qed.

(** the last element under the key is the one after which the key does
    not come again *)
Lemma last_with_split (A : Type) (before after : list (value * A)) c k :
  same_value_zero k (fst c) = true ->
  set_has same_value_zero k (map fst after) = false ->
  last_with same_value_zero fst (before ++ c :: after) k = Some c.
Proof.
  intros Hc Ha. unfold last_with.
  rewrite rev_app_distr. cbn [rev]. rewrite <- app_assoc. cbn [app].
  rewrite find_app_none.
  - cbn [find]. now rewrite Hc.
  - apply find_none_iff. rewrite existsb_rev.
    unfold set_has in Ha. now rewrite existsb_of_map in Ha.
Qed.

Section MergePositions.
Variable JSON_parse : string -> option value.

Lemma named_entries_app a b :
  named_entries JSON_parse (a ++ b)
  = named_entries JSON_parse a ++ named_entries JSON_parse b.
Proof. unfold named_entries. apply flat_map_app. Qed.

(** a name under which the new capture files an entry is truthy and is
    not IntrospectionQuery *)
Lemma filed_name newEntries k :
  set_has same_value_zero k (entry_names JSON_parse newEntries) = true ->
  truthy k = true /\ is_string k INTROSPECTION = false.
Proof.
  unfold set_has, entry_names. intros H.
  apply existsb_exists in H. destruct H as (k' & Hin & E).
  apply same_value_zero_eq in E. subst k'.
  apply in_map_iff in Hin. destruct Hin as (c & <- & Hc).
  apply named_entries_sound, entry_name_body in Hc. destruct Hc as [_ Hc].
  apply andb_true_iff in Hc. destruct Hc as [Ht Hi].
  apply negb_true_iff in Hi. auto.
Qed.

(** what stands at the position of a stored entry *)
Lemma merged_position existing newEntries i e :
  nth_error existing i = Some e ->
  nth_error (merge_entries JSON_parse existing newEntries) i
  = Some match body_operationName JSON_parse e with
         | Some k =>
             match last_with same_value_zero fst
                     (named_entries JSON_parse newEntries) k with
             | Some c => snd c
             | None => e
             end
         | None => e
         end.
Proof.
  intros Hi. rewrite merge_entries_spec.
  assert (Hlt : i < length existing) by (apply nth_error_Some; congruence).
  rewrite nth_error_app1 by (now rewrite length_map).
  rewrite nth_error_map, Hi. cbn [option_map]. f_equal.
  unfold replace_or_keep.
  destruct (body_operationName JSON_parse e) as [ k | ]; [ | reflexivity ].
  rewrite build_newOpMap_spec,
    (map_get_fold_store same_value_zero same_value_zero_eq).
  now destruct (last_with same_value_zero fst
                  (named_entries JSON_parse newEntries) k).
Qed.
End MergePositions.

(** X15: the merged capture holds nothing but entries of the two captures:
    an entry either was in the stored capture, or is an entry of the new
    capture that carries a name (so page loads, bodiless requests and
    IntrospectionQuery exchanges of the new capture never get in).  The
    stored entries keep their positions, and what stands at the position
    of a stored entry is decided by the name its body carries: when the
    new capture files an entry under that name (a primitive value, as
    strings are), the last such entry of the new capture stands there; in
    every other case (a body that is absent or does not parse, a name
    under which the new capture files nothing, in particular a falsy name
    and IntrospectionQuery) the stored entry itself.  The two cases are
    all there is: a name is filed exactly when some entry of the new
    capture is the last to carry it. *)
Theorem merge_sources_and_survivors :
  forall (JSON_parse : string -> option value)
         (existingEntries newEntries : list HarEntry),
    let merged := merge_entries JSON_parse existingEntries newEntries in
    let filed k := set_has same_value_zero k (entry_names JSON_parse newEntries) in
    (forall e, In e merged ->
       In e existingEntries
       \/ In e newEntries
          /\ exists k, entry_name JSON_parse e = Some k
                       /\ truthy k = true /\ is_string k INTROSPECTION = false)
    /\ (forall i e k before u after,
          nth_error existingEntries i = Some e ->
          body_operationName JSON_parse e = Some k ->
          primitive k = true ->
          newEntries = before ++ u :: after ->
          entry_name JSON_parse u = Some k ->
          set_has same_value_zero k (entry_names JSON_parse after) = false ->
          nth_error merged i = Some u)
    /\ (forall i e k,
          nth_error existingEntries i = Some e ->
          body_operationName JSON_parse e = Some k ->
          filed k = false ->
          nth_error merged i = Some e)
    /\ (forall i e,
          nth_error existingEntries i = Some e ->
          body_operationName JSON_parse e = None ->
          nth_error merged i = Some e)
    /\ (forall k, filed k = true ->
          primitive k = true /\ truthy k = true /\ is_string k INTROSPECTION = false
          /\ exists before u after,
               newEntries = before ++ u :: after
               /\ entry_name JSON_parse u = Some k
               /\ set_has same_value_zero k (entry_names JSON_parse after) = false).
Proof.
  intros JSON_parse existing newEntries merged filed. subst merged filed.
  split; [ | split; [ | split; [ | split ] ] ].
  - intros e He.
    destruct (@merge_sources JSON_parse existing newEntries e He) as [ H | (H & k & Hk) ];
      [ now left | right ].
    split; [ exact H | ]. exists k. split; [ exact Hk | ].
    apply entry_name_body in Hk. destruct Hk as [_ Hk].
    apply andb_true_iff in Hk. destruct Hk as [Ht Hi].
    apply negb_true_iff in Hi. auto.
  - intros i e k before u after Hi Hb Hprim -> Hu Hafter.
    rewrite (merged_position JSON_parse existing _ i Hi), Hb.
    rewrite named_entries_app.
    change (u :: after) with ([u] ++ after). rewrite named_entries_app.
    unfold named_entries at 2. cbn [flat_map]. rewrite Hu.
    cbn [option_list app].
    rewrite (@last_with_split HarEntry (named_entries JSON_parse before)
               (named_entries JSON_parse after) (k, u) k).
    + reflexivity.
    + cbn [fst]. now apply same_value_zero_refl.
    + exact Hafter.
  - intros i e k Hi Hb Hk.
    rewrite (merged_position JSON_parse existing _ i Hi), Hb.
    now rewrite (last_with_absent _ _ Hk).
  - intros i e Hi Hb.
    now rewrite (merged_position JSON_parse existing _ i Hi), Hb.
  - intros k Hk. destruct (filed_name JSON_parse newEntries k Hk) as [Ht Hi].
    split.
    { unfold set_has in Hk. apply existsb_exists in Hk.
      destruct Hk as (k' & _ & E). destruct k, k'; try discriminate; reflexivity. }
    split; [ exact Ht | ]. split; [ exact Hi | ].
    revert Hk. clear Ht Hi. unfold entry_names.
    induction newEntries as [ | e r IH ]; [ discriminate | ].
    change (e :: r) with ([e] ++ r). rewrite named_entries_app, map_app, set_has_app.
    destruct (set_has same_value_zero k (map fst (named_entries JSON_parse r))) eqn:Hr.
    + intros _. destruct (IH eq_refl) as (before & u & after & -> & Hu & Ha).
      exists (e :: before), u, after. auto.
    + rewrite orb_false_r. intros He. exists [], e, r.
      split; [ reflexivity | ]. split; [ | exact Hr ].
      unfold named_entries in He. cbn [flat_map] in He. rewrite app_nil_r in He.
      destruct (entry_name JSON_parse e) as [ k' | ]; [ | discriminate ].
      cbn [option_list map set_has existsb] in He. unfold set_has in He.
      cbn [existsb] in He. rewrite orb_false_r in He.
      apply same_value_zero_eq in He. cbn [fst] in He. now subst k'.
Qed.

(** X15, on an instance: a stored capture of IntrospectionQuery, GetThing
    and GetOther, merged with a new capture of IntrospectionQuery, GetThing
    (sent twice) and GetContinent: the second GetThing exchange stands in
    the place of the stored one, the stored IntrospectionQuery stays. *)
Lemma merge_sources_and_survivors_witness :
  nth_error
    (merge_entries json_parse
       [introspection_exchange; getThing_stored; getOther_exchange]
       [introspection_exchange; getThing_exchange; getThing_retry;
        getContinent_exchange]) 1
  = Some getThing_retry
  /\ nth_error
       (merge_entries json_parse
          [introspection_exchange; getThing_stored; getOther_exchange]
          [introspection_exchange; getThing_exchange; getThing_retry;
           getContinent_exchange]) 0
     = Some introspection_exchange.
Proof.
  destruct (@merge_sources_and_survivors json_parse
              [introspection_exchange; getThing_stored; getOther_exchange]
              [introspection_exchange; getThing_exchange; getThing_retry;
               getContinent_exchange])
    as (_ & Hlast & Hkeep & _ & _).
  split.
  - apply (Hlast 1 getThing_stored (VString "GetThing")
             [introspection_exchange; getThing_exchange] getThing_retry
             [getContinent_exchange]); reflexivity.
  - apply (Hkeep 0 introspection_exchange (VString "IntrospectionQuery"));
      reflexivity.
Defined.

(** ** The update check *)

Section UpdateFacts.
Variable JSON_parse : string -> option value.

(** the first loop fails exactly when a name does not print *)
Lemma fold_check_fails har mocksDir ops : forall st,
  fold_left (check_operation JSON_parse har mocksDir) ops st = None
  <-> st = None \/ exists op, In op ops /\ to_js_string (operationName op) = None.
Proof.
  induction ops as [ | op r IH ]; intros st; cbn [fold_left].
  - split; [ auto | intros [ H | (op & [] & _) ]; exact H ].
  - rewrite IH. unfold check_operation at 1.
    destruct st as [ [missing changed] | ].
    + unfold hasMockForOperation, mock_file_name.
      destruct (to_js_string (operationName op)) as [ printed | ] eqn:Ep.
      * cbn [negb]. split.
        -- intros [ H | (op' & Hin & H) ]; [ | right; exists op'; split; [ now right | exact H ] ].
           destruct (existsb _ (readdir mocksDir)); cbn [negb] in H;
             [ destruct (hasSchemaChanged _ _ _ _) | ]; discriminate.
        -- intros [ H | (op' & [ <- | Hin ] & H) ]; [ discriminate | congruence | ].
           right. eauto.
      * split; [ intros _; right; exists op; split; [ now left | exact Ep ] | auto ].
    + split; [ auto | intros _; now left ].
Qed.

Lemma fold_check_operation har mocksDir ops : forall missing changed st,
  fold_left (check_operation JSON_parse har mocksDir) ops (Some (missing, changed))
  = Some st ->
  st
  = (missing
     ++ map operationName
          (filter (fun op =>
                     match hasMockForOperation (operationName op) (readdir mocksDir) with
                     | Some has => negb has
                     | None => false
                     end) ops),
     changed
     ++ map operationName
          (filter (fun op =>
                     match hasMockForOperation (operationName op) (readdir mocksDir) with
                     | Some true =>
                         hasSchemaChanged JSON_parse (operationName op) har
                           (readFile mocksDir)
                     | _ => false
                     end) ops)).
Proof.
  induction ops as [ | op r IH ]; intros missing changed st; cbn [fold_left filter map].
  - intros H. apply some_inj in H. subst st. now rewrite !app_nil_r.
  - unfold check_operation at 2.
    destruct (hasMockForOperation (operationName op) (readdir mocksDir))
      as [ [ | ] | ]; cbn [negb].
    + destruct (hasSchemaChanged JSON_parse (operationName op) har (readFile mocksDir)).
      * intros H. apply IH in H. subst st. cbn [map]. now rewrite <- app_assoc.
      * apply IH.
    + intros H. apply IH in H. subst st. cbn [map]. now rewrite <- app_assoc.
    + intros H. exfalso.
      assert (F : fold_left (check_operation JSON_parse har mocksDir) r None = None)
        by (apply fold_check_fails; now left).
      congruence.
Qed.
End UpdateFacts.

Lemma map_nil_iff (A B : Type) (f : A -> B) l : map f l = [] <-> l = [].
Proof. destruct l; simpl; split; congruence. Qed.

Lemma updateMocks_fails (JSON_parse : string -> option value) har mocksDir :
  updateMocks JSON_parse har mocksDir = UpdateFailed
  <-> exists op, In op (extractGraphQLOperations JSON_parse har)
                 /\ to_js_string (operationName op) = None.
Proof.
  unfold updateMocks. rewrite operations_are_user_operations.
  set (ops := extractGraphQLOperations JSON_parse har).
  pose proof (fold_check_fails JSON_parse har mocksDir ops (Some ([], []))) as H.
  destruct (fold_left _ ops (Some ([], []))) as [ [missing changed] | ].
  - split.
    + destruct ((length _ =? 0) && (length _ =? 0)); discriminate.
    + intros Hex. assert (F : Some (missing, changed) = None) by (apply H; auto).
      discriminate.
  - split; [ intros _ | reflexivity ].
    destruct (proj1 H eq_refl) as [ F | Hex ]; [ discriminate | exact Hex ].
Qed.

Lemma updateMocks_up_to_date (JSON_parse : string -> option value) har mocksDir :
  updateMocks JSON_parse har mocksDir = UpToDate
  <-> forall op, In op (extractGraphQLOperations JSON_parse har) ->
        hasMockForOperation (operationName op) (readdir mocksDir) = Some true
        /\ hasSchemaChanged JSON_parse (operationName op) har (readFile mocksDir) = false.
Proof.
  unfold updateMocks. rewrite operations_are_user_operations.
  set (ops := extractGraphQLOperations JSON_parse har).
  pose proof (fold_check_fails JSON_parse har mocksDir ops (Some ([], []))) as Hfail.
  pose proof (@fold_check_operation JSON_parse har mocksDir ops [] []) as Hfold.
  destruct (fold_left _ ops (Some ([], []))) as [ [missing changed] | ].
  - specialize (Hfold _ eq_refl). cbn [app] in Hfold.
    set (both := fun op =>
                   match hasMockForOperation (operationName op) (readdir mocksDir) with
                   | Some true =>
                       hasSchemaChanged JSON_parse (operationName op) har
                         (readFile mocksDir)
                   | _ => false
                   end) in Hfold.
    set (lacking := fun op =>
                      match hasMockForOperation (operationName op) (readdir mocksDir) with
                      | Some has => negb has
                      | None => false
                      end) in Hfold.
    apply pair_equal_spec in Hfold. destruct Hfold as [-> ->].
    assert (Hprints : forall op, In op ops ->
              hasMockForOperation (operationName op) (readdir mocksDir) <> None).
    { intros op Hin E. unfold hasMockForOperation, mock_file_name in E.
      destruct (to_js_string (operationName op)) eqn:Ep; [ discriminate | ].
      assert (F : Some (map operationName (filter lacking ops),
                        map operationName (filter both ops)) = None)
        by (apply Hfail; right; eauto).
      discriminate. }
    destruct ((length _ =? 0) && (length _ =? 0)) eqn:E.
    + split; [ intros _ | reflexivity ].
      apply andb_true_iff in E. destruct E as [Em Ec].
      apply length_zero, map_nil_iff in Em. rewrite filter_nil in Em.
      apply length_zero, map_nil_iff in Ec. rewrite filter_nil in Ec.
      intros op Hin. specialize (Em op Hin). specialize (Ec op Hin).
      specialize (Hprints op Hin).
      subst lacking both. cbv beta in Em, Ec.
      destruct (hasMockForOperation (operationName op) (readdir mocksDir))
        as [ [ | ] | ]; [ auto | discriminate | congruence ].
    + split; [ discriminate | ]. intros H. exfalso.
      assert (Em : filter lacking ops = []).
      { apply filter_nil. intros op Hin. subst lacking. cbv beta.
        destruct (H op Hin) as [-> _]. reflexivity. }
      assert (Ec : filter both ops = []).
      { apply filter_nil. intros op Hin. subst both. cbv beta.
        destruct (H op Hin) as [-> ->]. reflexivity. }
      rewrite Em, Ec in E. discriminate.
  - split; [ discriminate | ]. intros H. exfalso.
    destruct (proj1 Hfail eq_refl) as [ F | (op & Hin & Ep) ]; [ discriminate | ].
    destruct (H op Hin) as [E _].
    unfold hasMockForOperation, mock_file_name in E. rewrite Ep in E. discriminate.
Qed.

(** X16: on a capture whose operation names are strings of word characters
    (so that their artifacts are files of the mocks directory) the update
    check does not fail, and every operation either has its artifact in
    the directory or has not.  The check finds nothing to do exactly when
    every operation of the capture has an artifact and none of them counts
    as changed; otherwise it reports the operations without an artifact as
    missing, the others that changed as changed (no operation is in both
    lists), and it records every operation of the capture anew, not only
    the reported ones. *)
Theorem updateMocks_outcome :
  forall (JSON_parse : string -> option value) (har : har_file) (mocksDir : directory),
    let ops := extractGraphQLOperations JSON_parse har in
    let has op := hasMockForOperation (operationName op) (readdir mocksDir) in
    let drifted op :=
      hasSchemaChanged JSON_parse (operationName op) har (readFile mocksDir) in
    let lacking op :=
      match has op with Some present => negb present | None => false end in
    let outdated op :=
      match has op with Some true => drifted op | _ => false end in
    (forall op, In op ops -> word_name (operationName op) = true) ->
    updateMocks JSON_parse har mocksDir <> UpdateFailed
    /\ (forall op, In op ops ->
          has op = Some (existsb (String.eqb (file_of (operationName op)))
                           (readdir mocksDir)))
    /\ (updateMocks JSON_parse har mocksDir = UpToDate
        <-> forall op, In op ops -> has op = Some true /\ drifted op = false)
    /\ (updateMocks JSON_parse har mocksDir <> UpToDate ->
        updateMocks JSON_parse har mocksDir
        = Rerecorded (map operationName (filter lacking ops))
            (map operationName (filter outdated ops))
            (map (fun op => (operationName op, query op)) ops)).
Proof.
  intros JSON_parse har mocksDir ops has drifted lacking outdated Hword.
  assert (Hnf : updateMocks JSON_parse har mocksDir <> UpdateFailed).
  { intros F. apply updateMocks_fails in F. destruct F as (op & Hin & Ep).
    destruct (word_name_file _ (Hword op Hin)) as (w & E & _).
    rewrite E in Ep. discriminate. }
  split; [ exact Hnf | ].
  split.
  { intros op Hin. destruct (word_name_file _ (Hword op Hin)) as (w & E & _ & Hf & _).
    subst has. cbv beta. unfold hasMockForOperation. rewrite Hf. reflexivity. }
  split; [ apply updateMocks_up_to_date | ].
  revert Hnf. unfold updateMocks. rewrite operations_are_user_operations. fold ops.
  pose proof (@fold_check_operation JSON_parse har mocksDir ops [] []) as Hfold.
  destruct (fold_left _ ops (Some ([], []))) as [ [missing changed] | ];
    [ | congruence ].
  specialize (Hfold _ eq_refl). cbn [app] in Hfold.
  apply pair_equal_spec in Hfold. destruct Hfold as [-> ->].
  intros _. fold has. fold drifted. fold lacking. fold outdated.
  destruct ((length _ =? 0) && (length _ =? 0)); [ congruence | reflexivity ].
Qed.

(** X16, on an instance: GetThing has an artifact with another hash,
    GetContinent has none. *)
Lemma updateMocks_outcome_witness :
  updateMocks json_parse
    (HarLog [getThing_exchange; getThing_retry; getContinent_exchange])
    [("GetThing.mock.ts", "// Schema Hash: 0123456789abcdef")]
  = Rerecorded [VString "GetContinent"] [VString "GetThing"]
      (map (fun op => (operationName op, query op))
         (extractGraphQLOperations json_parse
            (HarLog [getThing_exchange; getThing_retry; getContinent_exchange]))).
Proof.
  destruct (@updateMocks_outcome json_parse
              (HarLog [getThing_exchange; getThing_retry; getContinent_exchange])
              [("GetThing.mock.ts", "// Schema Hash: 0123456789abcdef")])
    as (_ & _ & _ & H).
  - intros op Hop. vm_compute in Hop.
    destruct Hop as [ <- | [ <- | [] ] ]; reflexivity.
  - rewrite H; [ reflexivity | ]. vm_compute. discriminate.
Defined.

(** ** After an extraction *)

Lemma string_eqb_eq (a b : string) : String.eqb a b = true -> a = b.
Proof. apply String.eqb_eq. Qed.

Lemma write_all_store (d : directory) files :
  write_all d files = fold_left (store String.eqb) files d.
Proof. reflexivity. Qed.

Lemma In_readdir_write (d : directory) file content f :
  In f (readdir (writeFile d file content)) <-> f = file \/ In f (readdir d).
Proof.
  unfold readdir, writeFile. rewrite (keys_map_set String.eqb).
  apply In_set_add.
Qed.

Lemma In_readdir_write_all files : forall (d : directory) f,
  In f (readdir (write_all d files)) <-> In f (readdir d) \/ In f (map fst files).
Proof.
  induction files as [ | [file content] r IH ]; intros d f.
  - cbn [write_all fold_left map In]. tauto.
  - change (write_all d ((file, content) :: r))
      with (write_all (writeFile d file content) r).
    rewrite IH, In_readdir_write. cbn [map fst In]. intuition.
Qed.

Lemma NoDup_names_content (l : list (string * string)) f c c' :
  NoDup (map fst l) -> In (f, c) l -> In (f, c') l -> c = c'.
Proof.
  induction l as [ | [f0 c0] r IH ]; [ intros _ [] | ].
  cbn [map fst]. intros Hn H H'. inversion Hn as [ | ? ? Hf0 Hr ]; subst.
  destruct H as [ H | H ], H' as [ H' | H' ].
  - congruence.
  - inversion H; subst. exfalso. apply Hf0. apply in_map_iff. exists (f, c'). auto.
  - inversion H'; subst. exfalso. apply Hf0. apply in_map_iff. exists (f, c). auto.
  - now apply IH.
Qed.

(** a file written once is read back *)
Lemma readFile_write_all (d : directory) files f c :
  NoDup (map fst files) -> In (f, c) files ->
  readFile (write_all d files) f = Some c.
Proof.
  intros Hn Hin. unfold readFile. rewrite write_all_store.
  rewrite (map_get_fold_store String.eqb string_eqb_eq).
  unfold last_with.
  destruct (find (fun y => String.eqb f (fst y)) (rev files)) as [ [f' c'] | ] eqn:E.
  - apply find_some in E. destruct E as [Hy E]. apply in_rev in Hy.
    apply String.eqb_eq in E. cbn [fst] in E. subst f'. cbn [snd]. f_equal.
    eapply NoDup_names_content; eauto.
  - exfalso. apply in_rev in Hin.
    pose proof (find_none _ _ E _ Hin) as H. cbn [fst] in H.
    rewrite String.eqb_refl in H. discriminate.
Qed.

Lemma mock_file_name_inj a b :
  word_name a = true -> word_name b = true ->
  file_of a = file_of b -> a = b.
Proof.
  destruct a as [ | | | | w | | ]; try discriminate.
  destruct b as [ | | | | w' | | ]; try discriminate.
  intros _ _ H. unfold file_of, mock_file_name in H. cbn [to_js_string] in H.
  apply append_inj_r in H. congruence.
Qed.

Lemma NoDup_mock_file_names ks :
  forallb word_name ks = true ->
  unique_keys same_value_zero ks = true ->
  NoDup (map file_of ks).
Proof.
  induction ks as [ | k r IH ]; [ constructor | ].
  cbn [forallb unique_keys map]. intros Hw Hu.
  apply andb_true_iff in Hw, Hu. destruct Hw as [Hk Hw]. destruct Hu as [Hn Hu].
  constructor; [ | now apply IH ].
  intros Hin. apply in_map_iff in Hin. destruct Hin as (k' & E & Hin).
  rewrite forallb_forall in Hw.
  apply mock_file_name_inj in E; [ | now apply Hw | assumption ]. subst k'.
  apply negb_true_iff in Hn. unfold set_has in Hn.
  assert (Ht : existsb (same_value_zero k) r = true).
  { apply existsb_exists. exists k. split; [ assumption | ].
    destruct k; try discriminate. apply String.eqb_refl. }
  congruence.
Qed.

Section ExtractionFacts.
Variable JSON_parse : string -> option value.

(** the keys of the response map are names: truthy, not IntrospectionQuery,
    no key twice *)
Lemma mock_keys entries :
  forallb (fun name => negb (is_string name INTROSPECTION))
    (map fst (fold_left (mocks_step JSON_parse) entries [])) = true
  /\ unique_keys same_value_zero
       (map fst (fold_left (mocks_step JSON_parse) entries [])) = true.
Proof.
  rewrite fold_mocks_step, (keys_fold_store same_value_zero same_value_zero_eq).
  split.
  - apply forallb_forall. intros name Hin.
    apply in_map_iff in Hin. destruct Hin as (c & <- & Hin).
    apply incl_filter_first_by, mocks_of_named in Hin.
    apply andb_true_iff in Hin. tauto.
  - apply (unique_first_by same_value_zero fst same_value_zero_eq).
Qed.

(** what [extractMocks] gives on a capture that can be read *)
Lemma extractMocks_spec entries clock mocksDir current result :
  extractMocks JSON_parse (HarLog entries) clock mocksDir current = Some result ->
  exists files,
    save_each (fold_left (mocks_step JSON_parse) entries []) clock 0 = Some files
    /\ result
       = (write_all mocksDir files,
          map fst (fold_left (mocks_step JSON_parse) entries []),
          updateMockRegistry (readdir (write_all mocksDir files)) current).
Proof.
  unfold extractMocks, saveGraphQLMocksToFiles. cbn [extractGraphQLMocks].
  destruct (save_each _ clock 0) as [ files | ]; [ | discriminate ].
  intros E. apply some_inj in E. subst result. exists files.
  split; [ reflexivity | ].
  rewrite (forallb_filter_id _ _ (proj1 (mock_keys entries))). reflexivity.
Qed.
End ExtractionFacts.

(** X10: on a capture whose response map is keyed by strings of word
    characters (so that the artifacts are files of the output directory)
    the generator does not fail, and it writes one artifact per name of the
    response map, in the order of the map (first occurrence of the name):
    the [k]-th file is named after the [k]-th name, no file is written
    twice, and its content carries, where [hasSchemaChanged] looks for it,
    the schema hash of the response filed under that name; nothing is
    written for other entries, so there are at most as many files as
    entries. *)
Theorem saveGraphQLMocksToFiles_files :
  forall (JSON_parse : string -> option value) (entries : list HarEntry)
         (clock : nat -> string) (mocks : list (value * value)),
    extractGraphQLMocks JSON_parse (HarLog entries) = Some mocks ->
    forallb word_name (map fst mocks) = true ->
    exists files,
      saveGraphQLMocksToFiles JSON_parse (HarLog entries) clock = Some files
      /\ map fst files = map (fun c => file_of (fst c)) mocks
      /\ NoDup (map fst files)
      /\ length files <= length entries
      /\ forall k name response,
           nth_error mocks k = Some (name, response) ->
           exists w content,
             name = VString w
             /\ nth_error files k = Some ((w ++ ".mock.ts")%string, content)
             /\ match_schema_hash content = generateSchemaHash response.
Proof.
  intros JSON_parse entries clock mocks Hm Hw.
  cbn [extractGraphQLMocks] in Hm. apply some_inj in Hm. subst mocks.
  set (mocks := fold_left (mocks_step JSON_parse) entries []) in *.
  destruct (save_each_spec mocks clock 0 Hw) as (files & Hs & Hn & Hf).
  exists files. split; [ exact Hs | ]. split; [ exact Hn | ].
  split; [ | split ].
  - rewrite Hn, <- map_map. apply NoDup_mock_file_names; [ exact Hw | ].
    apply (proj2 (mock_keys JSON_parse entries)).
  - apply (f_equal (@length string)) in Hn. rewrite !length_map in Hn. rewrite Hn.
    apply length_mocks_le.
  - intros k name response Hk.
    destruct (Hf k name response Hk) as (content & Hc & Hfile).
    assert (Hname : word_name name = true).
    { rewrite forallb_forall in Hw. apply Hw. apply in_map_iff.
      exists (name, response). split; [ reflexivity | ]. eapply nth_error_In, Hk. }
    destruct (word_name_file name Hname) as (w & -> & Hword & _ & Hfile').
    rewrite Hfile' in Hfile. exists w, content.
    split; [ reflexivity | ]. split; [ exact Hfile | ].
    destruct (generateSchemaHash_total response) as [h Hh]. rewrite Hh.
    apply (hash_line_found w response _ Hword Hh Hc).
Qed.

(** X10, on an instance: the capture of GetThing (sent twice) and
    GetContinent gives two files. *)
Lemma saveGraphQLMocksToFiles_files_witness :
  exists files,
    saveGraphQLMocksToFiles json_parse
      (HarLog [getThing_exchange; getThing_retry; getContinent_exchange])
      (fun _ => "2026-01-03T10:33:05.134Z")
    = Some files
    /\ map fst files = ["GetThing.mock.ts"; "GetContinent.mock.ts"].
Proof.
  destruct (@saveGraphQLMocksToFiles_files json_parse
              [getThing_exchange; getThing_retry; getContinent_exchange]
              (fun _ => "2026-01-03T10:33:05.134Z")
              [(VString "GetThing",
                VObject [("data", VObject [("thing",
                   VObject [("id", VNumber 2); ("label", VString "b")])])]);
               (VString "GetContinent",
                VObject [("data", VObject [("continent",
                   VObject [("code", VString "NA");
                            ("name", VString "North America")])])])])
    as (files & Hs & Hn & _).
  - vm_compute. reflexivity.
  - reflexivity.
  - exists files. split; [ exact Hs | exact Hn ].
Defined.

(** X12: right after the generator has written its artifacts nothing
    counts as changed: when the response map of the capture is keyed by
    strings of word characters and the mocks directory is the one the
    writes of [saveGraphQLMocksToFiles] leave behind, whatever it held
    before, [hasSchemaChanged] answers false on that capture for every
    name, whether the capture holds it or not. *)
Theorem saved_mocks_are_unchanged :
  forall (JSON_parse : string -> option value) (entries : list HarEntry)
         (clock : nat -> string) (mocks : list (value * value))
         (files : list (string * string)) (mocksDir : directory) (name : value),
    extractGraphQLMocks JSON_parse (HarLog entries) = Some mocks ->
    forallb word_name (map fst mocks) = true ->
    saveGraphQLMocksToFiles JSON_parse (HarLog entries) clock = Some files ->
    hasSchemaChanged JSON_parse name (HarLog entries)
      (readFile (write_all mocksDir files))
    = false.
Proof.
  intros JSON_parse entries clock mocks files mocksDir name Hm Hw Hsave.
  cbn [extractGraphQLMocks] in Hm. apply some_inj in Hm. subst mocks.
  unfold saveGraphQLMocksToFiles in Hsave. cbn [extractGraphQLMocks] in Hsave.
  set (mocks := fold_left (mocks_step JSON_parse) entries []) in *.
  destruct (save_each_spec mocks clock 0 Hw) as (files' & Hs & Hnames & Hf).
  rewrite Hs in Hsave. apply some_inj in Hsave. subst files'.
  assert (Hnd : NoDup (map fst files)).
  { rewrite Hnames, <- map_map. apply NoDup_mock_file_names; [ exact Hw | ].
    apply (proj2 (mock_keys JSON_parse entries)). }
  unfold hasSchemaChanged. cbn [extractGraphQLMocks try_catch]. fold mocks.
  destruct (map_get same_value_zero name mocks) as [ current | ] eqn:Hg;
    [ | reflexivity ].
  destruct (truthy current); [ | reflexivity ]. cbn [negb].
  apply (map_get_In same_value_zero same_value_zero_eq) in Hg.
  assert (Hname : word_name name = true).
  { rewrite forallb_forall in Hw. apply Hw. apply in_map_iff.
    exists (name, current). split; [ reflexivity | exact Hg ]. }
  destruct (word_name_file name Hname) as (w & -> & Hword & _ & _).
  apply In_nth_error in Hg. destruct Hg as [k Hk].
  destruct (Hf k _ _ Hk) as (content & Hc & Hfile).
  apply nth_error_In in Hfile.
  destruct (generateSchemaHash_total current) as [h Hh].
  unfold read_mock. cbn [mock_file_name to_js_string].
  change (w ++ ".mock.ts")%string with (file_of (VString w)).
  rewrite Hh, (readFile_write_all mocksDir files _ _ Hnd Hfile),
    (hash_line_found w current _ Hword Hh Hc).
  now rewrite String.eqb_refl.
Qed.

(** X12, on an instance: the capture of GetThing (sent twice) and
    GetContinent, saved over an older artifact of GetThing and checked. *)
Lemma saved_mocks_are_unchanged_witness :
  match saveGraphQLMocksToFiles json_parse
          (HarLog [getThing_exchange; getThing_retry; getContinent_exchange])
          (fun _ => "2026-01-03T10:33:05.134Z") with
  | Some files =>
      hasSchemaChanged json_parse (VString "GetThing")
        (HarLog [getThing_exchange; getThing_retry; getContinent_exchange])
        (readFile (write_all [("GetThing.mock.ts", "// Schema Hash: 0123456789abcdef")]
                     files))
      = false
  | None => False
  end.
Proof.
  destruct (saveGraphQLMocksToFiles json_parse
              (HarLog [getThing_exchange; getThing_retry; getContinent_exchange])
              (fun _ => "2026-01-03T10:33:05.134Z")) as [ files | ] eqn:Hs;
    [ | vm_compute in Hs; discriminate ].
  apply (@saved_mocks_are_unchanged json_parse
           [getThing_exchange; getThing_retry; getContinent_exchange]
           (fun _ => "2026-01-03T10:33:05.134Z")
           [(VString "GetThing",
             VObject [("data", VObject [("thing",
                VObject [("id", VNumber 2); ("label", VString "b")])])]);
            (VString "GetContinent",
             VObject [("data", VObject [("continent",
                VObject [("code", VString "NA");
                         ("name", VString "North America")])])])]
           files).
  - vm_compute. reflexivity.
  - reflexivity.
  - exact Hs.
Defined.

(** Without the condition on the names two keys of the response map can
    share an artifact: the names [42] (a number) and the string of the
    same digits are written to one file, the second write stands, and the
    first name counts as changed right after the writes. *)
Example artifact_shared_by_two_names :
  let capture :=
    HarLog [mkEntry ENDPOINT "POST"
              (Some (qq "{`operationName`:`42`,`query`:`query A { a }`}"))
              (Some (qq "{`data`:{`a`:1}}"));
            mkEntry ENDPOINT "POST"
              (Some (qq "{`operationName`:42,`query`:`query B { b }`}"))
              (Some (qq "{`data`:{`b`:1}}"))] in
  exists first second,
    saveGraphQLMocksToFiles json_parse capture (fun _ => "2026-01-03T10:33:05.134Z")
    = Some [("42.mock.ts", first); ("42.mock.ts", second)]
    /\ hasSchemaChanged json_parse (VString "42") capture
         (readFile (write_all [] [("42.mock.ts", first); ("42.mock.ts", second)]))
       = true.
Proof.
  intros capture.
  destruct (saveGraphQLMocksToFiles json_parse capture (fun _ => "2026-01-03T10:33:05.134Z"))
    as [ [ | [f1 c1] [ | [f2 c2] [ | ] ] ] | ] eqn:E; try (vm_compute in E; discriminate).
  assert (F1 : f1 = "42.mock.ts").
  { apply (f_equal (option_map (fun l => map fst l))) in E. vm_compute in E.
    apply some_inj in E. congruence. }
  assert (F2 : f2 = "42.mock.ts").
  { apply (f_equal (option_map (fun l => map fst l))) in E. vm_compute in E.
    apply some_inj in E. congruence. }
  subst f1 f2. exists c1, c2. split; [ reflexivity | ].
  apply (f_equal (option_map (fun files =>
           hasSchemaChanged json_parse (VString "42") capture
             (readFile (write_all [] files))))) in E.
  vm_compute in E. now apply some_inj in E.
Qed.

(** X17: after an extraction the update check finds nothing to do: when the
    names of the response map are strings of word characters and every
    operation of the capture has a response in it, the artifacts written by
    [extractMocks] are there for every operation of the capture and none of
    them counts as changed. *)
Theorem extraction_leaves_nothing_to_update :
  forall (JSON_parse : string -> option value) (entries : list HarEntry)
         (clock : nat -> string) (mocksDir mocksDir' : directory)
         (current registry' : registry) (names : list value),
    extractMocks JSON_parse (HarLog entries) clock mocksDir current
    = Some (mocksDir', names, registry') ->
    forallb word_name names = true ->
    (forall op, In op (extractGraphQLOperations JSON_parse (HarLog entries)) ->
                In (operationName op) names) ->
    updateMocks JSON_parse (HarLog entries) mocksDir' = UpToDate.
Proof.
  intros JSON_parse entries clock mocksDir mocksDir' current registry' names
         Hx Hw Hops.
  apply extractMocks_spec in Hx. destruct Hx as (files & Hs & E).
  injection E as -> -> _.
  set (mocks := fold_left (mocks_step JSON_parse) entries []) in *.
  destruct (save_each_spec mocks clock 0 Hw) as (files' & Hs' & Hnames & Hf).
  rewrite Hs in Hs'. apply some_inj in Hs'. subst files'.
  assert (Hnd : NoDup (map fst files)).
  { rewrite Hnames, <- map_map. apply NoDup_mock_file_names; [ exact Hw | ].
    apply (proj2 (mock_keys JSON_parse entries)). }
  apply updateMocks_up_to_date. intros op Hop.
  specialize (Hops op Hop).
  rewrite forallb_forall in Hw. pose proof (Hw _ Hops) as Hword.
  destruct (operationName op) as [ | | | | w | | ] eqn:En; try discriminate.
  cbn [word_name] in Hword.
  apply in_map_iff in Hops. destruct Hops as ([k current'] & Hk & Hin).
  cbn [fst] in Hk. subst k.
  apply In_nth_error in Hin. destruct Hin as [i Hi].
  destruct (Hf i _ _ Hi) as (content & Hc & Hfile).
  apply nth_error_In in Hfile.
  split.
  - apply hasMockForOperation_In, In_readdir_write_all. right.
    apply in_map_iff. exists (file_of (VString w), content). auto.
  - unfold hasSchemaChanged. cbn [extractGraphQLMocks try_catch]. fold mocks.
    destruct (map_get same_value_zero (VString w) mocks) as [ response | ] eqn:Hg;
      [ | reflexivity ].
    destruct (truthy response); [ | reflexivity ]. cbn [negb].
    assert (response = current').
    { eapply map_get_unique; [ apply (proj2 (mock_keys JSON_parse entries)) | | exact Hg ].
      eapply nth_error_In, Hi. }
    subst response.
    destruct (generateSchemaHash_total current') as [h Hh].
    unfold read_mock. cbn [mock_file_name to_js_string].
    change (w ++ ".mock.ts")%string with (file_of (VString w)).
    rewrite Hh, (readFile_write_all mocksDir files _ _ Hnd Hfile),
      (hash_line_found w current' _ Hword Hh Hc).
    now rewrite String.eqb_refl.
Qed.

(** X17, on an instance: the capture of GetThing (sent twice) and
    GetContinent, extracted into a directory that holds an older artifact of
    GetThing. *)
Lemma extraction_leaves_nothing_to_update_witness :
  match extractMocks json_parse
          (HarLog [getThing_exchange; getThing_retry; getContinent_exchange])
          (fun _ => "2026-01-03T10:33:05.134Z")
          [("GetThing.mock.ts", "// Schema Hash: 0123456789abcdef")] [] with
  | Some (mocksDir', _, _) =>
      updateMocks json_parse
        (HarLog [getThing_exchange; getThing_retry; getContinent_exchange]) mocksDir'
      = UpToDate
  | None => False
  end.
Proof.
  destruct (extractMocks json_parse
              (HarLog [getThing_exchange; getThing_retry; getContinent_exchange])
              (fun _ => "2026-01-03T10:33:05.134Z")
              [("GetThing.mock.ts", "// Schema Hash: 0123456789abcdef")] [])
    as [ [[mocksDir' names] registry'] | ] eqn:Hx;
    [ | vm_compute in Hx; discriminate ].
  apply (@extraction_leaves_nothing_to_update json_parse
           [getThing_exchange; getThing_retry; getContinent_exchange]
           (fun _ => "2026-01-03T10:33:05.134Z")
           [("GetThing.mock.ts", "// Schema Hash: 0123456789abcdef")]
           mocksDir' [] registry' names Hx).
  - assert (E : names = [VString "GetThing"; VString "GetContinent"]).
    { apply (f_equal (option_map (fun r => snd (fst r)))) in Hx.
      vm_compute in Hx. now apply some_inj in Hx. }
    subst names. reflexivity.
  - assert (E : names = [VString "GetThing"; VString "GetContinent"]).
    { apply (f_equal (option_map (fun r => snd (fst r)))) in Hx.
      vm_compute in Hx. now apply some_inj in Hx. }
    subst names. intros op Hop. vm_compute in Hop.
    destruct Hop as [ <- | [ <- | [] ] ]; vm_compute; auto.
Defined.

Lemma map_has_In (V : Type) k (m : list (string * V)) :
  map_has String.eqb k m = true <-> In k (map fst m).
Proof.
  unfold map_has. rewrite existsb_exists, in_map_iff. split.
  - intros (e & He & E). apply String.eqb_eq in E. subst. eauto.
  - intros (e & <- & He). exists e. split; [ assumption | apply String.eqb_refl ].
Qed.

Lemma getMock_entry (r : registry) k v :
  getMock r k = Some v -> In (k, v) r.
Proof.
  unfold getMock, GRAPHQL_MOCKS.
  change (fun (m : list (string * string)) (e : string * string) =>
            map_set String.eqb (fst e) (snd e) m) with (@store string string String.eqb).
  rewrite (map_get_fold_store String.eqb string_eqb_eq). cbn [map_get].
  unfold last_with.
  destruct (find (fun y => String.eqb k (fst y)) (rev r)) as [ [k' v'] | ] eqn:E;
    [ | discriminate ].
  apply find_some in E. destruct E as [Hy E]. apply in_rev in Hy.
  apply String.eqb_eq in E. cbn [fst snd] in *. subst k'.
  intros H. apply some_inj in H. now subst.
Qed.

Lemma hasMock_getMock (r : registry) k :
  hasMock r k = true <-> exists v, getMock r k = Some v.
Proof.
  unfold hasMock, getMock. generalize (GRAPHQL_MOCKS r). intros m.
  induction m as [ | [k0 v0] m IH ]; cbn [map_has existsb map_get fst].
  - split; [ discriminate | intros (v & H); discriminate ].
  - destruct (String.eqb k k0); cbn [orb]; [ split; eauto | exact IH ].
Qed.

Lemma well_named_artifact w : all_word w = true -> well_named (w ++ MOCK_SUFFIX) = true.
Proof.
  intros H. unfold well_named.
  replace (endsWith (w ++ MOCK_SUFFIX) MOCK_SUFFIX) with true
    by (symmetry; apply endsWith_iff; eauto).
  now rewrite base_name_append.
Qed.

Lemma In_mock_file_names names w :
  forallb word_name names = true ->
  In (w ++ MOCK_SUFFIX)%string (map file_of names) <-> In (VString w) names.
Proof.
  intros Hw. rewrite forallb_forall in Hw. rewrite in_map_iff. split.
  - intros (n & E & Hn). pose proof (Hw n Hn) as Hword.
    destruct n as [ | | | | w' | | ]; try discriminate.
    unfold file_of, mock_file_name in E. cbn [to_js_string] in E.
    apply append_inj_r in E. now subst.
  - intros H. exists (VString w). auto.
Qed.

(** X18: after an extraction the registry is in step with the directory:
    when the capture yields at least one name, the names of the response
    map are strings of word characters and the directory held well-named
    files, the keys of the rebuilt registry are exactly the names extracted
    and the names of the artifacts that were there before; every extracted
    name is served by [hasMock] and [getMock], under the variable of its
    artifact; and the summary lists every name of the response map. *)
Theorem extractMocks_registers_operations :
  forall (JSON_parse : string -> option value) (entries : list HarEntry)
         (clock : nat -> string) (mocksDir mocksDir' : directory)
         (current registry' : registry) (names : list value),
    extractMocks JSON_parse (HarLog entries) clock mocksDir current
    = Some (mocksDir', names, registry') ->
    names <> [] ->
    forallb word_name names = true ->
    forallb well_named (readdir mocksDir) = true ->
    (forall w, In w (listMocks registry')
               <-> In (VString w) names \/ In (w ++ MOCK_SUFFIX)%string (readdir mocksDir))
    /\ (forall w, In (VString w) names ->
          hasMock registry' w = true
          /\ getMock registry' w = Some (w ++ "Mock")%string)
    /\ option_map (map fst) (extractGraphQLMocks JSON_parse (HarLog entries))
       = Some names.
Proof.
  intros JSON_parse entries clock mocksDir mocksDir' current registry' names
         Hx Hne Hw Hdir.
  apply extractMocks_spec in Hx. destruct Hx as (files & Hs & E).
  injection E as -> -> ->.
  set (mocks := fold_left (mocks_step JSON_parse) entries []) in *.
  destruct (save_each_spec mocks clock 0 Hw) as (files' & Hs' & Hnames & _).
  rewrite Hs in Hs'. apply some_inj in Hs'. subst files'.
  rewrite <- (map_map fst file_of) in Hnames.
  set (listing := readdir (write_all mocksDir files)).
  assert (Hlist : forall f, In f listing
                            <-> In f (readdir mocksDir)
                                \/ In f (map file_of (map fst mocks))).
  { intros f. subst listing. now rewrite In_readdir_write_all, Hnames. }
  assert (Hwn : forallb well_named listing = true).
  { apply forallb_forall. intros f Hf. apply Hlist in Hf. destruct Hf as [ Hf | Hf ].
    - rewrite forallb_forall in Hdir. now apply Hdir.
    - apply in_map_iff in Hf. destruct Hf as (n & <- & Hn).
      rewrite forallb_forall in Hw. specialize (Hw n Hn).
      destruct n as [ | | | | w | | ]; try discriminate.
      now apply well_named_artifact. }
  assert (Hsome : existsb is_mock_file listing = true).
  { destruct (map fst mocks) as [ | n r ] eqn:En; [ congruence | ].
    cbn [forallb] in Hw. apply andb_true_iff in Hw. destruct Hw as [Hn _].
    destruct n as [ | | | | w | | ]; try discriminate.
    apply existsb_exists. exists (w ++ MOCK_SUFFIX)%string. split.
    - apply Hlist. right. now left.
    - rewrite is_mock_file_endsWith. apply endsWith_iff. eauto. }
  rewrite (updateMockRegistry_some listing current Hsome).
  assert (Hkeys : forall w,
            In w (listMocks (map registry_entry (js_sort (filter is_mock_file listing))))
            <-> In (VString w) (map fst mocks)
                \/ In (w ++ MOCK_SUFFIX)%string (readdir mocksDir)).
  { intros w. rewrite In_listMocks, (registry_key_iff listing w Hwn), Hlist.
    rewrite (In_mock_file_names (map fst mocks) w Hw). tauto. }
  split; [ exact Hkeys | ]. split; [ | reflexivity ].
  intros w Hin.
  assert (Hh : hasMock (map registry_entry (js_sort (filter is_mock_file listing))) w
               = true).
  { unfold hasMock. apply map_has_In. apply Hkeys. now left. }
  split; [ exact Hh | ].
  apply hasMock_getMock in Hh. destruct Hh as (v & Hv). rewrite Hv. f_equal.
  apply getMock_entry in Hv. apply in_map_iff in Hv.
  destruct Hv as (f & E & _). unfold registry_entry in E. now inversion E.
Qed.

(** X18, on an instance: the capture of GetThing and GetContinent extracted
    into a directory that holds the artifact of GetCountry and the registry
    module. *)
Lemma extractMocks_registers_operations_witness :
  match extractMocks json_parse
          (HarLog [introspection_exchange; getThing_exchange; getContinent_exchange])
          (fun _ => "2026-01-03T10:33:05.134Z")
          [("GetCountry.mock.ts", "export const GetCountryMock = {};");
           ("mock-registry.ts", "export const GRAPHQL_MOCKS = new Map([]);")]
          stale_registry with
  | Some (_, _, registry') =>
      listMocks registry' = ["GetContinent"; "GetCountry"; "GetThing"]
      /\ hasMock registry' "GetThing" = true
  | None => False
  end.
Proof.
  destruct (extractMocks json_parse
              (HarLog [introspection_exchange; getThing_exchange; getContinent_exchange])
              (fun _ => "2026-01-03T10:33:05.134Z")
              [("GetCountry.mock.ts", "export const GetCountryMock = {};");
               ("mock-registry.ts", "export const GRAPHQL_MOCKS = new Map([]);")]
              stale_registry)
    as [ [[mocksDir' names] registry'] | ] eqn:Hx;
    [ | vm_compute in Hx; discriminate ].
  assert (En : names = [VString "GetThing"; VString "GetContinent"]).
  { apply (f_equal (option_map (fun r => snd (fst r)))) in Hx.
    vm_compute in Hx. now apply some_inj in Hx. }
  assert (Er : listMocks registry' = ["GetContinent"; "GetCountry"; "GetThing"]).
  { apply (f_equal (option_map (fun r => listMocks (snd r)))) in Hx.
    vm_compute in Hx. now apply some_inj in Hx. }
  split; [ exact Er | ].
  apply (proj1 (proj2 (@extractMocks_registers_operations json_parse
           [introspection_exchange; getThing_exchange; getContinent_exchange]
           (fun _ => "2026-01-03T10:33:05.134Z")
           [("GetCountry.mock.ts", "export const GetCountryMock = {};");
            ("mock-registry.ts", "export const GRAPHQL_MOCKS = new Map([]);")]
           mocksDir' stale_registry registry' names Hx
           ltac:(subst names; discriminate)
           ltac:(subst names; reflexivity)
           eq_refl)) "GetThing").
  subst names. now left.
Defined.

(** ** The shape signature *)

Lemma walk_object fs prefix paths :
  walk (VObject fs) prefix paths
  = fold_left (walk_key (walkers_of fs) prefix) (js_sort (keys fs)) paths.
Proof.
  assert (E : (fix each (fs : list (string * value))
                   : list (string * (string -> list string -> list string)) :=
                 match fs with
                 | [] => []
                 | (k, x) :: r => (k, walk x) :: each r
                 end) fs = walkers_of fs).
  { induction fs as [ | [k x] r IH ]; simpl; [ reflexivity | now rewrite IH ]. }
  cbn [walk]. rewrite E. reflexivity.
Qed.

Lemma fold_walk_key_ext W W' prefix ks :
  (forall k p paths,
     walk_key W p paths k = walk_key W' p paths k) ->
  forall paths,
    fold_left (walk_key W prefix) ks paths = fold_left (walk_key W' prefix) ks paths.
Proof.
  intros H. induction ks as [ | k r IH ]; intros paths; simpl; [ reflexivity | ].
  now rewrite H, IH.
Qed.

Lemma walk_key_field pre k x y post :
  (forall p paths, walk x p paths = walk y p paths) ->
  forall k' p paths,
    walk_key (walkers_of (pre ++ (k, x) :: post)) p paths k'
    = walk_key (walkers_of (pre ++ (k, y) :: post)) p paths k'.
Proof.
  intros H k' p paths. unfold walk_key, walkers_of. rewrite !map_app. cbn [map fst snd].
  induction pre as [ | [k0 x0] r IH ]; cbn [map app assoc fst snd].
  - destruct (String.eqb k' k); [ apply H | reflexivity ].
  - destruct (String.eqb k' k0); [ reflexivity | exact IH ].
Qed.

Lemma walk_same_shape v w :
  same_shape v w -> forall prefix paths, walk v prefix paths = walk w prefix paths.
Proof.
  induction 1 as [ v | u v w _ IH1 _ IH2 | a b | n m | s t
                 | fs fs' HP ND | pre k x y post _ IH | x y l l' _ IH ];
    intros prefix paths.
  - reflexivity.
  - now rewrite IH1.
  - reflexivity.
  - reflexivity.
  - reflexivity.
  - rewrite !walk_object. unfold keys.
    rewrite (js_sort_perm (Permutation_map fst HP)).
    apply fold_walk_key_ext. intros k p ps. unfold walk_key, walkers_of.
    rewrite (@assoc_perm _ k _ (map (fun kv => (fst kv, walk (snd kv))) fs')).
    + reflexivity.
    + now apply Permutation_map.
    + rewrite map_map. exact ND.
  - rewrite !walk_object. unfold keys. rewrite !map_app. cbn [map fst].
    apply fold_walk_key_ext. now apply walk_key_field.
  - cbn [walk]. apply IH.
Qed.

(** X19: the shape signature ignores the values: two values of the same
    sampled shape (other leaves of the same type, another key order, other
    array items after the first) have the same signature; it does not even
    see the type of a leaf, which the schema hash does. *)
Theorem jsonShapeSignature_ignores_values :
  (forall v w : value, same_shape v w -> jsonShapeSignature v = jsonShapeSignature w)
  /\ (forall (pre post : list (string * value)) (k : string) (x y : value),
        primitive x = true -> primitive y = true ->
        jsonShapeSignature (VObject (pre ++ (k, x) :: post))
        = jsonShapeSignature (VObject (pre ++ (k, y) :: post)))
  /\ jsonShapeSignature (VObject [("a", VNumber 1)])
     = jsonShapeSignature (VObject [("a", VString "x")])
  /\ generateSchemaHash (VObject [("a", VNumber 1)])
     <> generateSchemaHash (VObject [("a", VString "x")]).
Proof.
  split; [ | split; [ | split ] ].
  - intros v w H. unfold jsonShapeSignature. now rewrite (walk_same_shape H).
  - intros pre post k x y Hx Hy. unfold jsonShapeSignature.
    rewrite !walk_object. unfold keys. rewrite !map_app. cbn [map fst].
    f_equal. f_equal. f_equal.
    apply fold_walk_key_ext. apply walk_key_field. intros p paths.
    destruct x; try discriminate; destruct y; try discriminate; reflexivity.
  - reflexivity.
  - vm_compute. discriminate.
Qed.

Example jsonShapeSignature_forecast :
  jsonShapeSignature
    (VObject [("latitude", VNumber 51);
              ("current", VObject [("time", VNumber 1765909800);
                                   ("temperature_2m", VNumber 9)]);
              ("hourly", VArray [VObject [("rain", VNumber 0)]; VObject [("snow", VNull)]])])
  = "current|current.temperature_2m|current.time|hourly|hourly[]|hourly[].rain|latitude".
Proof. reflexivity. Qed.

Example diffSignatures_forecast :
  diffSignatures "current|current.time|latitude" "current|current.rain|latitude||"
  = (["current.rain"], ["current.time"]).
Proof. reflexivity. Qed.

(** ** The difference of two signatures *)

Lemma split_on_lacks sep x : lacks sep x = true -> split_on sep x = [x].
Proof.
  induction x as [ | c r IH ]; cbn [lacks split_on]; [ reflexivity | ].
  intros H. apply andb_true_iff in H. destruct H as [Hc Hr].
  apply negb_true_iff in Hc. rewrite Ascii.eqb_sym, Hc, (IH Hr). reflexivity.
Qed.

Lemma split_on_app sep x rest :
  lacks sep x = true ->
  split_on sep (x ++ String sep rest) = x :: split_on sep rest.
Proof.
  induction x as [ | c r IH ]; cbn [lacks split_on append].
  - intros _. now rewrite Ascii.eqb_refl.
  - intros H. apply andb_true_iff in H. destruct H as [Hc Hr].
    apply negb_true_iff in Hc. rewrite Ascii.eqb_sym, Hc, (IH Hr). reflexivity.
Qed.

Lemma split_join sep xs :
  Forall (fun x => lacks sep x = true) xs ->
  filter nonempty (split_on sep (join (String sep EmptyString) xs))
  = filter nonempty xs.
Proof.
  induction 1 as [ | x r Hx Hr IH ]; [ reflexivity | ].
  destruct r as [ | y r' ].
  - cbn [join]. now rewrite split_on_lacks.
  - change (join (String sep EmptyString) (x :: y :: r'))
      with (x ++ String sep (join (String sep EmptyString) (y :: r')))%string.
    rewrite split_on_app by assumption.
    cbn [filter]. rewrite IH. reflexivity.
Qed.

Lemma unique_add_all xs : unique xs = add_all xs [].
Proof.
  unfold unique. generalize (@nil string).
  induction xs as [ | x r IH ]; intros s; simpl; [ reflexivity | apply IH ].
Qed.

Lemma In_unique p xs : In p (unique xs) <-> In p xs.
Proof. rewrite unique_add_all, In_add_all. simpl. tauto. Qed.

Lemma NoDup_unique xs : NoDup (unique xs).
Proof. rewrite unique_add_all. apply NoDup_add_all. constructor. Qed.

Lemma add_all_NoDup xs : forall s,
  NoDup (s ++ xs) -> add_all xs s = s ++ xs.
Proof.
  induction xs as [ | x r IH ]; intros s H; cbn [add_all]; [ now rewrite app_nil_r | ].
  assert (Hx : set_has String.eqb x s = false).
  { destruct (set_has String.eqb x s) eqn:E; [ | reflexivity ].
    apply set_has_In in E. apply NoDup_remove_2 in H.
    exfalso. apply H. apply in_app_iff. now left. }
  unfold set_add. rewrite Hx.
  rewrite IH by (rewrite <- app_assoc; exact H).
  now rewrite <- app_assoc.
Qed.

Lemma unique_NoDup xs : NoDup xs -> unique xs = xs.
Proof. intros H. rewrite unique_add_all. now apply (add_all_NoDup xs []). Qed.

Lemma assoc_walkers k fs :
  assoc k (walkers_of fs) = option_map walk (assoc k fs).
Proof.
  unfold walkers_of. induction fs as [ | [k0 x0] r IH ]; cbn [map assoc fst snd];
    [ reflexivity | ].
  destruct (String.eqb k k0); [ reflexivity | exact IH ].
Qed.

Lemma assoc_In (A : Type) k (x : A) l : assoc k l = Some x -> In (k, x) l.
Proof.
  induction l as [ | [k0 x0] r IH ]; cbn [assoc]; [ discriminate | ].
  destruct (String.eqb k k0) eqn:E; [ | intros H; right; now apply IH ].
  apply String.eqb_eq in E. subst. intros H. apply some_inj in H. subst. now left.
Qed.

Lemma keys_lack_object c fs :
  keys_lack c (VObject fs)
  = forallb (fun kv => lacks c (fst kv) && keys_lack c (snd kv)) fs.
Proof.
  cbn [keys_lack]. induction fs as [ | [k x] r IH ]; cbn [forallb fst snd];
    [ reflexivity | now rewrite IH ].
Qed.

Lemma field_path_lacks prefix k :
  lacks "|" prefix = true -> lacks "|" k = true -> lacks "|" (field_path prefix k) = true.
Proof.
  intros Hp Hk. unfold field_path. destruct (nonempty prefix); [ | exact Hk ].
  now rewrite !lacks_app, Hp, Hk.
Qed.

Lemma array_path_lacks prefix :
  lacks "|" prefix = true -> lacks "|" (array_path prefix) = true.
Proof.
  intros Hp. unfold array_path. destruct (nonempty prefix); [ | reflexivity ].
  now rewrite lacks_app, Hp.
Qed.

Lemma walk_lacks v : forall prefix paths,
  keys_lack "|" v = true -> lacks "|" prefix = true ->
  Forall (fun p => lacks "|" p = true) paths ->
  Forall (fun p => lacks "|" p = true) (walk v prefix paths).
Proof.
  induction v as [ | | b | n | s | l IH | fs IH ] using value_ind';
    intros prefix paths Hk Hp Hs; try exact Hs.
  - cbn [walk].
    assert (Hs' : Forall (fun p => lacks "|" p = true) (paths ++ [array_path prefix])).
    { apply Forall_app. split; [ exact Hs | ].
      constructor; [ now apply array_path_lacks | constructor ]. }
    destruct l as [ | x r ]; [ exact Hs' | ].
    inversion IH as [ | ? ? Hx _ ]; subst.
    cbn [keys_lack] in Hk. apply andb_true_iff in Hk. destruct Hk as [Hk _].
    apply Hx; [ exact Hk | now apply array_path_lacks | exact Hs' ].
  - rewrite walk_object. rewrite keys_lack_object in Hk.
    rewrite forallb_forall in Hk. rewrite Forall_forall in IH.
    assert (Hkeys : forall k, In k (js_sort (keys fs)) -> In k (keys fs))
      by (intros k; apply In_js_sort).
    revert paths Hs Hkeys. generalize (js_sort (keys fs)).
    intros ks. induction ks as [ | k r IHr ]; intros paths Hs Hkeys; [ exact Hs | ].
    cbn [fold_left]. apply IHr; [ | intros k' Hk'; apply Hkeys; now right ].
    assert (Hin : In k (keys fs)) by (apply Hkeys; now left).
    unfold keys in Hin. apply in_map_iff in Hin. destruct Hin as ([k0 x0] & E & Hin).
    cbn [fst] in E. subst k0.
    pose proof (Hk _ Hin) as Hkx. cbn [fst snd] in Hkx.
    apply andb_true_iff in Hkx. destruct Hkx as [Hlk _].
    assert (Hfp : lacks "|" (field_path prefix k) = true)
      by now apply field_path_lacks.
    assert (Hs' : Forall (fun p => lacks "|" p = true) (paths ++ [field_path prefix k])).
    { apply Forall_app. split; [ exact Hs | ]. constructor; [ exact Hfp | constructor ]. }
    unfold walk_key. rewrite assoc_walkers.
    destruct (assoc k fs) as [ x | ] eqn:Ea; cbn [option_map]; [ | exact Hs' ].
    apply assoc_In in Ea.
    pose proof (Hk _ Ea) as Hkx. cbn [fst snd] in Hkx.
    apply andb_true_iff in Hkx. destruct Hkx as [_ Hx].
    apply (IH _ Ea); assumption.
Qed.

(** the set [diffSignatures] reads out of the signature of a value: its
    non-empty paths *)
Lemma signature_set_paths v :
  keys_lack "|" v = true ->
  signature_set (jsonShapeSignature v)
  = filter nonempty (js_sort (unique (shape_paths v))).
Proof.
  intros Hk. unfold signature_set, jsonShapeSignature. fold (shape_paths v).
  assert (Hnd : NoDup (js_sort (unique (shape_paths v)))).
  { eapply Permutation_NoDup;
      [ apply Permutation_sym, js_sort_permutation | apply NoDup_unique ]. }
  rewrite (split_join "|").
  - apply unique_NoDup. now apply NoDup_filter_any.
  - apply Forall_forall. intros p Hp. rewrite In_js_sort, In_unique in Hp.
    pose proof (@walk_lacks v EmptyString [] Hk eq_refl (Forall_nil _)) as H.
    rewrite Forall_forall in H. now apply H.
Qed.

Lemma In_signature_set v p :
  keys_lack "|" v = true ->
  In p (signature_set (jsonShapeSignature v))
  <-> p <> EmptyString /\ In p (shape_paths v).
Proof.
  intros Hk. rewrite (signature_set_paths v Hk), filter_In, In_js_sort, In_unique.
  rewrite nonempty_not_empty. tauto.
Qed.

Lemma signature_difference a b p :
  keys_lack "|" a = true -> keys_lack "|" b = true ->
  In p (js_sort (filter (fun x => negb (set_has String.eqb x
                                          (signature_set (jsonShapeSignature a))))
                  (signature_set (jsonShapeSignature b))))
  <-> p <> EmptyString /\ In p (shape_paths b) /\ ~ In p (shape_paths a).
Proof.
  intros Ha Hb. rewrite In_js_sort, filter_In, negb_true_iff.
  rewrite (In_signature_set b p Hb). split.
  - intros [[Hne Hin] Hs]. repeat split; try assumption. intros Hold.
    assert (H : In p (signature_set (jsonShapeSignature a)))
      by (apply In_signature_set; auto).
    apply set_has_In in H. congruence.
  - intros (Hne & Hin & Hold). split; [ auto | ].
    destruct (set_has String.eqb p (signature_set (jsonShapeSignature a))) eqn:E;
      [ | reflexivity ].
    apply set_has_In in E. apply In_signature_set in E; tauto.
Qed.

(** X20: the difference of the signatures of two values whose keys hold no
    [|] is the difference of their paths: [added] lists, in ascending
    order, exactly the non-empty paths of the new value that the old value
    lacks, [removed] those of the old value that the new value lacks; and
    the difference of a signature with itself is empty, whatever the
    signature. *)
Theorem diffSignatures_of_signatures :
  forall old new : value,
    keys_lack "|" old = true -> keys_lack "|" new = true ->
    let d := diffSignatures (jsonShapeSignature old) (jsonShapeSignature new) in
    (forall p, In p (fst d)
               <-> p <> EmptyString /\ In p (shape_paths new) /\ ~ In p (shape_paths old))
    /\ (forall p, In p (snd d)
                  <-> p <> EmptyString /\ In p (shape_paths old)
                      /\ ~ In p (shape_paths new))
    /\ Sorted (fun a b => String.leb a b = true) (fst d)
    /\ Sorted (fun a b => String.leb a b = true) (snd d)
    /\ forall sig : string, diffSignatures sig sig = ([], []).
Proof.
  intros old new Ho Hn d. subst d. unfold diffSignatures. cbn [fst snd].
  split; [ | split; [ | split; [ | split ] ] ]; try apply js_sort_sorted.
  - intros p. apply (@signature_difference old new p Ho Hn).
  - intros p. apply (@signature_difference new old p Hn Ho).
  - intros sig.
    assert (E : filter (fun x => negb (set_has String.eqb x (signature_set sig)))
                  (signature_set sig) = []).
    { apply filter_nil. intros x Hx. apply negb_false_iff. now apply set_has_In. }
    now rewrite E.
Qed.

(** X20, on an instance: a forecast that lost [current.time] and gained
    [current.rain]. *)
Lemma diffSignatures_of_signatures_witness :
  In "current.rain"
    (fst (diffSignatures
            (jsonShapeSignature
               (VObject [("latitude", VNumber 51);
                         ("current", VObject [("time", VNumber 1765909800)])]))
            (jsonShapeSignature
               (VObject [("latitude", VNumber 51);
                         ("current", VObject [("rain", VNumber 0)])])))).
Proof.
  apply (proj1 (@diffSignatures_of_signatures
                  (VObject [("latitude", VNumber 51);
                            ("current", VObject [("time", VNumber 1765909800)])])
                  (VObject [("latitude", VNumber 51);
                            ("current", VObject [("rain", VNumber 0)])])
                  eq_refl eq_refl)).
  split; [ discriminate | ]. split.
  - vm_compute. auto.
  - vm_compute. intuition discriminate.
Defined.

(** ** The summary of a merge *)

Lemma first_by_map (A K : Type) (keq : K -> K -> bool) (key : A -> K) l :
  map key (first_by keq key l) = first_by keq (fun k => k) (map key l).
Proof.
  induction l as [ | x r IH ]; cbn [first_by map]; [ reflexivity | ].
  f_equal. rewrite <- IH. symmetry. apply filter_map_comm.
Qed.

Section SummaryFacts.
Variable JSON_parse : string -> option value.

Lemma plain_entry e :
  plainly_named JSON_parse e = true ->
  option_map operationName (entry_operation JSON_parse e) = entry_name JSON_parse e.
Proof.
  unfold plainly_named, entry_operation, entry_name, body_operationName.
  destruct (present (postData e)) as [ text | ].
  - intros H. apply andb_true_iff in H. destruct H as [Hm H]. rewrite Hm.
    destruct (JSON_parse text) as [ parsed | ]; [ | discriminate ].
    destruct (get_prop parsed "operationName") as [ n | ] eqn:En; [ | discriminate ].
    cbv zeta. rewrite !H. cbn [andb].
    destruct (is_string n INTROSPECTION); cbn [negb]; [ reflexivity | ].
    destruct (get_prop_total parsed "operationName" "query" En) as [q ->].
    reflexivity.
  - intros _. now destruct (String.eqb (method e) "POST").
Qed.

Lemma plain_names l :
  forallb (plainly_named JSON_parse) l = true ->
  map operationName (operations_of JSON_parse l) = entry_names JSON_parse l.
Proof.
  unfold operations_of, entry_names, named_entries.
  induction l as [ | e r IH ]; cbn [forallb flat_map]; [ reflexivity | ].
  intros H. apply andb_true_iff in H. destruct H as [He Hr].
  rewrite !map_app, (IH Hr). f_equal.
  rewrite <- (plain_entry e He).
  now destruct (entry_operation JSON_parse e).
Qed.

(** on a plainly named capture the operation list and the lookup of the
    merger hold the same names, in the same order *)
Lemma plain_operation_names l :
  forallb (plainly_named JSON_parse) l = true ->
  map operationName (extractGraphQLOperations JSON_parse (HarLog l))
  = map fst (build_newOpMap JSON_parse l).
Proof.
  intros H. rewrite extract_first_by, keys_newOpMap, !first_by_map.
  unfold entry_names in *. now rewrite (plain_names l H).
Qed.

Lemma fold_add_names (ops : list GraphQLOperation) : forall s,
  fold_left (fun s op => set_add same_value_zero (operationName op) s) ops s
  = fold_left (fun s k => set_add same_value_zero k s) (map operationName ops) s.
Proof. induction ops as [ | op r IH ]; intros s; simpl; [ reflexivity | apply IH ]. Qed.

Lemma existing_names existing n :
  forallb (plainly_named JSON_parse) existing = true ->
  set_has same_value_zero n
    (fold_left (fun s op => set_add same_value_zero (operationName op) s)
       (extractGraphQLOperations JSON_parse (HarLog existing)) [])
  = set_has same_value_zero n (entry_names JSON_parse existing).
Proof.
  intros H. rewrite fold_add_names.
  rewrite (set_has_fold_add same_value_zero same_value_zero_eq). cbn [set_has existsb orb].
  rewrite (plain_operation_names existing H), keys_newOpMap.
  apply (set_has_first_by same_value_zero fst same_value_zero_eq).
Qed.
End SummaryFacts.

Lemma merged_inj a b c a' b' c' :
  Merged a b c = Merged a' b' c' -> a = a' /\ b = b' /\ c = c'.
Proof. intros H. inversion H. auto. Qed.

Lemma In_filter_either (A : Type) (f : A -> bool) l x :
  In x (filter (fun a => negb (f a)) l) \/ In x (filter f l) <-> In x l.
Proof.
  rewrite !filter_In. destruct (f x); simpl; intuition discriminate.
Qed.

(** X21: on plainly named captures (every entry with a body is a POST whose
    body parses to an object with a truthy [operationName]) the summary of a
    merge tells what the merge did: the operations listed as new are the
    names that were appended, in that order, as many as the capture grew
    by; the operations listed as updated are the names of the new capture
    that the stored capture held; and every name filed from the new capture
    is in one of the two lists. *)
Theorem merge_summary_is_accurate :
  forall (JSON_parse : string -> option value)
         (existingEntries newEntries merged : list HarEntry)
         (newOps updatedOps : list value),
    forallb (plainly_named JSON_parse) existingEntries = true ->
    forallb (plainly_named JSON_parse) newEntries = true ->
    mergeHarFiles JSON_parse (HarLog existingEntries) (HarLog newEntries)
    = Merged merged newOps updatedOps ->
    newOps = brand_new JSON_parse existingEntries newEntries
    /\ updatedOps
       = filter (fun n => set_has same_value_zero n
                            (entry_names JSON_parse existingEntries))
           (map fst (build_newOpMap JSON_parse newEntries))
    /\ length merged = length existingEntries + length newOps
    /\ (forall n, In n newOps \/ In n updatedOps
                  <-> In n (map fst (build_newOpMap JSON_parse newEntries))).
Proof.
  intros JSON_parse existing newEntries merged newOps updatedOps He Hn Hm.
  unfold mergeHarFiles in Hm.
  rewrite operations_are_user_operations in Hm.
  destruct (length (extractGraphQLOperations JSON_parse (HarLog newEntries)) =? 0);
    [ discriminate | ].
  rewrite (plain_operation_names JSON_parse newEntries Hn) in Hm.
  apply merged_inj in Hm. destruct Hm as (Hmerged & Hnew & Hupd).
  assert (Enew : newOps = brand_new JSON_parse existing newEntries).
  { rewrite <- Hnew. unfold brand_new. rewrite <- keys_newOpMap.
    apply filter_ext. intros n. unfold is_brand_new.
    now rewrite (existing_names JSON_parse existing n He). }
  assert (Eupd : updatedOps
                 = filter (fun n => set_has same_value_zero n
                                      (entry_names JSON_parse existing))
                     (map fst (build_newOpMap JSON_parse newEntries))).
  { rewrite <- Hupd. apply filter_ext. intros n.
    apply (existing_names JSON_parse existing n He). }
  split; [ exact Enew | ]. split; [ exact Eupd | ]. split.
  - rewrite <- Hmerged, Enew, merge_entries_spec, length_app, !length_map.
    f_equal. unfold brand_new.
    rewrite <- keys_newOpMap, <- filter_map_fst, length_map. reflexivity.
  - intros n. rewrite Enew, Eupd. unfold brand_new, is_brand_new.
    rewrite <- keys_newOpMap.
    apply (In_filter_either
             (fun n => set_has same_value_zero n (entry_names JSON_parse existing))).
Qed.

(** X21, on an instance: a stored capture of GetThing and GetOther, a new
    capture of IntrospectionQuery, GetThing (twice) and GetContinent. *)
Lemma merge_summary_is_accurate_witness :
  [VString "GetContinent"]
  = brand_new json_parse [getThing_stored; getOther_exchange]
      [introspection_exchange; getThing_exchange; getThing_retry; getContinent_exchange].
Proof.
  refine (proj1 (@merge_summary_is_accurate json_parse
                   [getThing_stored; getOther_exchange]
                   [introspection_exchange; getThing_exchange; getThing_retry;
                    getContinent_exchange]
                   [getThing_retry; getOther_exchange; getContinent_exchange]
                   [VString "GetContinent"] [VString "GetThing"] _ _ _)).
  - vm_compute. reflexivity.
  - vm_compute. reflexivity.
  - vm_compute. reflexivity.
Defined.

(** ** Extracting from a merged capture *)

Section FirstOccurrences.
Variable K : Type.
Variable keq : K -> K -> bool.
Hypothesis keq_eq : forall a b, keq a b = true -> a = b.

Lemma filter_all_others x (f : list K) :
  (forall y, In y f -> keq y x = false) ->
  filter (fun y => negb (keq y x)) f = f.
Proof.
  induction f as [ | y r IH ]; cbn [filter]; [ reflexivity | ].
  intros H. rewrite (H y) by now left. cbn [negb].
  rewrite IH; [ reflexivity | ]. intros z Hz. apply H. now right.
Qed.

Lemma first_by_unique (l : list K) :
  unique_keys keq l = true -> first_by keq (fun k => k) l = l.
Proof.
  induction l as [ | x r IH ]; cbn [unique_keys first_by]; [ reflexivity | ].
  intros H. apply andb_true_iff in H. destruct H as [Hx Hr].
  apply negb_true_iff in Hx. rewrite (IH Hr). f_equal.
  apply filter_all_others. intros y Hy.
  rewrite (keq_sym keq keq_eq).
  destruct (keq x y) eqn:E; [ | reflexivity ].
  unfold set_has in Hx.
  assert (Ht : existsb (keq x) r = true) by (apply existsb_exists; eauto).
  congruence.
Qed.

Lemma first_by_app_fresh (l f : list K) :
  unique_keys keq f = true ->
  forallb (fun k => negb (set_has keq k l)) f = true ->
  first_by keq (fun k => k) (l ++ f) = first_by keq (fun k => k) l ++ f.
Proof.
  intros Hu. induction l as [ | x r IH ]; intros Hf.
  - now apply first_by_unique.
  - rewrite forallb_forall in Hf.
    cbn [app first_by]. f_equal. rewrite IH.
    + rewrite filter_app. f_equal. apply filter_all_others. intros y Hy.
      specialize (Hf y Hy). apply negb_true_iff in Hf.
      unfold set_has in Hf. cbn [existsb] in Hf. apply orb_false_iff in Hf. tauto.
    + apply forallb_forall. intros k Hk. specialize (Hf k Hk).
      apply negb_true_iff in Hf. apply negb_true_iff.
      unfold set_has in *. cbn [existsb] in Hf. apply orb_false_iff in Hf. tauto.
Qed.
End FirstOccurrences.

Section MergedOperations.
Variable JSON_parse : string -> option value.

Lemma merged_plainly_named existing newEntries :
  forallb (plainly_named JSON_parse) existing = true ->
  forallb (plainly_named JSON_parse) newEntries = true ->
  forallb (plainly_named JSON_parse) (merge_entries JSON_parse existing newEntries)
  = true.
Proof.
  intros He Hn. apply forallb_forall. intros e Hin.
  rewrite forallb_forall in He, Hn.
  destruct (@merge_sources JSON_parse existing newEntries e Hin) as [ H | [H _] ]; auto.
Qed.

Lemma operations_after_merge existing newEntries :
  forallb (plainly_named JSON_parse) existing = true ->
  forallb (plainly_named JSON_parse) newEntries = true ->
  map operationName
    (extractGraphQLOperations JSON_parse
       (HarLog (merge_entries JSON_parse existing newEntries)))
  = map operationName (extractGraphQLOperations JSON_parse (HarLog existing))
    ++ brand_new JSON_parse existing newEntries.
Proof.
  intros He Hn.
  rewrite (plain_operation_names JSON_parse _ (merged_plainly_named _ _ He Hn)).
  rewrite (plain_operation_names JSON_parse _ He).
  rewrite !keys_newOpMap, !first_by_map.
  fold (entry_names JSON_parse (merge_entries JSON_parse existing newEntries)).
  fold (entry_names JSON_parse existing).
  rewrite merged_names.
  apply (first_by_app_fresh same_value_zero same_value_zero_eq).
  - apply brand_new_unique.
  - apply brand_new_fresh.
Qed.
End MergedOperations.

(** X22: extracting from a merged capture: on plainly named captures the
    operation list of the merged capture is the operation list of the
    stored capture, in its order, followed by the operations the summary
    lists as new; and every name recorded in the new capture is among
    them. *)
Theorem operations_of_merged_capture :
  forall (JSON_parse : string -> option value)
         (existingEntries newEntries merged : list HarEntry)
         (newOps updatedOps : list value),
    forallb (plainly_named JSON_parse) existingEntries = true ->
    forallb (plainly_named JSON_parse) newEntries = true ->
    mergeHarFiles JSON_parse (HarLog existingEntries) (HarLog newEntries)
    = Merged merged newOps updatedOps ->
    map operationName (extractGraphQLOperations JSON_parse (HarLog merged))
    = map operationName (extractGraphQLOperations JSON_parse (HarLog existingEntries))
      ++ newOps
    /\ forall op,
         In op (extractGraphQLOperations JSON_parse (HarLog newEntries)) ->
         In (operationName op)
           (map operationName (extractGraphQLOperations JSON_parse (HarLog merged))).
Proof.
  intros JSON_parse existing newEntries merged newOps updatedOps He Hn Hm.
  assert (Hnew : newOps = brand_new JSON_parse existing newEntries).
  { unfold mergeHarFiles in Hm. rewrite operations_are_user_operations in Hm.
    destruct (length (extractGraphQLOperations JSON_parse (HarLog newEntries)) =? 0);
      [ discriminate | ].
    rewrite (plain_operation_names JSON_parse newEntries Hn) in Hm.
    apply merged_inj in Hm. destruct Hm as (_ & Hnew & _).
    rewrite <- Hnew. unfold brand_new. rewrite <- keys_newOpMap.
    apply filter_ext. intros n. unfold is_brand_new.
    now rewrite (existing_names JSON_parse existing n He). }
  assert (Hmerged : merged = merge_entries JSON_parse existing newEntries).
  { destruct (mergeHarFiles_entries JSON_parse existing newEntries)
      as [ H | (n & u & H) ]; rewrite H in Hm; [ discriminate | ].
    apply merged_inj in Hm. now destruct Hm as (<- & _). }
  assert (Hops : map operationName (extractGraphQLOperations JSON_parse (HarLog merged))
                 = map operationName
                     (extractGraphQLOperations JSON_parse (HarLog existing))
                   ++ newOps).
  { rewrite Hmerged, Hnew. now apply operations_after_merge. }
  split; [ exact Hops | ].
  intros op Hop. rewrite Hops, Hnew, in_app_iff.
  assert (Hkey : In (operationName op) (map fst (build_newOpMap JSON_parse newEntries))).
  { rewrite <- (plain_operation_names JSON_parse newEntries Hn). now apply in_map. }
  destruct (set_has same_value_zero (operationName op) (entry_names JSON_parse existing))
    eqn:E.
  - left. rewrite (plain_operation_names JSON_parse existing He), keys_newOpMap.
    unfold entry_names in E.
    rewrite <- (set_has_first_by same_value_zero fst same_value_zero_eq) in E.
    unfold set_has in E. apply existsb_exists in E. destruct E as (k & Hk & E).
    apply same_value_zero_eq in E. now subst.
  - right. unfold brand_new. rewrite <- keys_newOpMap. apply filter_In.
    split; [ exact Hkey | ]. unfold is_brand_new. now rewrite E.
Qed.

(** X22, on an instance: GetThing and GetOther stored, GetThing (twice) and
    GetContinent recorded. *)
Lemma operations_of_merged_capture_witness :
  map operationName
    (extractGraphQLOperations json_parse
       (HarLog [getThing_retry; getOther_exchange; getContinent_exchange]))
  = map operationName
      (extractGraphQLOperations json_parse (HarLog [getThing_stored; getOther_exchange]))
    ++ [VString "GetContinent"].
Proof.
  refine (proj1 (@operations_of_merged_capture json_parse
                   [getThing_stored; getOther_exchange]
                   [introspection_exchange; getThing_exchange; getThing_retry;
                    getContinent_exchange]
                   [getThing_retry; getOther_exchange; getContinent_exchange]
                   [VString "GetContinent"] [VString "GetThing"] _ _ _)).
  - vm_compute. reflexivity.
  - vm_compute. reflexivity.
  - vm_compute. reflexivity.
Defined.

(** ** A signature stands for its paths *)

Lemma keys_named_object fs :
  keys_named (VObject fs)
  = forallb (fun kv => nonempty (fst kv) && keys_named (snd kv)) fs.
Proof.
  cbn [keys_named]. induction fs as [ | [k x] r IH ]; cbn [forallb fst snd];
    [ reflexivity | now rewrite IH ].
Qed.

Lemma nonempty_app_l a b : nonempty a = true -> nonempty (a ++ b) = true.
Proof. destruct a; [ discriminate | reflexivity ]. Qed.

Lemma field_path_nonempty prefix k : nonempty k = true -> nonempty (field_path prefix k) = true.
Proof.
  intros Hk. unfold field_path. destruct (nonempty prefix) eqn:E; [ | exact Hk ].
  now apply nonempty_app_l.
Qed.

Lemma array_path_nonempty prefix : nonempty (array_path prefix) = true.
Proof.
  unfold array_path. destruct (nonempty prefix) eqn:E; [ | reflexivity ].
  now apply nonempty_app_l.
Qed.

Lemma walk_nonempty v : forall prefix paths,
  keys_named v = true ->
  Forall (fun p => nonempty p = true) paths ->
  Forall (fun p => nonempty p = true) (walk v prefix paths).
Proof.
  induction v as [ | | b | n | s | l IH | fs IH ] using value_ind';
    intros prefix paths Hk Hs; try exact Hs.
  - cbn [walk].
    assert (Hs' : Forall (fun p => nonempty p = true) (paths ++ [array_path prefix])).
    { apply Forall_app. split; [ exact Hs | ].
      constructor; [ apply array_path_nonempty | constructor ]. }
    destruct l as [ | x r ]; [ exact Hs' | ].
    inversion IH as [ | ? ? Hx _ ]; subst.
    cbn [keys_named] in Hk. apply andb_true_iff in Hk. destruct Hk as [Hk _].
    apply Hx; [ exact Hk | exact Hs' ].
  - rewrite walk_object. rewrite keys_named_object in Hk.
    rewrite forallb_forall in Hk. rewrite Forall_forall in IH.
    assert (Hkeys : forall k, In k (js_sort (keys fs)) -> In k (keys fs))
      by (intros k; apply In_js_sort).
    revert paths Hs Hkeys. generalize (js_sort (keys fs)).
    intros ks. induction ks as [ | k r IHr ]; intros paths Hs Hkeys; [ exact Hs | ].
    cbn [fold_left]. apply IHr; [ | intros k' Hk'; apply Hkeys; now right ].
    assert (Hin : In k (keys fs)) by (apply Hkeys; now left).
    unfold keys in Hin. apply in_map_iff in Hin. destruct Hin as ([k0 x0] & E & Hin).
    cbn [fst] in E. subst k0.
    pose proof (Hk _ Hin) as Hkx. cbn [fst snd] in Hkx.
    apply andb_true_iff in Hkx. destruct Hkx as [Hlk _].
    assert (Hs' : Forall (fun p => nonempty p = true) (paths ++ [field_path prefix k])).
    { apply Forall_app. split; [ exact Hs | ].
      constructor; [ now apply field_path_nonempty | constructor ]. }
    unfold walk_key. rewrite assoc_walkers.
    destruct (assoc k fs) as [ x | ] eqn:Ea; cbn [option_map]; [ | exact Hs' ].
    apply assoc_In in Ea.
    pose proof (Hk _ Ea) as Hkx. cbn [fst snd] in Hkx.
    apply andb_true_iff in Hkx. destruct Hkx as [_ Hx].
    apply (IH _ Ea); assumption.
Qed.

Lemma shape_paths_nonempty v p :
  keys_named v = true -> In p (shape_paths v) -> p <> EmptyString.
Proof.
  intros Hk Hin.
  pose proof (@walk_nonempty v EmptyString [] Hk (Forall_nil _)) as H.
  rewrite Forall_forall in H. apply nonempty_not_empty. now apply H.
Qed.

(** values with the same paths have the same signature *)
Lemma same_paths_same_signature a b :
  (forall p, In p (shape_paths a) <-> In p (shape_paths b)) ->
  jsonShapeSignature a = jsonShapeSignature b.
Proof.
  intros H. unfold jsonShapeSignature. fold (shape_paths a) (shape_paths b).
  f_equal. apply js_sort_perm.
  apply NoDup_Permutation; try apply NoDup_unique.
  intros p. rewrite !In_unique. apply H.
Qed.

(** an empty difference: the two values have the same paths *)
Lemma empty_difference_same_paths a b :
  keys_lack "|" a = true -> keys_lack "|" b = true ->
  keys_named a = true -> keys_named b = true ->
  diffSignatures (jsonShapeSignature a) (jsonShapeSignature b) = ([], []) ->
  forall p, In p (shape_paths a) <-> In p (shape_paths b).
Proof.
  intros Ha Hb Na Nb E p. unfold diffSignatures in E.
  assert (E1 := f_equal fst E). assert (E2 := f_equal snd E). cbn [fst snd] in E1, E2.
  assert (H1 := @signature_difference a b p Ha Hb).
  assert (H2 := @signature_difference b a p Hb Ha).
  rewrite E1 in H1. rewrite E2 in H2. cbn [In] in H1, H2.
  split; intros Hin.
  - destruct (in_dec string_dec p (shape_paths b)) as [ Hy | Hn ]; [ exact Hy | ].
    exfalso. apply H2. repeat split; try assumption.
    now apply (@shape_paths_nonempty a).
  - destruct (in_dec string_dec p (shape_paths a)) as [ Hy | Hn ]; [ exact Hy | ].
    exfalso. apply H1. repeat split; try assumption.
    now apply (@shape_paths_nonempty b).
Qed.

Lemma difference_of_equal sig : diffSignatures sig sig = ([], []).
Proof.
  unfold diffSignatures.
  assert (E : filter (fun x => negb (set_has String.eqb x (signature_set sig)))
                (signature_set sig) = []).
  { apply filter_nil. intros x Hx. apply negb_false_iff. now apply set_has_In. }
  now rewrite E.
Qed.

(** X23: for values whose keys are non-empty and hold no [|], the signature
    stands for the set of paths: two values have the same signature exactly
    when they have the same paths, and exactly when [diffSignatures] finds
    nothing; so whenever the signatures differ, [added] or [removed] names
    a path. *)
Theorem signature_change_is_explained :
  forall old new : value,
    keys_lack "|" old = true -> keys_lack "|" new = true ->
    keys_named old = true -> keys_named new = true ->
    let d := diffSignatures (jsonShapeSignature old) (jsonShapeSignature new) in
    (jsonShapeSignature old = jsonShapeSignature new
     <-> forall p, In p (shape_paths old) <-> In p (shape_paths new))
    /\ (jsonShapeSignature old = jsonShapeSignature new <-> d = ([], []))
    /\ (jsonShapeSignature old <> jsonShapeSignature new -> fst d <> [] \/ snd d <> []).
Proof.
  intros old new Ho Hn No Nn d.
  assert (Hd : d = ([], []) -> jsonShapeSignature old = jsonShapeSignature new).
  { intros E. apply same_paths_same_signature.
    now apply empty_difference_same_paths. }
  split; [ | split ].
  - split; [ | apply same_paths_same_signature ].
    intros E. apply empty_difference_same_paths; try assumption.
    rewrite E. apply difference_of_equal.
  - split; [ | exact Hd ].
    intros E. subst d. rewrite E. apply difference_of_equal.
  - intros Hne. destruct d as [ added removed ] eqn:Ed. cbn [fst snd].
    destruct added as [ | x r ]; [ | left; discriminate ].
    destruct removed as [ | y r ]; [ | right; discriminate ].
    exfalso. apply Hne. now apply Hd.
Qed.

(** X23, on an instance: a forecast that gained [current.rain]; the
    signatures differ and the difference names the path. *)
Lemma signature_change_is_explained_witness :
  fst (diffSignatures
         (jsonShapeSignature (VObject [("current", VObject [("time", VNumber 1765909800)])]))
         (jsonShapeSignature
            (VObject [("current", VObject [("time", VNumber 1765909800);
                                           ("rain", VNumber 0)])]))) <> []
  \/ snd (diffSignatures
         (jsonShapeSignature (VObject [("current", VObject [("time", VNumber 1765909800)])]))
         (jsonShapeSignature
            (VObject [("current", VObject [("time", VNumber 1765909800);
                                           ("rain", VNumber 0)])]))) <> [].
Proof.
  refine (proj2 (proj2 (@signature_change_is_explained
            (VObject [("current", VObject [("time", VNumber 1765909800)])])
            (VObject [("current", VObject [("time", VNumber 1765909800);
                                           ("rain", VNumber 0)])])
            eq_refl eq_refl eq_refl eq_refl)) _).
  vm_compute. discriminate.
Defined.

(** Without the two conditions the signature says less: a key that holds
    [|] reads as two paths, and an empty key changes the signature without
    showing in the difference. *)
Example signature_of_split_key :
  jsonShapeSignature (VObject [("a|b", VNumber 1)])
  = jsonShapeSignature (VObject [("a", VNumber 1); ("b", VNumber 2)]).
Proof. reflexivity. Qed.

Example change_without_difference :
  jsonShapeSignature (VObject [("", VNumber 1); ("a", VNumber 2)])
  <> jsonShapeSignature (VObject [("a", VNumber 2)])
  /\ diffSignatures
       (jsonShapeSignature (VObject [("", VNumber 1); ("a", VNumber 2)]))
       (jsonShapeSignature (VObject [("a", VNumber 2)])) = ([], []).
Proof. split; [ vm_compute; discriminate | reflexivity ]. Qed.

(** ** The order of the registry *)

Lemma compare_word_dot c :
  is_word c = true -> Ascii.compare "." c = Lt /\ Ascii.compare c "." = Gt.
Proof.
  intros H.
  destruct c as [[] [] [] [] [] [] [] []]; vm_compute in H; try discriminate H;
    split; reflexivity.
Qed.

(** artifacts of names made of word characters are ordered as the names *)
Lemma compare_mock_suffix w1 : forall w2,
  all_word w1 = true -> all_word w2 = true ->
  String.compare (w1 ++ MOCK_SUFFIX) (w2 ++ MOCK_SUFFIX) = String.compare w1 w2.
Proof.
  induction w1 as [ | c1 r1 IH ]; intros [ | c2 r2 ] H1 H2.
  - reflexivity.
  - cbn [all_word] in H2. apply andb_true_iff in H2. destruct H2 as [Hc _].
    change (String.compare (String "." "mock.ts") (String c2 (r2 ++ MOCK_SUFFIX)) = Lt).
    cbn [String.compare]. now rewrite (proj1 (compare_word_dot c2 Hc)).
  - cbn [all_word] in H1. apply andb_true_iff in H1. destruct H1 as [Hc _].
    change (String.compare (String c1 (r1 ++ MOCK_SUFFIX)) (String "." "mock.ts") = Gt).
    cbn [String.compare]. now rewrite (proj2 (compare_word_dot c1 Hc)).
  - cbn [all_word] in H1, H2. apply andb_true_iff in H1, H2.
    destruct H1 as [_ H1]. destruct H2 as [_ H2].
    change (String.compare (String c1 (r1 ++ MOCK_SUFFIX)) (String c2 (r2 ++ MOCK_SUFFIX))
            = String.compare (String c1 r1) (String c2 r2)).
    cbn [String.compare]. now rewrite (IH r2 H1 H2).
Qed.

Lemma sort_insert_artifacts w ws :
  all_word w = true -> Forall (fun x => all_word x = true) ws ->
  sort_insert (w ++ MOCK_SUFFIX) (map (fun x => x ++ MOCK_SUFFIX)%string ws)
  = map (fun x => x ++ MOCK_SUFFIX)%string (sort_insert w ws).
Proof.
  intros Hw. induction 1 as [ | y r Hy Hr IH ]; [ reflexivity | ].
  cbn [map sort_insert]. unfold String.leb.
  rewrite (compare_mock_suffix w y Hw Hy).
  destruct (String.compare w y); cbn [map]; try reflexivity.
  now rewrite IH.
Qed.

Lemma js_sort_artifacts ws :
  Forall (fun x => all_word x = true) ws ->
  js_sort (map (fun x => x ++ MOCK_SUFFIX)%string ws)
  = map (fun x => x ++ MOCK_SUFFIX)%string (js_sort ws).
Proof.
  induction 1 as [ | w r Hw Hr IH ]; [ reflexivity | ].
  cbn [map js_sort]. rewrite IH. apply sort_insert_artifacts; [ exact Hw | ].
  apply Forall_forall. intros x Hx. rewrite In_js_sort in Hx.
  rewrite Forall_forall in Hr. now apply Hr.
Qed.

(** the artifacts of a well-named directory, by their names *)
Lemma artifacts_by_name files :
  forallb well_named files = true ->
  filter is_mock_file files
  = map (fun x => x ++ MOCK_SUFFIX)%string (map base_name (filter is_mock_file files))
  /\ Forall (fun x => all_word x = true) (map base_name (filter is_mock_file files)).
Proof.
  induction files as [ | f r IH ]; [ intros _; split; [ reflexivity | constructor ] | ].
  cbn [forallb filter]. intros H. apply andb_true_iff in H. destruct H as [Hf Hr].
  destruct (IH Hr) as [E Hall].
  destruct (is_mock_file f) eqn:Em; [ | split; assumption ].
  rewrite is_mock_file_endsWith in Em. unfold well_named in Hf. rewrite Em in Hf.
  apply endsWith_iff in Em. destruct Em as (x & ->).
  rewrite base_name_append in Hf. cbn [map]. rewrite base_name_append. split.
  - now rewrite <- E.
  - now constructor.
Qed.

Lemma registry_entries_of_names ws :
  Forall (fun x => all_word x = true) ws ->
  map registry_entry (map (fun x => x ++ MOCK_SUFFIX)%string ws)
  = map (fun w => (w, w ++ "Mock")%string) ws.
Proof.
  induction 1 as [ | w r Hw Hr IH ]; [ reflexivity | ].
  cbn [map]. rewrite IH. f_equal. unfold registry_entry.
  now rewrite (replace_first_suffix w (all_word_dot_free w Hw)).
Qed.

Lemma NoDup_unique_keys (l : list string) : NoDup l -> unique_keys String.eqb l = true.
Proof.
  induction 1 as [ | x r Hx Hr IH ]; [ reflexivity | ].
  cbn [unique_keys]. rewrite IH, andb_true_r. apply negb_true_iff.
  destruct (set_has String.eqb x r) eqn:E; [ | reflexivity ].
  apply set_has_In in E. contradiction.
Qed.

Lemma listMocks_distinct (r : registry) :
  NoDup (map fst r) -> listMocks r = map fst r.
Proof.
  intros H. unfold listMocks, GRAPHQL_MOCKS.
  change (fun (m : list (string * string)) (e : string * string) =>
            map_set String.eqb (fst e) (snd e) m) with (@store string string String.eqb).
  assert (Heq : forall a b, String.eqb a b = true -> a = b)
    by (intros a b; apply String.eqb_eq).
  rewrite (keys_fold_store String.eqb Heq), first_by_map.
  apply (@first_by_unique string String.eqb Heq). now apply NoDup_unique_keys.
Qed.

(** X24: the registry does not depend on the order in which the directory
    is listed; and for a well-named directory that holds an artifact (no
    file listed twice) it holds one entry per artifact, in the ascending
    order of the operation names, which is the order in which [listMocks]
    returns them. *)
Theorem registry_is_in_name_order :
  forall (files : list string) (current : registry),
    (forall files', Permutation files files' ->
       updateMockRegistry files' current = updateMockRegistry files current)
    /\ (forallb well_named files = true ->
        NoDup files ->
        existsb is_mock_file files = true ->
        let names := js_sort (map base_name (filter is_mock_file files)) in
        updateMockRegistry files current = map (fun w => (w, w ++ "Mock")%string) names
        /\ listMocks (updateMockRegistry files current) = names
        /\ Sorted (fun a b => String.leb a b = true)
             (listMocks (updateMockRegistry files current))).
Proof.
  intros files current. split.
  - intros files' Hp. unfold updateMockRegistry.
    assert (E : js_sort (filter is_mock_file files') = js_sort (filter is_mock_file files)).
    { apply js_sort_perm, Permutation_sym.
      clear current. induction Hp; cbn [filter].
      - constructor.
      - destruct (is_mock_file x); [ now apply perm_skip | assumption ].
      - destruct (is_mock_file x), (is_mock_file y);
          try apply Permutation_refl; apply perm_swap.
      - eapply perm_trans; eassumption. }
    now rewrite E.
  - intros Hw Hnd He names.
    destruct (artifacts_by_name files Hw) as [E Hall].
    assert (Hr : updateMockRegistry files current
                 = map (fun w => (w, w ++ "Mock")%string) names).
    { rewrite (updateMockRegistry_some files current He), E.
      rewrite (js_sort_artifacts Hall). apply registry_entries_of_names.
      apply Forall_forall. intros x Hx. unfold names in Hx. rewrite In_js_sort in Hx.
      rewrite Forall_forall in Hall. now apply Hall. }
    assert (Hl : listMocks (updateMockRegistry files current) = names).
    { rewrite Hr, listMocks_distinct; rewrite map_map; cbn [fst]; rewrite map_id;
        [ reflexivity | ].
      eapply Permutation_NoDup; [ apply Permutation_sym, js_sort_permutation | ].
      apply (NoDup_map_inv (fun x => x ++ MOCK_SUFFIX)%string).
      rewrite <- E. now apply NoDup_filter_any. }
    split; [ exact Hr | ]. split; [ exact Hl | ].
    rewrite Hl. apply js_sort_sorted.
Qed.

(** X24, on an instance: the two artifacts of the repository beside two
    helper files, listed in another order. *)
Lemma registry_is_in_name_order_witness :
  listMocks (updateMockRegistry two_artifacts stale_registry)
  = ["GetContinent"; "GetCountry"].
Proof.
  refine (proj1 (proj2 (proj2 (@registry_is_in_name_order two_artifacts stale_registry)
                          _ _ _))).
  - reflexivity.
  - repeat constructor; cbn [In]; intuition discriminate.
  - reflexivity.
Defined.

(** ** From the capture to a passing validation *)

(** what the validator finds in the directory left by an extraction *)
Lemma stored_after_extraction (JSON_parse : string -> option value) entries clock
    mocksDir current mocksDir' names registry' name fields :
  extractMocks JSON_parse (HarLog entries) clock mocksDir current
  = Some (mocksDir', names, registry') ->
  forallb word_name names = true ->
  (forall k, lacks "=" (clock k) = true) ->
  In (name, VObject fields) (fold_left (mocks_step JSON_parse) entries []) ->
  reads_back JSON_parse (VObject fields) ->
  Some (getMockData JSON_parse (read_mock (readFile mocksDir') name))
  = get_prop (VObject fields) "data".
Proof.
  intros Hx Hw Hclock Hin (text & Htext & Hparse).
  apply extractMocks_spec in Hx. destruct Hx as (files & Hs & E).
  injection E as -> -> _.
  set (mocks := fold_left (mocks_step JSON_parse) entries []) in *.
  destruct (save_each_spec mocks clock 0 Hw) as (files' & Hs' & Hnames & Hf).
  rewrite Hs in Hs'. apply some_inj in Hs'. subst files'.
  assert (Hnd : NoDup (map fst files)).
  { rewrite Hnames, <- map_map. apply NoDup_mock_file_names; [ exact Hw | ].
    apply (proj2 (mock_keys JSON_parse entries)). }
  rewrite forallb_forall in Hw.
  assert (Hword : word_name name = true).
  { apply Hw. apply in_map_iff. exists (name, VObject fields). auto. }
  destruct name as [ | | | | w | | ]; try discriminate. cbn [word_name] in Hword.
  apply In_nth_error in Hin. destruct Hin as [i Hi].
  destruct (Hf i _ _ Hi) as (content & Hc & Hfile).
  apply nth_error_In in Hfile.
  unfold read_mock. cbn [mock_file_name to_js_string].
  change (w ++ ".mock.ts")%string with (file_of (VString w)).
  rewrite (readFile_write_all mocksDir files _ _ Hnd Hfile).
  rewrite (@parsed_text_of_artifact JSON_parse w fields (clock (0 + i)) content text
             Hword (Hclock _) Hc Htext).
  rewrite Hparse. reflexivity.
Qed.

(** X25: from the capture to a passing validation.  After [extractMocks]
    (names of word characters, time stamps without an equals sign, recorded
    responses that are objects which [JSON.parse] reads back), the
    validator finds for every recorded operation the [data] of its recorded
    response; and if the live server answers every operation of the capture
    with its recorded response, carrying data and no errors, the validation
    script exits with 0. *)
Theorem extracted_mocks_validate :
  forall (JSON_parse : string -> option value) (null_read_message : string)
         (entries : list HarEntry) (clock : nat -> string)
         (mocksDir mocksDir' : directory) (current registry' : registry)
         (names : list value) (mocks : list (value * value))
         (live : value -> value -> fetch_outcome),
    extractMocks JSON_parse (HarLog entries) clock mocksDir current
    = Some (mocksDir', names, registry') ->
    extractGraphQLMocks JSON_parse (HarLog entries) = Some mocks ->
    forallb word_name names = true ->
    (forall k, lacks "=" (clock k) = true) ->
    (forall name response, In (name, response) mocks ->
       (exists fields, response = VObject fields) /\ reads_back JSON_parse response) ->
    (forall name response, In (name, response) mocks ->
       Some (getMockData JSON_parse (read_mock (readFile mocksDir') name))
       = get_prop response "data")
    /\ ((forall op, In op (extractGraphQLOperations JSON_parse (HarLog entries)) ->
           exists response data errors http_status,
             In (operationName op, response) mocks
             /\ get_prop response "data" = Some data /\ truthy data = true
             /\ get_prop response "errors" = Some errors /\ truthy errors = false
             /\ live (operationName op) (query op)
                = FetchResponse true http_status (inr response)) ->
        validate_script JSON_parse null_read_message (readFile mocksDir') live
          (HarLog entries) = 0).
Proof.
  intros JSON_parse msg entries clock mocksDir mocksDir' current registry' names mocks
         live Hx Hm Hw Hclock Hresp.
  cbn [extractGraphQLMocks] in Hm. apply some_inj in Hm. subst mocks.
  assert (Hstored : forall name response,
            In (name, response) (fold_left (mocks_step JSON_parse) entries []) ->
            Some (getMockData JSON_parse (read_mock (readFile mocksDir') name))
            = get_prop response "data").
  { intros name response Hin.
    destruct (Hresp name response Hin) as [[fields ->] Hback].
    now apply (@stored_after_extraction JSON_parse entries clock mocksDir current
                 mocksDir' names registry' name fields). }
  split; [ exact Hstored | ].
  intros Hlive. apply script_passes_iff. intros op Hop.
  destruct (Hlive op Hop)
    as (response & data & errors & st & Hin & Hd & Htd & He & Hte & Hl).
  pose proof (Hstored _ _ Hin) as Hs. rewrite Hd in Hs. apply some_inj in Hs.
  unfold in_step, stored_mock, live_reply. rewrite Hs, Hl.
  cbn [queryLiveServer negb]. rewrite He, Hd, Hte. cbn [live_errors live_data truthy].
  repeat split; try assumption; intros H; exact H.
Qed.

(** X25, on an instance: the capture of GetThing (sent twice) and
    GetContinent, extracted into a directory that holds an older artifact of
    GetThing, and validated against a server that answers as recorded. *)
Lemma extracted_mocks_validate_witness :
  match extractMocks json_parse
          (HarLog [getThing_exchange; getThing_retry; getContinent_exchange])
          (fun _ => "2026-01-03T10:33:05.134Z")
          [("GetThing.mock.ts", "// Schema Hash: 0123456789abcdef")] [],
        extractGraphQLMocks json_parse
          (HarLog [getThing_exchange; getThing_retry; getContinent_exchange]) with
  | Some (mocksDir', _, _), Some mocks =>
      validate_script json_parse "Cannot read properties of null" (readFile mocksDir')
        (unchanged_server mocks)
        (HarLog [getThing_exchange; getThing_retry; getContinent_exchange]) = 0
  | _, _ => False
  end.
Proof.
  destruct (extractMocks json_parse
              (HarLog [getThing_exchange; getThing_retry; getContinent_exchange])
              (fun _ => "2026-01-03T10:33:05.134Z")
              [("GetThing.mock.ts", "// Schema Hash: 0123456789abcdef")] [])
    as [ [[mocksDir' names] registry'] | ] eqn:Hx;
    [ | vm_compute in Hx; discriminate ].
  destruct (extractGraphQLMocks json_parse
              (HarLog [getThing_exchange; getThing_retry; getContinent_exchange]))
    as [ mocks | ] eqn:Hm; [ | vm_compute in Hm; discriminate ].
  assert (En : names = [VString "GetThing"; VString "GetContinent"]).
  { apply (f_equal (option_map (fun r => snd (fst r)))) in Hx.
    vm_compute in Hx. now apply some_inj in Hx. }
  assert (Em : mocks
               = [(VString "GetThing",
                   VObject [("data", VObject [("thing",
                      VObject [("id", VNumber 2); ("label", VString "b")])])]);
                  (VString "GetContinent",
                   VObject [("data", VObject [("continent",
                      VObject [("code", VString "NA");
                               ("name", VString "North America")])])])]).
  { vm_compute in Hm. now apply some_inj in Hm. }
  refine (proj2 (@extracted_mocks_validate json_parse "Cannot read properties of null"
                   [getThing_exchange; getThing_retry; getContinent_exchange]
                   (fun _ => "2026-01-03T10:33:05.134Z")
                   [("GetThing.mock.ts", "// Schema Hash: 0123456789abcdef")]
                   mocksDir' [] registry' names mocks (unchanged_server mocks)
                   Hx Hm _ _ _) _).
  - subst names. reflexivity.
  - intros k. reflexivity.
  - subst mocks. intros name response [ E | [ E | [] ] ];
      injection E as <- <-; (split; [ eexists; reflexivity | ]).
    + exists (qq "{
  `data`: {
    `thing`: {
      `id`: 2,
      `label`: `b`
    }
  }
}"). split; vm_compute; reflexivity.
    + exists (qq "{
  `data`: {
    `continent`: {
      `code`: `NA`,
      `name`: `North America`
    }
  }
}"). split; vm_compute; reflexivity.
  - subst mocks. intros op Hop. vm_compute in Hop.
    destruct Hop as [ <- | [ <- | [] ] ].
    + exists (VObject [("data", VObject [("thing",
                VObject [("id", VNumber 2); ("label", VString "b")])])]),
             (VObject [("thing", VObject [("id", VNumber 2); ("label", VString "b")])]),
             VUndefined, 200.
      repeat split; try reflexivity. now left.
    + exists (VObject [("data", VObject [("continent",
                VObject [("code", VString "NA"); ("name", VString "North America")])])]),
             (VObject [("continent",
                VObject [("code", VString "NA"); ("name", VString "North America")])]),
             VUndefined, 200.
      repeat split; try reflexivity. right. now left.
Defined.
